(** * The repository reconciliation engine (internal/repos/syncer.go)

    A shallow embedding of the Syncer of internal/repos/syncer.go: the Diff
    model ([Diff.Repos], [Diff.Len], [Diff.Sort]), the per-repo
    transactional apply ([sync]), the per-service pass
    ([SyncExternalService], [delete], [notifyDeleted]), the lazy single-repo
    path ([SyncRepo], [syncRepo]), the start-up diff
    ([initialUnmodifiedDiffFromStore]), the repo limits, the message of the
    quota error, the owner label of a sync and the backoff policy
    ([calcSyncInterval]).

    Stateful code is written in a small state monad over a [World] that
    holds the store, a script of store failures, the clock and the history
    of observable events.  A Go panic is a second kind of result. *)

From stdpp Require Import base numbers list strings gmap sets sorting pretty.
From Stdlib Require Import ZArith Lia.

Local Open Scope Z_scope.

#[local] Set Warnings "-register-all,-clear-no-such-hyp".

(* ===================================================================== *)
(** ** Go's time package: instants and durations *)
(* ===================================================================== *)

Module time.

(** A [Duration] is an int64 count of nanoseconds. *)
Definition Duration := Z.

(** A [Time] is an instant, counted in nanoseconds from the zero Time
    (January 1, year 1, 00:00 UTC).  The monotonic clock reading and the
    location pointer of Go's struct are not part of the model. *)
Definition Time := Z.

#[global] Instance Duration_eq_dec : EqDecision Duration := Z.eq_dec.
#[global] Instance Time_eq_dec : EqDecision Time := Z.eq_dec.

Definition Nanosecond : Duration := 1.
Definition Microsecond : Duration := 1000 * Nanosecond.
Definition Millisecond : Duration := 1000 * Microsecond.
Definition Second : Duration := 1000 * Millisecond.
Definition Minute : Duration := 60 * Second.
Definition Hour : Duration := 60 * Minute.

Definition minDuration : Duration := - 2 ^ 63.
Definition maxDuration : Duration := 2 ^ 63 - 1.

(** Two's complement wrap-around of an int64 result. *)
Definition wrap64 (z : Z) : Z := (z + 2 ^ 63) mod 2 ^ 64 - 2 ^ 63.

(** [d * k] on Durations is int64 multiplication. *)
Definition mul (d : Duration) (k : Z) : Duration := wrap64 (d * k).

(** [t.Sub(u)]: the duration t-u; when it does not fit a Duration the
    maximum (or minimum) duration is returned. *)
Definition Sub (t u : Time) : Duration :=
  if t - u <? minDuration then minDuration
  else if maxDuration <? t - u then maxDuration
  else t - u.

(** [t.Add(d)]. *)
Definition Add (t : Time) (d : Duration) : Time := t + d.

(** [t.IsZero()]. *)
Definition IsZero (t : Time) : bool := t =? 0.

End time.

Abbreviation Time := time.Time.
Abbreviation Duration := time.Duration.

(* ===================================================================== *)
(** ** Errors *)
(* ===================================================================== *)

(** The error values the Syncer handles.  [ErrUnauthorized], [ErrForbidden],
    [ErrAccountSuspended], [RepoLimitError] and [ErrCloudDefaultSync] are
    declared in syncer.go.

    Modelled from the spec: the packages lib/errors, internal/errcode and
    internal/database are not part of the sources at hand.
    [RepoNotFoundErr] is database.RepoNotFoundErr; [ErrStore] is a failure
    reported by the store (a database error: it belongs to none of the
    classes below); [ErrHost] is a transient failure of a code host
    (network, rate limit, generic host error); [Wrap] is
    errors.Wrap/Wrapf; [Multi] is the multi-error built by errors.Append. *)
Inductive error : Type :=
| ErrUnauthorized
| ErrForbidden
| ErrAccountSuspended
| RepoNotFoundErr (Name : string)
| RepoLimitError (SiteAdded SiteLimit ReposCount ReposLimit : Z) (UserID OrgID : Z)
| ErrCloudDefaultSync
| ErrStore (msg : string)
| ErrHost (msg : string)
| Wrap (cause : error) (msg : string)
| Multi (errs : list error).

Module errors.

(** Modelled from the spec: errors.Append, "the aggregated error (nil,
    single error, or a multi-error joining all per-repo failures)". *)
Definition Append (err : option error) (e : error) : option error :=
  match err with
  | None => Some e
  | Some (Multi es) => Some (Multi (es ++ [e]))
  | Some e0 => Some (Multi [e0; e])
  end.

(** Modelled from the spec: errors.HasType(err, &RepoLimitError{}), the
    test for the quota error; it looks through wrappers. *)
Fixpoint HasTypeRepoLimitError (e : error) : bool :=
  match e with
  | RepoLimitError _ _ _ _ _ _ => true
  | Wrap c _ => HasTypeRepoLimitError c
  | Multi es => existsb HasTypeRepoLimitError es
  | _ => false
  end.

End errors.

(** Modelled from the spec: the classifiers of internal/errcode.  An error
    belongs to a class when it, or an error it wraps or joins, is of that
    class. *)
Module errcode.

Fixpoint IsUnauthorized (e : error) : bool :=
  match e with
  | ErrUnauthorized => true
  | Wrap c _ => IsUnauthorized c
  | Multi es => existsb IsUnauthorized es
  | _ => false
  end.

Fixpoint IsForbidden (e : error) : bool :=
  match e with
  | ErrForbidden => true
  | Wrap c _ => IsForbidden c
  | Multi es => existsb IsForbidden es
  | _ => false
  end.

Fixpoint IsAccountSuspended (e : error) : bool :=
  match e with
  | ErrAccountSuspended => true
  | Wrap c _ => IsAccountSuspended c
  | Multi es => existsb IsAccountSuspended es
  | _ => false
  end.

Fixpoint IsNotFound (e : error) : bool :=
  match e with
  | RepoNotFoundErr _ => true
  | Wrap c _ => IsNotFound c
  | Multi es => existsb IsNotFound es
  | _ => false
  end.

End errcode.

(* ===================================================================== *)
(** ** The backoff policy *)
(* ===================================================================== *)

Definition maxSyncInterval : Duration := 8 * time.Hour.

(** [calcSyncInterval] of syncer.go. *)
Definition calcSyncInterval (now lastSync : Time) (minSyncInterval : Duration)
    (modified : bool) (err : option error) : Duration :=
  (* Special case, we've never synced *)
  if bool_decide (err = None) && (time.IsZero lastSync || modified) then minSyncInterval
  else
    (* No change or there were errors, back off *)
    let interval := time.mul (time.Sub now lastSync) 2 in
    if interval <? minSyncInterval then minSyncInterval
    else if maxSyncInterval <? interval then maxSyncInterval
    else interval.

(* ===================================================================== *)
(** ** Data model *)
(* ===================================================================== *)

(** Modelled from the spec: api.ExternalRepoSpec, "kind+serviceID+stableID";
    the api package is not part of the sources at hand. *)
Module ExternalRepoSpec.

Record t : Type := mk {
  ID : string;
  ServiceType : string;
  ServiceID : string;
}.

#[global] Instance eq_dec : EqDecision t.
Proof. solve_decision. Defined.

Definition Equal (r s : t) : bool :=
  bool_decide (ID r = ID s) && bool_decide (ServiceType r = ServiceType s)
  && bool_decide (ServiceID r = ServiceID s).

Definition zero : t := mk "" "" "".

End ExternalRepoSpec.

(** Modelled from the spec: types.Repo, "numeric ID, Name (human path),
    ExternalRepoSpec, Private flag, UpdatedAt"; the types package is not part
    of the sources at hand.  [Sources] lists the IDs of the external
    services the repo is stored for. *)
Module Repo.

Record t : Type := mk {
  ID : Z;
  Name : string;
  ExternalRepo : ExternalRepoSpec.t;
  Private : bool;
  UpdatedAt : Time;
  Sources : list Z;
}.

#[global] Instance eq_dec : EqDecision t.
Proof. solve_decision. Defined.

(** [&types.Repo{ID: id}]: every other field has its zero value. *)
Definition ofID (id : Z) : t := mk id "" ExternalRepoSpec.zero false 0 [].

Definition withID (id : Z) (r : t) : t :=
  mk id (Name r) (ExternalRepo r) (Private r) (UpdatedAt r) (Sources r).

Definition addSource (svc : Z) (r : t) : t :=
  mk (ID r) (Name r) (ExternalRepo r) (Private r) (UpdatedAt r)
     (if bool_decide (svc ∈ Sources r) then Sources r else Sources r ++ [svc]).

(** The sources of [n] that [r] does not list yet. *)
Definition newSources (r n : t) : list Z :=
  filter (λ s, s ∉ Sources r) (Sources n).

(** Modelled from the spec: [r.Update(n)], "compare field-by-field; if
    nothing differs, classify Unmodified".  The fields observed from the
    source are copied from [n] into [r]; the numeric ID and UpdatedAt
    are the store's.  The result is the updated repo and whether anything
    was modified. *)
Definition Update (r n : t) : t * bool :=
  (mk (ID r) (Name n) (ExternalRepo n) (Private n) (UpdatedAt r)
      (Sources r ++ newSources r n),
   negb (bool_decide (Name r = Name n)
         && ExternalRepoSpec.Equal (ExternalRepo r) (ExternalRepo n)
         && bool_decide (Private r = Private n)
         && bool_decide (newSources r n = []))).

End Repo.

(** Modelled from the spec: types.ExternalService, "numeric ID, kind,
    ownership (site | user:<id> | org:<id>), cloudDefault flag,
    lastSyncAt/nextSyncAt timestamps". *)
Module ExternalService.

Record t : Type := mk {
  ID : Z;
  Kind : string;
  DisplayName : string;
  NamespaceUserID : Z;
  NamespaceOrgID : Z;
  CloudDefault : bool;
  LastSyncAt : Time;
  NextSyncAt : Time;
}.

#[global] Instance eq_dec : EqDecision t.
Proof. solve_decision. Defined.

(** Modelled from the spec: a service is site-owned when it belongs to no
    user and to no organization. *)
Definition IsSiteOwned (e : t) : bool :=
  (NamespaceUserID e =? 0) && (NamespaceOrgID e =? 0).

(** [svc.NextSyncAt = next; svc.LastSyncAt = last]. *)
Definition withSyncTimes (next last : Time) (e : t) : t :=
  mk (ID e) (Kind e) (DisplayName e) (NamespaceUserID e) (NamespaceOrgID e)
     (CloudDefault e) last next.

End ExternalService.

(** [Diff] of syncer.go: the difference found by a sync between what is in
    the store and what is returned from sources. *)
Module Diff.

Record t : Type := mk {
  Added : list Repo.t;
  Deleted : list Repo.t;
  Modified : list Repo.t;
  Unmodified : list Repo.t;
}.

#[global] Instance eq_dec : EqDecision t.
Proof. solve_decision. Defined.

(** The zero value [Diff{}]. *)
Definition zero : t := mk [] [] [] [].

(** [Repos] returns all repos in the Diff. *)
Definition Repos (d : t) : list Repo.t :=
  foldl (λ all rs, all ++ rs) [] [Added d; Deleted d; Modified d; Unmodified d].

Definition Len (d : t) : nat :=
  (length (Deleted d) + length (Modified d) + length (Added d) + length (Unmodified d))%nat.

(** Modelled from the spec: the order of types.Repos that sort.Sort uses,
    "by Repo.IDs"; the types package is not part of the sources at hand. *)
Definition byID (r s : Repo.t) : Prop := Repo.ID r ≤ Repo.ID s.

#[global] Instance byID_dec r s : Decision (byID r s).
Proof. unfold byID. apply _. Defined.

(** [Sort] sorts all Diff elements by Repo.IDs.  sort.Sort promises no
    order among repos of the same ID; the model keeps them as they were. *)
Definition Sort (d : t) : t :=
  mk (merge_sort byID (Added d)) (merge_sort byID (Deleted d))
     (merge_sort byID (Modified d)) (merge_sort byID (Unmodified d)).

End Diff.

(** [SourceResult]: what a Source sends on the results channel, a repo or
    an error. *)
Inductive SourceResult : Type :=
| SourceRepo (Repo : Repo.t)
| SourceErr (Err : error).

(** A [Source] as the Syncer uses it: [ListRepos] is the sequence of results
    the producer sends before it closes the channel; [GetRepo] is present
    when the source is a RepoGetter. *)
Record Source : Type := mkSource {
  ListRepos : list SourceResult;
  GetRepo : option (string → error + Repo.t);
}.

(** Modelled from the spec: extsvc.CodeHost, the code host a repo name
    belongs to. *)
Record CodeHost : Type := mkCodeHost {
  ServiceID : string;
  ServiceType : string;
}.

(** Modelled from the spec: conf.ExternalServiceMode, what a user may add. *)
Inductive ExternalServiceMode : Type :=
| ExternalServiceModeDisabled
| ExternalServiceModePublic
| ExternalServiceModeAll.

#[global] Instance ExternalServiceMode_eq_dec : EqDecision ExternalServiceMode.
Proof. solve_decision. Defined.

(* ===================================================================== *)
(** ** The store *)
(* ===================================================================== *)

(** Modelled from the spec: the contents of the transactional store,
    "transactional CRUD over repositories and external-service records";
    the database package and repos.Store are not part of the sources at
    hand.  A deleted row is removed from [repos]. *)
Record DB : Type := mkDB {
  repos : list Repo.t;
  external_services : list ExternalService.t;
  next_repo_id : Z;
}.

Definition withRepos (rs : list Repo.t) (d : DB) : DB :=
  mkDB rs (external_services d) (next_repo_id d).

(** database.ReposListOptions, the fields [sync] sets. *)
Record ReposListOptions : Type := mkReposListOptions {
  Names : list string;
  ExternalRepos : list ExternalRepoSpec.t;
  IncludeBlocked : bool;
  IncludeDeleted : bool;
  UseOr : bool;
}.

(** database.ExternalServicesListOptions, the fields [syncRepo] sets. *)
Record ExternalServicesListOptions : Type := mkExternalServicesListOptions {
  Kinds : list string;
  OnlyCloudDefault : bool;
  Limit : option nat;
}.

(** The calls the Syncer makes on the store. *)
Inductive StoreOp : Type :=
| OpTransact
| OpDone
| OpGetByName (name : string)
| OpList (opts : ReposListOptions)
| OpDelete (id : Z)
| OpCreateExternalServiceRepo (svc : Z) (r : Repo.t)
| OpUpdateExternalServiceRepo (svc : Z) (r : Repo.t)
| OpDeleteExternalServiceRepo (svc : Z) (id : Z)
| OpDeleteExternalServiceReposNotIn (svc : Z) (seen : gset Z)
| OpCountNamespacedRepos (userID orgID : Z)
| OpUserAllowedExternalServices (userID : Z)
| OpGetByID (id : Z)
| OpListExternalServices (opts : ExternalServicesListOptions)
| OpUpsert (svc : ExternalService.t).

(** What an observer of one run can see, in the order it happens. *)
Inductive Event : Type :=
| EvStore (op : StoreOp)        (* a call on the store *)
| EvCommit                      (* a transaction is committed *)
| EvRollback                    (* a transaction is rolled back *)
| EvSynced (d : Diff.t)         (* [d] is sent on s.Synced *)
| EvListRepos (svc : Z)         (* the producer calls src.ListRepos *)
| EvRecv (res : SourceResult)   (* a result is received from the channel *)
| EvGetRepo (svc : Z) (path : string)  (* rg.GetRepo is called *)
| EvGo (name : string).         (* a background goroutine is started *)

(** The state a run of the Syncer threads through.  [faults] scripts the
    failures of the store: each call on the store takes the next entry, and
    fails with that message when it is [Some]; past the end of the script
    every call succeeds.  [clock] is what s.Now() returns.  [ctxDone] says
    whether the context is cancelled. *)
Record World : Type := mkWorld {
  db : DB;
  faults : list (option string);
  trace : list Event;
  clock : Time;
  ctxDone : bool;
}.

Definition withDB (d : DB) (w : World) : World :=
  mkWorld d (faults w) (trace w) (clock w) (ctxDone w).
Definition withFaults (fs : list (option string)) (w : World) : World :=
  mkWorld (db w) fs (trace w) (clock w) (ctxDone w).
Definition withTrace (tr : list Event) (w : World) : World :=
  mkWorld (db w) (faults w) tr (clock w) (ctxDone w).

(* ===================================================================== *)
(** ** The monad of stateful code that may panic *)
(* ===================================================================== *)

Inductive result (A : Type) : Type :=
| Done (a : A)
| Panicked (msg : string).
Arguments Done {A} a.
Arguments Panicked {A} msg.

Definition M (A : Type) : Type := World → result A * World.

#[global] Instance M_ret : MRet M := λ A a w, (Done a, w).
#[global] Instance M_bind : MBind M := λ A B k m w,
  match m w with
  | (Done a, w') => k a w'
  | (Panicked msg, w') => (Panicked msg, w')
  end.

Definition panic {A} (msg : string) : M A := λ w, (Panicked msg, w).

(** [defer]: run [deferred] after [body], whether it returned or panicked.
    The deferred function receives the named results as they stand: what
    [body] returned, or [onPanic] when it panicked, and may replace them. *)
Definition defer {A} (body : M A) (onPanic : A) (deferred : A → M A) : M A := λ w,
  match body w with
  | (Done a, w') => deferred a w'
  | (Panicked msg, w') =>
      match deferred onPanic w' with
      | (_, w'') => (Panicked msg, w'')
      end
  end.

Definition emit (ev : Event) : M () := λ w, (Done (), withTrace (trace w ++ [ev]) w).

(** [s.Now()]. *)
Definition Now : M Time := λ w, (Done (clock w), w).

(** [ctx.Done()] is ready. *)
Definition ctxIsDone : M bool := λ w, (Done (ctxDone w), w).

(** The next entry of the failure script. *)
Definition nextFault : M (option string) := λ w,
  match faults w with
  | [] => (Done None, w)
  | f :: fs => (Done f, withFaults fs w)
  end.

(** Read and replace the contents of the store. *)
Definition onDB {A} (run : DB → A * DB) : M A := λ w,
  let '(a, d) := run (db w) in (Done a, withDB d w).

(** A call on the store: it is recorded, then fails as scripted or runs. *)
Definition call {A} (op : StoreOp) (run : DB → A * DB) : M (error + A) :=
  _ ← emit (EvStore op);
  f ← nextFault;
  match f with
  | Some msg => mret (inl (ErrStore msg))
  | None => a ← onDB run; mret (inr a)
  end.

(** Modelled from the spec: the operations of the repository table
    (database.RepoStore), which is not part of the sources at hand. *)
Module RepoStore.

(** The rows [opts] selects: by Name or by ExternalRepoSpec, "logical OR"
    when [UseOr] is set.  No row of the model is soft-deleted or
    blocked, so IncludeDeleted and IncludeBlocked select nothing more. *)
Definition selects (opts : ReposListOptions) (r : Repo.t) : bool :=
  let byName := bool_decide (Repo.Name r ∈ Names opts) in
  let bySpec := bool_decide (Repo.ExternalRepo r ∈ ExternalRepos opts) in
  match Names opts, ExternalRepos opts with
  | [], [] => true
  | _, [] => byName
  | [], _ => bySpec
  | _, _ => if UseOr opts then byName || bySpec else byName && bySpec
  end.

Definition List (opts : ReposListOptions) : M (error + list Repo.t) :=
  call (OpList opts) (λ d, (filter (λ r, selects opts r) (repos d), d)).

Definition GetByName (name : string) : M (error + Repo.t) :=
  r ← call (OpGetByName name) (λ d, (head (filter (λ r, Repo.Name r = name) (repos d)), d));
  mret (match r with
        | inl err => inl err
        | inr None => inl (RepoNotFoundErr name)
        | inr (Some repo) => inr repo
        end).

Definition Delete (id : Z) : M (option error) :=
  r ← call (OpDelete id) (λ d, ((), withRepos (filter (λ r, Repo.ID r ≠ id) (repos d)) d));
  mret (match r with inl err => Some err | inr _ => None end).

End RepoStore.

(** Modelled from the spec: the operations on external-service records
    (database.ExternalServiceStore), not part of the sources at hand. *)
Module ExternalServiceStore.

Definition GetByID (id : Z) : M (error + ExternalService.t) :=
  r ← call (OpGetByID id)
        (λ d, (head (filter (λ e, ExternalService.ID e = id) (external_services d)), d));
  mret (match r with
        | inl err => inl err
        | inr None => inl (ErrStore "external service not found")
        | inr (Some svc) => inr svc
        end).

Definition selects (opts : ExternalServicesListOptions) (e : ExternalService.t) : bool :=
  (bool_decide (Kinds opts = []) || bool_decide (ExternalService.Kind e ∈ Kinds opts))
  && (negb (OnlyCloudDefault opts) || ExternalService.CloudDefault e).

Definition List (opts : ExternalServicesListOptions) : M (error + list ExternalService.t) :=
  call (OpListExternalServices opts)
    (λ d, (let found := filter (λ e, selects opts e) (external_services d) in
           match Limit opts with Some n => take n found | None => found end, d)).

Definition Upsert (svc : ExternalService.t) : M (option error) :=
  r ← call (OpUpsert svc)
        (λ d, let others :=
                filter (λ e, ExternalService.ID e ≠ ExternalService.ID svc) (external_services d) in
              ((), mkDB (repos d) (others ++ [svc]) (next_repo_id d)));
  mret (match r with inl err => Some err | inr _ => None end).

End ExternalServiceStore.

(** Modelled from the spec: repos.Store, the transactional store the Syncer
    writes through; it is not part of the sources at hand. *)
Module Store.

(** A transaction remembers the contents it was opened on. *)
Definition Tx : Type := DB.

Definition Transact : M (error + Tx) :=
  call OpTransact (λ d, (d, d)).

(** [tx.Done(err)]: with an error the transaction is rolled back and the
    error returned; without one it is committed, and a failed commit
    leaves the store as it was when the transaction was opened. *)
Definition Done (tx : Tx) (err : option error) : M (option error) :=
  _ ← emit (EvStore OpDone);
  match err with
  | Some e =>
      _ ← emit EvRollback;
      _ ← onDB (λ _, ((), tx));
      mret (Some e)
  | None =>
      f ← nextFault;
      match f with
      | Some msg => _ ← onDB (λ _, ((), tx)); mret (Some (ErrStore msg))
      | None => _ ← emit EvCommit; mret None
      end
  end.

(** A repo counts for a namespace when it is stored for an external
    service of that user or organization; with neither given, for any
    service that is not site-owned. *)
Definition inNamespace (d : DB) (userID orgID : Z) (r : Repo.t) : bool :=
  existsb
    (λ e, bool_decide (ExternalService.ID e ∈ Repo.Sources r)
          && (if 0 <? userID then ExternalService.NamespaceUserID e =? userID
              else if 0 <? orgID then ExternalService.NamespaceOrgID e =? orgID
              else negb (ExternalService.IsSiteOwned e)))
    (external_services d).

Definition CountNamespacedRepos (userID orgID : Z) : M (error + Z) :=
  call (OpCountNamespacedRepos userID orgID)
    (λ d, (Z.of_nat (length (filter (λ r, inNamespace d userID orgID r) (repos d))), d)).

(** The new row gets the next ID and is stored for [svc]; the repo is
    returned with its ID set. *)
Definition CreateExternalServiceRepo (svc : ExternalService.t) (r : Repo.t)
    : M (error + Repo.t) :=
  call (OpCreateExternalServiceRepo (ExternalService.ID svc) r)
    (λ d, let row := Repo.addSource (ExternalService.ID svc) (Repo.withID (next_repo_id d) r) in
          (row, mkDB (repos d ++ [row]) (external_services d) (next_repo_id d + 1))).

(** The row of [r]'s ID is replaced by [r], stored for [svc]. *)
Definition UpdateExternalServiceRepo (svc : ExternalService.t) (r : Repo.t)
    : M (option error) :=
  x ← call (OpUpdateExternalServiceRepo (ExternalService.ID svc) r)
        (λ d, ((), withRepos
                     ((λ row, if bool_decide (Repo.ID row = Repo.ID r)
                              then Repo.addSource (ExternalService.ID svc) r else row)
                        <$> repos d) d));
  mret (match x with inl err => Some err | inr _ => None end).

(** "delete the stored record". *)
Definition DeleteExternalServiceRepo (svc : ExternalService.t) (id : Z)
    : M (option error) :=
  x ← call (OpDeleteExternalServiceRepo (ExternalService.ID svc) id)
        (λ d, ((), withRepos (filter (λ r, Repo.ID r ≠ id) (repos d)) d));
  mret (match x with inl err => Some err | inr _ => None end).

(** The rows stored for [svc] whose ID is not in [seen]. *)
Definition unseen (svc : ExternalService.t) (seen : gset Z) (r : Repo.t) : Prop :=
  ExternalService.ID svc ∈ Repo.Sources r ∧ Repo.ID r ∉ seen.

#[global] Instance unseen_dec svc seen r : Decision (unseen svc seen r).
Proof. unfold unseen. apply _. Defined.

(** "delete every stored repo for this service whose ID was not marked
    seen"; the IDs of the deleted repos are returned. *)
Definition DeleteExternalServiceReposNotIn (svc : ExternalService.t) (seen : gset Z)
    : M (list Z * option error) :=
  x ← call (OpDeleteExternalServiceReposNotIn (ExternalService.ID svc) seen)
        (λ d, (Repo.ID <$> filter (unseen svc seen) (repos d),
               withRepos (filter (λ r, ¬ unseen svc seen r) (repos d)) d));
  mret (match x with inl err => ([], Some err) | inr deleted => (deleted, None) end).

End Store.

(* ===================================================================== *)
(** ** The Syncer *)
(* ===================================================================== *)

Module strings.

(** [strings.TrimPrefix(s, prefix)]. *)
Definition TrimPrefix (s prefix : string) : string :=
  if String.prefix prefix s
  then String.substring (String.length prefix) (String.length s - String.length prefix) s
  else s.

End strings.

(** Conversion of a Go int to uint64. *)
Definition uint64 (z : Z) : Z := z mod 2 ^ 64.

(** The fields of the Syncer struct the modelled code reads.  [Synced] says
    whether the Synced channel is non-nil; what is sent on it is recorded as
    [EvSynced].  The Store is the [db] of the world, Now its [clock];
    logging, tracing and metrics are not part of the model. *)
Record Syncer : Type := mkSyncer {
  Sourcer : ExternalService.t → error + Source;
  Synced : bool;
  UserReposMaxPerUser : Z;
  UserReposMaxPerSite : Z;
}.

(** Modelled from the spec: what the Syncer takes from packages that are
    not part of the sources at hand (extsvc, conf, database.Users). *)
Record Env : Type := mkEnv {
  (** extsvc.CodeHostOf(name, extsvc.PublicCodeHosts...): "the owning
      code host type for the name", if any *)
  CodeHostOf : string → option CodeHost;
  (** extsvc.TypeToKind *)
  TypeToKind : string → string;
  (** codehost.IsPackageHost() *)
  IsPackageHost : CodeHost → bool;
  (** what database.Users.UserAllowedExternalServices answers for a user *)
  UserAllowedMode : Z → ExternalServiceMode;
  (** conf.UserReposMaxPerSite() and conf.UserReposMaxPerUser(): the "two
      numeric ceilings" of the quota configuration *)
  confUserReposMaxPerSite : Z;
  confUserReposMaxPerUser : Z;
}.

Section Syncer.

Variable env : Env.

Definition UserAllowedExternalServices (userID : Z) : M (error + ExternalServiceMode) :=
  call (OpUserAllowedExternalServices userID) (λ d, (UserAllowedMode env userID, d)).

(** [select { case <-ctx.Done(): case s.Synced <- d: }], guarded by
    [s.Synced != nil && d.Len() > 0]. *)
Definition publish (s : Syncer) (d : Diff.t) : M () :=
  if Synced s && bool_decide (0 < Diff.Len d)%nat then
    cancelled ← ctxIsDone;
    if cancelled : bool then mret () else emit (EvSynced d)
  else mret ().

(** [notifyDeleted] *)
Definition notifyDeleted (s : Syncer) (deleted : list Z) : M () :=
  let d := foldl (λ d id, Diff.mk (Diff.Added d) (Diff.Deleted d ++ [Repo.ofID id])
                                  (Diff.Modified d) (Diff.Unmodified d))
                 Diff.zero deleted in
  publish s d.

Definition userReposMaxPerSite (s : Syncer) : Z :=
  let n := uint64 (UserReposMaxPerSite s) in
  if 0 <? n then n else uint64 (confUserReposMaxPerSite env).

Definition userReposMaxPerUser (s : Syncer) : Z :=
  if UserReposMaxPerUser s =? 0 then uint64 (confUserReposMaxPerUser env)
  else uint64 (UserReposMaxPerUser s).

(** *** sync: the per-repo transactional apply *)

(** The options of the lookup in [sync]. *)
Definition lookupOptions (sourced : Repo.t) : ReposListOptions :=
  {| Names := [Repo.Name sourced];
     ExternalRepos := [Repo.ExternalRepo sourced];
     IncludeBlocked := true;
     IncludeDeleted := true;
     UseOr := true |}.

(** [case 1] of [sync]: existing repo, update. *)
Definition syncUpdate (svc : ExternalService.t) (stored0 sourced : Repo.t)
    : M (Diff.t * option error) :=
  let '(stored0, modified) := Repo.Update stored0 sourced in
  if negb modified then
    mret (Diff.mk [] [] [] [stored0], None)
  else
    err ← Store.UpdateExternalServiceRepo svc stored0;
    match err with
    | Some err =>
        mret (Diff.zero, Some (Wrap err "syncer: failed to update external service repo"))
    | None => mret (Diff.mk [] [] [stored0] [], None)
    end.

(** [case 0] of [sync]: new repo, create. *)
Definition syncCreate (s : Syncer) (svc : ExternalService.t) (sourced : Repo.t)
    : M (Diff.t * option error) :=
  limit ←
    (if negb (ExternalService.IsSiteOwned svc) then (* enforce user and org repo limits *)
       siteAdded ← Store.CountNamespacedRepos 0 0;
       match siteAdded with
       | inl err => mret (Some (Wrap err "counting total user added repos"))
       | inr siteAdded =>
           userAdded ← Store.CountNamespacedRepos (ExternalService.NamespaceUserID svc)
                                                  (ExternalService.NamespaceOrgID svc);
           match userAdded with
           | inl err => mret (Some (Wrap err "counting repos added by user or organization"))
           | inr userAdded =>
               let userLimit := userReposMaxPerUser s in
               let siteLimit := userReposMaxPerSite s in
               if (siteLimit <=? siteAdded) || (userLimit <=? userAdded) then
                 mret (Some (RepoLimitError siteAdded siteLimit userAdded userLimit
                               (ExternalService.NamespaceUserID svc)
                               (ExternalService.NamespaceOrgID svc)))
               else mret None
           end
       end
     else mret None);
  match limit with
  | Some err => mret (Diff.zero, Some err)
  | None =>
      created ← Store.CreateExternalServiceRepo svc sourced;
      match created with
      | inl err =>
          mret (Diff.zero, Some (Wrap err "syncer: failed to create external service repo"))
      | inr sourced => mret (Diff.mk [sourced] [] [] [], None)
      end
  end.

(** The loop of [case 2] that picks [conflicting] and [existing]. *)
Definition pickConflict (sourced : Repo.t) (stored : list Repo.t)
    : option Repo.t * option Repo.t :=
  foldl (λ '(conflicting, existing) r,
           if ExternalRepoSpec.Equal (Repo.ExternalRepo r) (Repo.ExternalRepo sourced)
           then (conflicting, Some r)
           else (Some r, existing))
        (None, None) stored.

(** The body of [sync], inside the transaction. *)
Definition syncBody (s : Syncer) (svc : ExternalService.t) (sourced : Repo.t)
    : M (Diff.t * option error) :=
  stored ← RepoStore.List (lookupOptions sourced);
  match stored with
  | inl err => mret (Diff.zero, Some (Wrap err "syncer: getting repo from the database"))
  | inr stored =>
      match stored with
      | [_; _] => (* Existing repo with a naming conflict *)
          match pickConflict sourced stored with
          | (None, _) => panic "nil pointer dereference"
          | (Some conflicting, existing) =>
              err ← RepoStore.Delete (Repo.ID conflicting);
              match err with
              | Some err =>
                  mret (Diff.zero, Some (Wrap err "syncer: failed to delete conflicting repo"))
              | None =>
                  match existing with
                  | None => panic "nil pointer dereference"
                  | Some existing => syncUpdate svc existing sourced
                  end
              end
          end
      | [stored0] => syncUpdate svc stored0 sourced
      | [] => syncCreate s svc sourced
      | _ => (* Impossible since we have two separate unique constraints *)
          panic "unreachable"
      end
  end.

(** The deferred function of [sync]: commit, then publish. *)
Definition syncDeferred (s : Syncer) (tx : Store.Tx) (res : Diff.t * option error)
    : M (Diff.t * option error) :=
  let '(d, err) := res in
  (* We must commit the transaction before publishing to s.Synced *)
  err ← Store.Done tx err;
  match err with
  | Some _ => mret (d, err)
  | None => _ ← publish s d; mret (d, None)
  end.

(** [sync] syncs a sourced repo of a given external service, returning a
    diff with a single repo.  When the body panics the named results are
    [Diff{}] and [nil]. *)
Definition sync (s : Syncer) (svc : ExternalService.t) (sourced : Repo.t)
    : M (Diff.t * option error) :=
  tx ← Store.Transact;
  match tx with
  | inl err => mret (Diff.zero, Some (Wrap err "syncer: opening transaction"))
  | inr tx => defer (syncBody s svc sourced) (Diff.zero, None) (syncDeferred s tx)
  end.

(** *** SyncExternalService: the per-service pass *)

(** [delete] *)
Definition delete (s : Syncer) (svc : ExternalService.t) (seen : gset Z)
    : M (nat * option error) :=
  (* We do deletion in a best effort manner *)
  '(deleted, err) ← Store.DeleteExternalServiceReposNotIn svc seen;
  _ ← notifyDeleted s deleted;
  mret (length deleted, err).

(** The local [fatal] of [SyncExternalService]. *)
Definition fatal (err : error) : bool :=
  errcode.IsUnauthorized err || errcode.IsForbidden err || errcode.IsAccountSuspended err.

(** The locals the loop over the results updates. *)
Record Pass : Type := mkPass {
  modified : bool;
  seen : gset Z;
  errs : option error;
}.

Definition passStart : Pass := mkPass false ∅ None.

(** The filter [allowed]: user added external services only sync public
    code, unless the user may add private code. *)
Definition allowedFor (svc : ExternalService.t) : M (error + (Repo.t → bool)) :=
  if negb (ExternalService.NamespaceUserID svc =? 0) then
    mode ← UserAllowedExternalServices (ExternalService.NamespaceUserID svc);
    match mode with
    | inl err => mret (inl (Wrap err "checking if user can add private code"))
    | inr mode =>
        if bool_decide (mode ≠ ExternalServiceModeAll)
        then mret (inr (λ r, negb (Repo.Private r)))
        else mret (inr (λ _, true))
    end
  else mret (inr (λ _, true)).

(** [for res := range results]: insert or update repos as they are
    sourced, keeping track of what was seen.  A [break] ends the
    recursion. *)
Fixpoint consume (s : Syncer) (svc : ExternalService.t) (allowed : Repo.t → bool)
    (results : list SourceResult) (p : Pass) : M Pass :=
  match results with
  | [] => mret p
  | res :: results =>
      _ ← emit (EvRecv res);
      match res with
      | SourceErr err =>
          let errs :=
            errors.Append (errs p)
              (Wrap err ("fetching from code host " +:+ ExternalService.DisplayName svc)) in
          if fatal err then
            (* Delete all external service repos of this external service *)
            mret (mkPass (modified p) ∅ errs)
          else consume s svc allowed results (mkPass (modified p) (seen p) errs)
      | SourceRepo sourced =>
          if negb (allowed sourced) then consume s svc allowed results p
          else
            '(diff, err) ← sync s svc sourced;
            match err with
            | Some err =>
                let errs := errors.Append (errs p) err in
                (* Stop syncing this external service as soon as we know
                   repository limits have been exceeded. *)
                if errors.HasTypeRepoLimitError err
                then mret (mkPass (modified p) (seen p) errs)
                else consume s svc allowed results (mkPass (modified p) (seen p) errs)
            | None =>
                let seen := foldl (λ seen r, {[Repo.ID r]} ∪ seen) (seen p) (Diff.Repos diff) in
                let modified :=
                  modified p
                  || bool_decide (0 < length (Diff.Modified diff) + length (Diff.Added diff))%nat in
                consume s svc allowed results (mkPass modified seen (errs p))
            end
      end
  end.

(** Whether the repos that were not seen are deleted after the loop. *)
Definition deletes (svc : ExternalService.t) (errs : option error) : bool :=
  match errs with
  | None => true
  | Some errs => negb (ExternalService.IsSiteOwned svc) && fatal errs
  end.

(** The deletion of the repos that were not sourced: the number of
    deleted repos and the errors so far. *)
Definition prune (s : Syncer) (svc : ExternalService.t) (p : Pass)
    : M (nat * option error) :=
  if deletes svc (errs p) then
    '(deleted, deletedErr) ← delete s svc (seen p);
    mret (deleted,
          match deletedErr with
          | Some deletedErr =>
              errors.Append (errs p) (Wrap deletedErr "some repos couldn't be deleted")
          | None => errs p
          end)
  else mret (0%nat, errs p).

(** What follows the loop: deletion, backoff, and the upsert of the
    external service. *)
Definition complete (s : Syncer) (svc : ExternalService.t) (minSyncInterval : Duration)
    (p : Pass) : M (option error) :=
  '(deleted, errs) ← prune s svc p;
  now ← Now;
  let modified := modified p || bool_decide (0 < deleted)%nat in
  let interval := calcSyncInterval now (ExternalService.LastSyncAt svc)
                    minSyncInterval modified errs in
  let svc := ExternalService.withSyncTimes (time.Add now interval) now svc in
  err ← ExternalServiceStore.Upsert svc;
  mret (match err with
        | Some err => errors.Append errs (Wrap err "upserting external service")
        | None => errs
        end).

(** [SyncExternalService] syncs repos using the supplied external service
    in a streaming fashion.  Deletes of repositories that were not sourced
    are done at the end. *)
Definition SyncExternalService (s : Syncer) (externalServiceID : Z)
    (minSyncInterval : Duration) : M (option error) :=
  svc ← ExternalServiceStore.GetByID externalServiceID;
  match svc with
  | inl err => mret (Some (Wrap err "fetching external services"))
  | inr svc =>
      if ExternalService.CloudDefault svc then mret (Some ErrCloudDefaultSync)
      else
        allowed ← allowedFor svc;
        match allowed with
        | inl err => mret (Some err)
        | inr allowed =>
            match Sourcer s svc with
            | inl err => mret (Some err)
            | inr src =>
                _ ← emit (EvListRepos (ExternalService.ID svc));
                p ← consume s svc allowed (ListRepos src) passStart;
                complete s svc minSyncInterval p
            end
        end
  end.

(** *** The lazy single-repo path *)

(** The deferred function of [syncRepo], registered when a stored record
    exists. *)
Definition syncRepoDeferred (s : Syncer) (svc : ExternalService.t) (stored : Repo.t)
    (res : option Repo.t * option error) : M (option Repo.t * option error) :=
  match res.2 with
  | Some err =>
      if errcode.IsNotFound err || errcode.IsUnauthorized err
         || errcode.IsForbidden err || errcode.IsAccountSuspended err
      then
        _ ← Store.DeleteExternalServiceRepo svc (Repo.ID stored);
        _ ← notifyDeleted s [Repo.ID stored];
        mret res
      else mret res
  | None => mret res
  end.

(** The part of [syncRepo] that follows the registration of the deferred
    function. *)
Definition syncRepoFetch (s : Syncer) (svc : ExternalService.t)
    (getRepo : string → error + Repo.t) (name path : string)
    : M (option Repo.t * option error) :=
  _ ← emit (EvGetRepo (ExternalService.ID svc) path);
  match getRepo path with
  | inl err => mret (None, Some err)
  | inr repo =>
      if Repo.Private repo then mret (None, Some (RepoNotFoundErr name))
      else
        '(d, err) ← sync s svc repo;
        match err with
        | Some err => mret (None, Some err)
        | None =>
            (* [repo] points to the sourced repo, whose ID the store set *)
            mret (Some (default repo (head (Diff.Added d))), None)
        end
  end.

(** The options of the listing of external services in [syncRepo]:
    package host services, or else cloud default services only. *)
Definition servicesOptions (codehost : CodeHost) : ExternalServicesListOptions :=
  {| Kinds := [TypeToKind env (ServiceType codehost)];
     OnlyCloudDefault := negb (IsPackageHost env codehost);
     Limit := Some 1%nat |}.

(** The [path] of [syncRepo]. *)
Definition pathOf (codehost : CodeHost) (name : string) : string :=
  strings.TrimPrefix name (strings.TrimPrefix (ServiceID codehost) "https://").

Definition syncRepo (s : Syncer) (codehost : CodeHost) (name : string)
    (stored : option Repo.t) : M (option Repo.t * option error) :=
  svcs ← ExternalServiceStore.List (servicesOptions codehost);
  match svcs with
  | inl err => mret (None, Some (Wrap err "listing external services"))
  | inr [svc] =>
      match Sourcer s svc with
      | inl err => mret (None, Some err)
      | inr src =>
          match GetRepo src with
          | None =>
              mret (None, Some (Wrap (RepoNotFoundErr name)
                                  "can't get repo metadata for service"))
          | Some getRepo =>
              let path := pathOf codehost name in
              match stored with
              | Some stored =>
                  defer (syncRepoFetch s svc getRepo name path) (None, None)
                        (syncRepoDeferred s svc stored)
              | None => syncRepoFetch s svc getRepo name path
              end
          end
      end
  | inr _ =>
      mret (None, Some (Wrap (RepoNotFoundErr name)
                          "cloud default external service not found"))
  end.

(** [SyncRepo] syncs a single repository by name and associates it with
    an external service.  In the background mode the goroutine is
    recorded as started; what it does later is not part of the run. *)
Definition SyncRepo (s : Syncer) (name : string) (background : bool)
    : M (option Repo.t * option error) :=
  found ← RepoStore.GetByName name;
  match found with
  | inl err =>
      if negb (errcode.IsNotFound err) then mret (None, Some err)
      else
        match CodeHostOf env name with
        | None => mret (None, Some (RepoNotFoundErr name))
        | Some codehost => syncRepo s codehost name None
        end
  | inr repo =>
      match CodeHostOf env name with
      | None => mret (Some repo, None)
      | Some codehost =>
          (* Only public repos can be individually synced on sourcegraph.com *)
          if Repo.Private repo then mret (None, Some (RepoNotFoundErr name))
          else
            now ← Now;
            (* Don't sync the repo if it's been updated in the past 1 minute. *)
            if time.Sub now (Repo.UpdatedAt repo) <? time.Minute then mret (Some repo, None)
            else if background then
              _ ← emit (EvGo name);
              mret (Some repo, None)
            else
              '(updatedRepo, err) ← syncRepo s codehost name (Some repo);
              match err with
              | Some err => mret (None, Some err)
              | None => mret (updatedRepo, None)
              end
      end
  end.

(** *** Start-up *)

(** [initialUnmodifiedDiffFromStore] creates a diff of all repos present
    in the store and sends it to s.Synced.  The listing takes the zero
    [ReposListOptions]; a failed listing is logged.  The diff is sent
    whatever its length. *)
Definition initialUnmodifiedDiffFromStore (s : Syncer) : M () :=
  if negb (Synced s) then mret ()
  else
    stored ← RepoStore.List (mkReposListOptions [] [] false false false);
    match stored with
    | inl _ => mret ()
    | inr stored =>
        cancelled ← ctxIsDone;
        if cancelled : bool then mret () else emit (EvSynced (Diff.mk [] [] [] stored))
    end.

End Syncer.

(** *** Owners and the message of the quota error *)

Definition externalServiceOwnerType : Type := string.

Definition ownerUndefined : externalServiceOwnerType := "".
Definition ownerSite : externalServiceOwnerType := "site".
Definition ownerUser : externalServiceOwnerType := "user".
Definition ownerOrg : externalServiceOwnerType := "org".

(** The [owner] label the closure returned by [observeSync] computes for
    the metrics of a sync; [None] is the nil external service. *)
Definition observeSync_owner (svc : option ExternalService.t) : externalServiceOwnerType :=
  match svc with
  | None => ownerUndefined
  | Some svc =>
      if 0 <? ExternalService.NamespaceUserID svc then ownerUser
      else if 0 <? ExternalService.NamespaceOrgID svc then ownerOrg
      else ownerSite
  end.

(** The method [Error] of [RepoLimitError]; the numbers are printed in
    decimal. *)
Definition RepoLimitError_Error (SiteAdded SiteLimit ReposCount ReposLimit UserID OrgID : Z)
    : string :=
  if 0 <? UserID then
    "reached maximum allowed user added repos: site:" +:+ pretty SiteAdded +:+ "/"
    +:+ pretty SiteLimit +:+ ", user:" +:+ pretty ReposCount +:+ "/" +:+ pretty ReposLimit
    +:+ " (user-id: " +:+ pretty UserID +:+ ")"
  else if 0 <? OrgID then
    "reached maximum allowed organization added repos: site:" +:+ pretty SiteAdded +:+ "/"
    +:+ pretty SiteLimit +:+ ", organization:" +:+ pretty ReposCount +:+ "/"
    +:+ pretty ReposLimit +:+ " (org-id: " +:+ pretty OrgID +:+ ")"
  else "expected either userID or orgID to be defined".

(* ===================================================================== *)
(** ** Notions the properties are stated with *)
(* ===================================================================== *)

(** The next entry of the failure script, when it is a failure. *)
Definition fault (w : World) : option string :=
  match faults w with f :: _ => f | [] => None end.

(** No call on the store fails. *)
Definition healthy (w : World) : Prop := Forall (λ f, f = None) (faults w).

(** The world after a call on the store that leaves the contents [d]. *)
Definition afterCall (op : StoreOp) (d : DB) (w : World) : World :=
  mkWorld d (tail (faults w)) (trace w ++ [EvStore op]) (clock w) (ctxDone w).

(** The world after [tx.Done(err)] left the contents [d]. *)
Definition afterDone (d : DB) (fs : list (option string)) (evs : list Event) (w : World) : World :=
  mkWorld d fs (trace w ++ EvStore OpDone :: evs) (clock w) (ctxDone w).

(** [wp m w Q]: the run of [m] from [w] ends in a result and a world that
    satisfy [Q]. *)
Definition wp {A} (m : M A) (w : World) (Q : result A → World → Prop) : Prop :=
  Q (m w).1 (m w).2.

(** The diffs sent on Synced, in order. *)
Definition published (evs : list Event) : list Diff.t :=
  omap (λ ev, match ev with EvSynced d => Some d | _ => None end) evs.

(** The calls that delete the repos of a service that were not seen. *)
Definition pruned (evs : list Event) : list (Z * gset Z) :=
  omap (λ ev, match ev with
              | EvStore (OpDeleteExternalServiceReposNotIn svc seen) => Some (svc, seen)
              | _ => None
              end) evs.

(** What was received from the source, in order. *)
Definition received (evs : list Event) : list SourceResult :=
  omap (λ ev, match ev with EvRecv res => Some res | _ => None end) evs.

(** The contacts with a source: a listing, a received result, a fetch. *)
Definition isContact (ev : Event) : bool :=
  match ev with
  | EvListRepos _ | EvRecv _ | EvGetRepo _ _ => true
  | _ => false
  end.

Definition contacts (evs : list Event) : list Event :=
  filter (λ ev, isContact ev) evs.

(** The rows the lookup of [sync] finds for a sourced repo. *)
Definition matching (d : DB) (sourced : Repo.t) : list Repo.t :=
  filter (λ r, RepoStore.selects (lookupOptions sourced) r) (repos d).

(** The repo counts [sync] compares with the limits. *)
Definition countNamespaced (d : DB) (userID orgID : Z) : Z :=
  Z.of_nat (length (filter (λ r, Store.inNamespace d userID orgID r) (repos d))).

(** The uniqueness constraints of the database: on the ID, on the name and
    on the external repo spec. *)
Definition unique (d : DB) : Prop :=
  NoDup (Repo.ID <$> repos d) ∧ NoDup (Repo.Name <$> repos d)
  ∧ NoDup (Repo.ExternalRepo <$> repos d).

(** A diff with exactly one repo, which is added, modified or unmodified. *)
Definition single (d : Diff.t) (r : Repo.t) : Prop :=
  Diff.Deleted d = [] ∧
  ((Diff.Added d = [r] ∧ Diff.Modified d = [] ∧ Diff.Unmodified d = [])
   ∨ (Diff.Added d = [] ∧ Diff.Modified d = [r] ∧ Diff.Unmodified d = [])
   ∨ (Diff.Added d = [] ∧ Diff.Modified d = [] ∧ Diff.Unmodified d = [r])).

(** The error class of the lazy path: not found, unauthorized, forbidden
    or account suspended. *)
Definition gone (err : error) : bool :=
  errcode.IsNotFound err || errcode.IsUnauthorized err
  || errcode.IsForbidden err || errcode.IsAccountSuspended err.


(** What every run of [sync] guarantees.  The events are calls on the
    store of the apply itself; nothing is sent on Synced unless the apply
    succeeded and committed, and then the diff is sent right after the
    commit (when there is a channel and the context is live); an apply
    that fails leaves the store as it was, with an error of no class. *)
Definition syncPost (s : Syncer) (w : World) (r : result (Diff.t * option error))
    (w' : World) : Prop :=
  clock w' = clock w ∧ ctxDone w' = ctxDone w ∧
  ∃ evs, trace w' = trace w ++ evs ∧ pruned evs = [] ∧ contacts evs = [] ∧
    match r with
    | Done (d, None) =>
        (∃ pre, evs = pre ++ EvCommit
                        :: (if Synced s && negb (ctxDone w) then [EvSynced d] else [])
                ∧ published pre = []) ∧
        (∃ x, single d x
              ∧ (NoDup (Repo.ID <$> repos (db w)) → Repo.ID x ∈ Repo.ID <$> repos (db w')))
    | Done (d, Some e) =>
        published evs = [] ∧ db w' = db w ∧ fatal e = false ∧ gone e = false
    | Panicked msg => published evs = []
    end.


(** An aggregated error that holds a fatal error. *)
Definition hasFatal (errs : option error) : Prop :=
  ∃ e, errs = Some e ∧ fatal e = true.

(** A fatal error among the results received from the source. *)
Definition fatalReceived (evs : list Event) : Prop :=
  ∃ e, SourceErr e ∈ received evs ∧ fatal e = true.

(** What every run of the loop over the results guarantees, when it starts
    with no fatal error recorded.  The loop never deletes the repos that
    were not seen and sends no Diff with deleted repos; it ends with a
    fatal error recorded exactly when one was received from the source,
    and then with an empty seen set; it ends with no error recorded only
    when no error was received. *)
Definition passPost (p : Pass) (w : World) (r : result Pass) (w' : World) : Prop :=
  clock w' = clock w ∧ ctxDone w' = ctxDone w ∧
  ∃ evs, trace w' = trace w ++ evs ∧ pruned evs = []
    ∧ Forall (λ d, Diff.Deleted d = []) (published evs)
    ∧ ∀ p', r = Done p' →
        (hasFatal (errs p') ↔ fatalReceived evs)
        ∧ (hasFatal (errs p') → seen p' = ∅)
        ∧ (errs p' = None → errs p = None ∧ ∀ e, SourceErr e ∉ received evs).

(** The external service as [SyncExternalService] upserts it. *)
Definition synced (svc : ExternalService.t) (now : Time) (minSyncInterval : Duration)
    (modified : bool) (errs : option error) : ExternalService.t :=
  ExternalService.withSyncTimes
    (time.Add now (calcSyncInterval now (ExternalService.LastSyncAt svc)
                     minSyncInterval modified errs))
    now svc.

(** The Diff [notifyDeleted] sends for the deleted IDs. *)
Definition deletedDiff (deleted : list Z) : Diff.t :=
  Diff.mk [] (Repo.ofID <$> deleted) [] [].

(** What every run of the completion of a pass guarantees: it returns, and
    its last step is the upsert of the external service with its new sync
    times.  Before that, the repos that were not seen are deleted when
    [deletes] says so, and only then. *)
Definition completePost (s : Syncer) (svc : ExternalService.t) (minSyncInterval : Duration)
    (p : Pass) (w : World) (r : result (option error)) (w' : World) : Prop :=
  ∃ err evs deleted errs',
    r = Done err
    ∧ trace w' = trace w ++ evs
                 ++ [EvStore (OpUpsert (synced svc (clock w) minSyncInterval
                                          (modified p || bool_decide (0 < deleted)%nat) errs'))]
    ∧ (if deletes svc (errs p) then
         pruned evs = [(ExternalService.ID svc, seen p)]
         ∧ match fault w with
           | None =>
               repos (db w') = filter (λ r, ¬ Store.unseen svc (seen p) r) (repos (db w))
               ∧ deleted = length (filter (Store.unseen svc (seen p)) (repos (db w)))
               ∧ errs' = errs p
               ∧ published evs
                 = (if Synced s && negb (ctxDone w) && bool_decide (0 < deleted)%nat
                    then [deletedDiff (Repo.ID <$> filter (Store.unseen svc (seen p))
                                                          (repos (db w)))]
                    else [])
           | Some msg =>
               repos (db w') = repos (db w) ∧ deleted = 0%nat
               ∧ errs' = errors.Append (errs p)
                           (Wrap (ErrStore msg) "some repos couldn't be deleted")
               ∧ published evs = []
           end
       else evs = [] ∧ repos (db w') = repos (db w) ∧ deleted = 0%nat ∧ errs' = errs p)
    ∧ (healthy w →
       err = errs'
       ∧ synced svc (clock w) minSyncInterval
           (modified p || bool_decide (0 < deleted)%nat) errs'
         ∈ external_services (db w')).


(** Every row of [d'] is a row of [d] or is stored for [svc]. *)
Definition rowsFrom (svc : ExternalService.t) (d d' : DB) : Prop :=
  ∀ r, r ∈ repos d' → r ∈ repos d ∨ ExternalService.ID svc ∈ Repo.Sources r.



(** The IDs of the rows are below the next ID the store hands out. *)
Definition fresh (d : DB) : Prop :=
  Forall (λ r, Repo.ID r < next_repo_id d) (repos d).

(** The calls on the store, in order. *)
Definition storeOps (evs : list Event) : list StoreOp :=
  omap (λ ev, match ev with EvStore op => Some op | _ => None end) evs.

(** The constraints of the store a run starts from. *)
Definition constrained (w : World) : Prop := unique (db w) ∧ fresh (db w).

(** The row of a sourced repo after an apply: it carries what the source
    observed. *)
Definition rowOf (sourced row : Repo.t) : Prop :=
  Repo.Name row = Repo.Name sourced
  ∧ Repo.ExternalRepo row = Repo.ExternalRepo sourced
  ∧ Repo.Private row = Repo.Private sourced
  ∧ Repo.Sources sourced ⊆ Repo.Sources row.

(** Nothing was sent on Synced between the worlds [w0] and [w]. *)
Definition silentSince (w0 w : World) : Prop := published (trace w) = published (trace w0).

(** The errors that end the loop over the results. *)
Definition stops (e : error) : bool := fatal e || errors.HasTypeRepoLimitError e.

(** What every run of the loop receives: the results in the order the
    source sent them, up to the point where the loop ends.  It ends before
    the last result only on a fatal error of the source or on a
    RepoLimitError; when it ends with no error recorded, every result was
    received. *)
Definition orderPost (results : list SourceResult) (w : World) (r : result Pass)
    (w' : World) : Prop :=
  ∃ evs, trace w' = trace w ++ evs ∧ received evs `prefix_of` results
         ∧ ∀ p', r = Done p' →
             (errs p' = None → received evs = results)
             ∧ (received evs ≠ results → ∃ e, errs p' = Some e ∧ stops e = true).

(** The listing of a source was started. *)
Definition listed (evs : list Event) : Prop := ∃ id, EvListRepos id ∈ evs.

(** A pass that ends before the listing of the source is started has only
    read the store. *)
Definition unreachedPost (id : Z) (w : World) (r : result (option error)) (w' : World)
    : Prop :=
  ∃ evs, trace w' = trace w ++ evs
    ∧ (listed evs
       ∨ ((∃ e, r = Done (Some e))
          ∧ db w' = db w
          ∧ (∃ ops, evs = EvStore <$> ops
                    ∧ (ops = [OpGetByID id]
                       ∨ ∃ uid, ops = [OpGetByID id; OpUserAllowedExternalServices uid])))).

(** The repo the lazy path returns when it succeeds: the live repo as the
    source returned it, or the new row when the apply inserted one. *)
Definition fetchedPost (svc : ExternalService.t) (getRepo : string → error + Repo.t)
    (path : string) (d : DB) (r : result (option Repo.t * option error)) : Prop :=
  ∀ repo, r = Done (Some repo, None) →
    ∃ live, getRepo path = inr live ∧ Repo.Private live = false
      ∧ repo = match matching d live with
               | [] => Repo.addSource (ExternalService.ID svc) (Repo.withID (next_repo_id d) live)
               | _ => live
               end.

(* ===================================================================== *)
(** ** An example store *)
(* ===================================================================== *)

(** A small installation: a user's GitHub service, a site GitLab service
    and the cloud default GitHub service, with four stored repos. *)
Module Example.

Definition github : CodeHost := mkCodeHost "https://github.com/" "github".

Definition env : Env :=
  {| CodeHostOf := λ name, if String.prefix "github.com/" name then Some github else None;
     TypeToKind := λ ty, if bool_decide (ty = "github") then "GITHUB" else ty;
     IsPackageHost := λ _, false;
     UserAllowedMode := λ _, ExternalServiceModePublic;
     confUserReposMaxPerSite := 200000;
     confUserReposMaxPerUser := 2000 |}.

Definition spec (id : string) : ExternalRepoSpec.t :=
  ExternalRepoSpec.mk id "github" "https://github.com/".

Definition repoA : Repo.t := Repo.mk 1 "github.com/o/a" (spec "A") false 0 [10].
Definition repoC : Repo.t := Repo.mk 2 "github.com/o/c" (spec "C") false 0 [10].
Definition repoD : Repo.t := Repo.mk 3 "github.com/o/d" (spec "D") false 0 [10].
Definition repoP : Repo.t := Repo.mk 4 "github.com/o/p" (spec "P") true 0 [30].

(** A user's service, the site's service and the cloud default service. *)
Definition userService : ExternalService.t :=
  ExternalService.mk 10 "GITHUB" "user github" 7 0 false 0 0.
Definition siteService : ExternalService.t :=
  ExternalService.mk 20 "GITLAB" "site gitlab" 0 0 false 0 0.
Definition cloudService : ExternalService.t :=
  ExternalService.mk 30 "GITHUB" "github.com" 0 0 true 0 0.

Definition store : DB :=
  mkDB [repoA; repoC; repoD; repoP] [userService; siteService; cloudService] 5.

(** 2022-01-01 00:00 UTC, in seconds from the zero Time. *)
Definition now : Time := 63776592000 * time.Second.

Definition world : World := mkWorld store [] [] now false.

(** The source renames C to the name of D. *)
Definition renamed : Repo.t := Repo.mk 0 "github.com/o/d" (spec "C") false 0 [10].
Definition newB : Repo.t := Repo.mk 0 "github.com/o/b" (spec "B") false 0 [10].
Definition newE : Repo.t := Repo.mk 0 "github.com/o/e" (spec "E") false 0 [10].

Definition sourceOf (results : list SourceResult) : Source := mkSource results None.

Definition syncer (results : list SourceResult) : Syncer :=
  mkSyncer (λ _, inr (sourceOf results)) true 0 0.



(** A store that breaks the uniqueness of names. *)
Definition repoA2 : Repo.t := Repo.mk 6 "github.com/o/a" (spec "A2") false 0 [10].
Definition repoA3 : Repo.t := Repo.mk 7 "github.com/o/a" (spec "A3") false 0 [10].
Definition brokenStore : DB := mkDB [repoA; repoA2; repoA3] [userService] 8.

Definition worldOf (d : DB) : World := mkWorld d [] [] now false.

(** A syncer whose user repo limit is 3, the number of repos of the
    user's service in [store]. *)
Definition limited (results : list SourceResult) : Syncer :=
  mkSyncer (λ _, inr (sourceOf results)) true 3 0.

(** A source whose live repos are all private. *)
Definition privateGetter : Source :=
  mkSource [] (Some (λ path, inr (Repo.mk 0 ("github.com/" +:+ path) (spec path) true 0 [30]))).
Definition lazySyncer : Syncer := mkSyncer (λ _, inr privateGetter) true 0 0.

Definition publicOnly : Repo.t → bool := λ r, negb (Repo.Private r).

(** The runs of the examples. *)
Definition unauthorized : list SourceResult :=
  [SourceRepo repoA; SourceErr ErrUnauthorized; SourceRepo newB].
Definition storedB : Repo.t := Repo.mk 5 "github.com/o/b" (spec "B") false 0 [10].
Definition renamedC : Repo.t := Repo.mk 2 "github.com/o/d" (spec "C") false 0 [10].

Definition addB : result (Diff.t * option error) * World :=
  sync env (syncer []) userService newB world.
Definition renameC : result (Diff.t * option error) * World :=
  sync env (syncer []) userService renamed world.
Definition passUnauthorized : result (option error) * World :=
  SyncExternalService env (syncer unauthorized) 10 time.Minute world.

(** A world whose lookup in the next apply fails. *)
Definition failing : World := mkWorld store [None; Some "connection lost"] [] now false.

(** A private repo of the user's code host. *)
Definition privateB : Repo.t := Repo.mk 0 "github.com/o/b" (spec "B") true 0 [10].

(** A syncer without a Synced channel. *)
Definition quiet (results : list SourceResult) : Syncer :=
  mkSyncer (λ _, inr (sourceOf results)) false 0 0.

(** A world whose clock is 30 seconds after the stored repos were updated. *)
Definition early : World := mkWorld store [] [] (30 * time.Second) false.

(** A source whose live repos are public. *)
Definition publicGetter : Source :=
  mkSource [] (Some (λ path, inr (Repo.mk 0 ("github.com/" +:+ path) (spec path) false 0 [30]))).
Definition liveSyncer : Syncer := mkSyncer (λ _, inr publicGetter) true 0 0.
Definition liveA : Repo.t := Repo.mk 0 "github.com/o/a" (spec "o/a") false 0 [30].

(** The repo A as the source lists it, and a listing of two repos. *)
Definition sourcedA : Repo.t := Repo.mk 0 "github.com/o/a" (spec "A") false 0 [10].
Definition listing : list Repo.t := [sourcedA; newB].
Definition passListing : result (option error) * World :=
  SyncExternalService env (syncer (SourceRepo <$> listing)) 10 time.Minute world.

End Example.


(* ===================================================================== *)
(** ** Rules for runs *)
(* ===================================================================== *)

Lemma wp_run {A} (m : M A) w Q r w' : wp m w Q → m w = (r, w') → Q r w'.
Proof. unfold wp. intros H E. by rewrite E in H. Qed.

Lemma wp_intro {A} (m : M A) w (Q : result A → World → Prop) :
  (∀ r w', m w = (r, w') → Q r w') → wp m w Q.
Proof. unfold wp. intros H. apply H. by destruct (m w). Qed.

Lemma wp_ex {A} (m : M A) w (Q : result A → World → Prop) :
  wp m w Q → ∃ r w', m w = (r, w') ∧ Q r w'.
Proof. unfold wp. intros H. exists (m w).1, (m w).2. by destruct (m w). Qed.

Lemma wp_mono {A} (m : M A) w (Q Q' : result A → World → Prop) :
  wp m w Q → (∀ r w', Q r w' → Q' r w') → wp m w Q'.
Proof. unfold wp. auto. Qed.

Lemma wp_ret {A} (a : A) w Q : Q (Done a) w → wp (mret a) w Q.
Proof. done. Qed.

Lemma wp_panic {A} msg w (Q : result A → World → Prop) :
  Q (Panicked msg) w → wp (panic msg) w Q.
Proof. done. Qed.

Lemma wp_bind {A B} (m : M A) (k : A → M B) w Q :
  wp m w (λ r w', match r with
                  | Done a => wp (k a) w' Q
                  | Panicked msg => Q (Panicked msg) w'
                  end) →
  wp (m ≫= k) w Q.
Proof. unfold wp, mbind, M_bind. by destruct (m w) as [[a|msg] w']. Qed.

Lemma wp_defer {A} (body : M A) onPanic deferred w Q :
  wp body w (λ r w', match r with
                     | Done a => wp (deferred a) w' Q
                     | Panicked msg =>
                         wp (deferred onPanic) w' (λ _ w'', Q (Panicked msg) w'')
                     end) →
  wp (defer body onPanic deferred) w Q.
Proof.
  unfold wp, defer. destruct (body w) as [[a|msg] w']; [done|].
  simpl. by destruct (deferred onPanic w').
Qed.

Lemma wp_emit ev w Q : Q (Done ()) (withTrace (trace w ++ [ev]) w) → wp (emit ev) w Q.
Proof. done. Qed.

Lemma wp_Now w Q : Q (Done (clock w)) w → wp Now w Q.
Proof. done. Qed.

Lemma wp_ctxIsDone w Q : Q (Done (ctxDone w)) w → wp ctxIsDone w Q.
Proof. done. Qed.

(** A call on the store fails as scripted, or runs. *)
Lemma call_eq {A} op (run : DB → A * DB) w :
  call op run w =
  match fault w with
  | Some msg => (Done (inl (ErrStore msg)), afterCall op (db w) w)
  | None => (Done (inr (run (db w)).1), afterCall op (run (db w)).2 w)
  end.
Proof.
  unfold call, fault, afterCall, emit, nextFault, onDB, mbind, M_bind, mret, M_ret.
  destruct w as [d fs tr clk cd]; simpl.
  destruct fs as [|[msg|] fs]; simpl; try done; by destruct (run d).
Qed.

Lemma call_inr {A} op (run : DB → A * DB) w a w' :
  call op run w = (Done (inr a), w') →
  fault w = None ∧ a = (run (db w)).1 ∧ w' = afterCall op (run (db w)).2 w.
Proof. rewrite call_eq. destruct (fault w); naive_solver. Qed.

Lemma call_inl {A} op (run : DB → A * DB) w e w' :
  call op run w = (Done (inl e), w') →
  ∃ msg, fault w = Some msg ∧ e = ErrStore msg ∧ w' = afterCall op (db w) w.
Proof. rewrite call_eq. destruct (fault w); naive_solver. Qed.

Lemma wp_call {A} op (run : DB → A * DB) w Q :
  (∀ msg, fault w = Some msg → Q (Done (inl (ErrStore msg))) (afterCall op (db w) w)) →
  (fault w = None → Q (Done (inr (run (db w)).1)) (afterCall op (run (db w)).2 w)) →
  wp (call op run) w Q.
Proof.
  intros Hf Hok. unfold wp. rewrite call_eq. destruct (fault w); simpl; auto.
Qed.

(** [tx.Done(err)] rolls back, fails to commit, or commits. *)
Lemma Done_eq tx err w :
  Store.Done tx err w =
  match err with
  | Some e => (Done (Some e), afterDone tx (faults w) [EvRollback] w)
  | None =>
      match fault w with
      | Some msg => (Done (Some (ErrStore msg)), afterDone tx (tail (faults w)) [] w)
      | None => (Done None, afterDone (db w) (tail (faults w)) [EvCommit] w)
      end
  end.
Proof.
  unfold Store.Done, fault, afterDone, emit, nextFault, onDB, mbind, M_bind, mret, M_ret.
  destruct w as [d fs tr clk cd]; simpl.
  destruct err; simpl; [by rewrite <- app_assoc|].
  destruct fs as [|[msg|] fs]; simpl; try done; by rewrite <- app_assoc.
Qed.

Lemma wp_Done tx err w Q :
  (∀ e, err = Some e → Q (Done (Some e)) (afterDone tx (faults w) [EvRollback] w)) →
  (∀ msg, err = None → fault w = Some msg →
     Q (Done (Some (ErrStore msg))) (afterDone tx (tail (faults w)) [] w)) →
  (err = None → fault w = None →
     Q (Done None) (afterDone (db w) (tail (faults w)) [EvCommit] w)) →
  wp (Store.Done tx err) w Q.
Proof.
  intros H1 H2 H3. unfold wp. rewrite Done_eq.
  destruct err; [by apply H1|]. destruct (fault w); simpl; auto.
Qed.

Opaque wp.

Ltac wp_unfold_op :=
  unfold Store.Transact, RepoStore.List, RepoStore.GetByName, RepoStore.Delete,
    ExternalServiceStore.GetByID, ExternalServiceStore.List, ExternalServiceStore.Upsert,
    Store.CountNamespacedRepos, Store.CreateExternalServiceRepo,
    Store.UpdateExternalServiceRepo, Store.DeleteExternalServiceRepo,
    Store.DeleteExternalServiceReposNotIn, UserAllowedExternalServices.

(** One step of a run: the rule of the construct at the head. *)
Ltac wp_step :=
  lazymatch goal with
  | |- wp (mret _) _ _ => apply wp_ret
  | |- wp (panic _) _ _ => apply wp_panic
  | |- wp (call _ _) _ _ => apply wp_call; [intros ? ?|intros ?]
  | |- wp (Store.Done _ _) _ _ => apply wp_Done; [intros ? ?|intros ? ? ?|intros ? ?]
  | |- wp (mbind _ _) _ _ => apply wp_bind
  | |- wp (defer _ _ _) _ _ => apply wp_defer
  | |- wp (emit _) _ _ => apply wp_emit
  | |- wp Now _ _ => apply wp_Now
  | |- wp ctxIsDone _ _ => apply wp_ctxIsDone
  | |- wp (match ?x with _ => _ end) _ _ => destruct x eqn:?
  | |- wp _ _ _ => progress wp_unfold_op
  end; cbv beta iota.

Ltac wp_go := repeat wp_step.

(** The components of the worlds a run goes through. *)
Ltac wsimpl :=
  cbn [db faults trace clock ctxDone afterCall afterDone withTrace withDB withFaults
       repos external_services next_repo_id withRepos fst snd] in *.

Arguments Repo.addSource : simpl never.
Arguments Repo.withID : simpl never.
Arguments Repo.Update : simpl never.
Arguments lookupOptions : simpl never.

Lemma healthy_fault w : healthy w → fault w = None.
Proof. unfold healthy, fault. by destruct 1. Qed.

Lemma healthy_afterCall op d w : healthy w → healthy (afterCall op d w).
Proof. unfold healthy, afterCall; simpl. by destruct 1. Qed.

Lemma healthy_withTrace tr w : healthy w → healthy (withTrace tr w).
Proof. done. Qed.

Lemma published_app evs1 evs2 : published (evs1 ++ evs2) = published evs1 ++ published evs2.
Proof. apply omap_app. Qed.

Lemma pruned_app evs1 evs2 : pruned (evs1 ++ evs2) = pruned evs1 ++ pruned evs2.
Proof. apply omap_app. Qed.

Lemma received_app evs1 evs2 : received (evs1 ++ evs2) = received evs1 ++ received evs2.
Proof. apply omap_app. Qed.

Lemma contacts_app evs1 evs2 : contacts (evs1 ++ evs2) = contacts evs1 ++ contacts evs2.
Proof. apply filter_app. Qed.

(* ===================================================================== *)
(** ** The backoff policy *)
(* ===================================================================== *)



(** Whatever the inputs, the interval is one of three values. *)
Lemma calcSyncInterval_cases now lastSync minI modified err :
  let r := calcSyncInterval now lastSync minI modified err in
  r = minI ∨ r = maxSyncInterval ∨ minI ≤ r ≤ maxSyncInterval.
Proof.
  unfold calcSyncInterval. simpl.
  destruct (_ && _); [by left|].
  destruct (Z.ltb_spec (time.mul (time.Sub now lastSync) 2) minI); [by left|].
  destruct (Z.ltb_spec maxSyncInterval (time.mul (time.Sub now lastSync) 2)); lia.
Qed.


(* ===================================================================== *)
(** ** sync: the per-repo apply *)
(* ===================================================================== *)

Lemma NoDup_fmap_eq {A B} (f : A → B) (l : list A) x y :
  NoDup (f <$> l) → x ∈ l → y ∈ l → f x = f y → x = y.
Proof.
  induction l as [|a l IH]; [intros _ Hx; by apply elem_of_nil in Hx|].
  rewrite fmap_cons, NoDup_cons. intros [Ha Hl] Hx Hy Hf.
  apply elem_of_cons in Hx as [->|Hx]; apply elem_of_cons in Hy as [->|Hy]; auto.
  - destruct Ha. rewrite Hf. by apply list_elem_of_fmap_2.
  - destruct Ha. rewrite <- Hf. by apply list_elem_of_fmap_2.
Qed.

Lemma NoDup_fmap_filter {A B} (f : A → B) (P : A → Prop) `{∀ x, Decision (P x)} (l : list A) :
  NoDup (f <$> l) → NoDup (f <$> filter P l).
Proof.
  intros Hl. apply (sublist_NoDup _ (f <$> l)); [done|].
  apply fmap_sublist, sublist_filter.
Qed.

Lemma ExternalRepoSpec_Equal_true r s : ExternalRepoSpec.Equal r s = true ↔ r = s.
Proof.
  unfold ExternalRepoSpec.Equal. destruct r, s; simpl.
  rewrite !andb_true_iff, !bool_decide_eq_true.
  split; [by intros [[-> ->] ->] | by intros [= -> -> ->]].
Qed.

Lemma ExternalRepoSpec_Equal_false r s : ExternalRepoSpec.Equal r s = false ↔ r ≠ s.
Proof.
  rewrite <- not_true_iff_false, ExternalRepoSpec_Equal_true. done.
Qed.

Lemma Update_ID r n r' b : Repo.Update r n = (r', b) → Repo.ID r' = Repo.ID r.
Proof. unfold Repo.Update. by intros [= <- _]. Qed.

Lemma Update_Name r n r' b : Repo.Update r n = (r', b) → Repo.Name r' = Repo.Name n.
Proof. unfold Repo.Update. by intros [= <- _]. Qed.

Lemma fmap_ID_replace svc r (l : list Repo.t) :
  Repo.ID <$> ((λ row, if bool_decide (Repo.ID row = Repo.ID r)
                       then Repo.addSource svc r else row) <$> l)
  = Repo.ID <$> l.
Proof.
  rewrite <- list_fmap_compose. apply list_fmap_ext. intros _ row _. simpl.
  case_bool_decide; [|done]. by unfold Repo.addSource.
Qed.

Lemma filter_singleton_elem {A} (P : A → Prop) `{∀ x, Decision (P x)} (l : list A) a :
  filter P l = [a] → a ∈ l.
Proof.
  intros Hf. assert (a ∈ filter P l) as Ha by (rewrite Hf; set_solver).
  by apply list_elem_of_filter in Ha as [_ ?].
Qed.

Lemma filter_pair_elem {A} (P : A → Prop) `{∀ x, Decision (P x)} (l : list A) a b :
  filter P l = [a; b] → (P a ∧ a ∈ l) ∧ (P b ∧ b ∈ l).
Proof.
  intros Hf.
  assert (a ∈ filter P l ∧ b ∈ filter P l) as [Ha Hb] by (rewrite Hf; set_solver).
  by apply list_elem_of_filter in Ha, Hb.
Qed.

Lemma filter_pair_NoDup {A B} (f : A → B) (P : A → Prop) `{∀ x, Decision (P x)}
    (l : list A) a b :
  NoDup (f <$> l) → filter P l = [a; b] → f a ≠ f b.
Proof.
  intros Hl Hf. apply (NoDup_fmap_filter f P) in Hl. rewrite Hf in Hl.
  apply NoDup_cons in Hl as [Hab _]. set_solver.
Qed.

(** The loop of case 2 on two rows. *)
Lemma pickConflict_pair sourced a b conflicting existing :
  pickConflict sourced [a; b] = (Some conflicting, Some existing) →
  (conflicting = a ∧ existing = b ∨ conflicting = b ∧ existing = a)
  ∧ Repo.ExternalRepo existing = Repo.ExternalRepo sourced
  ∧ Repo.ExternalRepo conflicting ≠ Repo.ExternalRepo sourced.
Proof.
  unfold pickConflict. simpl.
  destruct (ExternalRepoSpec.Equal (Repo.ExternalRepo a) _) eqn:Ha;
    destruct (ExternalRepoSpec.Equal (Repo.ExternalRepo b) _) eqn:Hb;
    intros Heq; simplify_eq.
  - apply ExternalRepoSpec_Equal_true in Ha. apply ExternalRepoSpec_Equal_false in Hb. auto.
  - apply ExternalRepoSpec_Equal_false in Ha. apply ExternalRepoSpec_Equal_true in Hb. auto.
Qed.

(** With unique IDs, the row that is kept in case 2 is still stored after
    the conflicting row is deleted. *)
Lemma existing_survives (P : Repo.t → Prop) `{∀ x, Decision (P x)} (l : list Repo.t)
    sourced a b conflicting existing r' m :
  NoDup (Repo.ID <$> l) →
  filter P l = [a; b] →
  pickConflict sourced [a; b] = (Some conflicting, Some existing) →
  Repo.Update existing sourced = (r', m) →
  Repo.ID r' ∈ Repo.ID <$> filter (λ r, Repo.ID r ≠ Repo.ID conflicting) l.
Proof.
  intros Hnd Hf Hp Hu. rewrite (Update_ID _ _ _ _ Hu).
  pose proof (filter_pair_NoDup Repo.ID P l a b Hnd Hf) as Hne.
  apply filter_pair_elem in Hf as [[_ Ha] [_ Hb]].
  apply pickConflict_pair in Hp as [[[-> ->]|[-> ->]] _];
    apply list_elem_of_fmap_2, list_elem_of_filter; split; auto.
Qed.

(** Where it is found, the split of an event list at the commit. *)
Ltac split_commit :=
  first
    [ exists []; split; [reflexivity|done]
    | eexists [_]; split; [reflexivity|done]
    | eexists [_; _]; split; [reflexivity|done]
    | eexists [_; _; _]; split; [reflexivity|done]
    | eexists [_; _; _; _]; split; [reflexivity|done]
    | eexists [_; _; _; _; _]; split; [reflexivity|done]
    | eexists [_; _; _; _; _; _]; split; [reflexivity|done]
    | eexists [_; _; _; _; _; _; _]; split; [reflexivity|done] ].

Lemma sync_post env s svc sourced w :
  wp (sync env s svc sourced) w (syncPost s w).
Proof.
  unfold sync, syncBody, syncDeferred, syncUpdate, syncCreate, publish.
  wp_go; try discriminate.
  all: unfold syncPost; wsimpl.
  all: rewrite <- ?app_assoc; cbn [app].
  all: split; [done|split; [done|]].
  all: eexists; split; [reflexivity|].
  all: split; [done|split; [done|]].
  all: destruct (Synced s) eqn:?, (ctxDone w) eqn:?; simplify_eq/=.
  all: try done.
  all: split; [split_commit|].
  all: eexists; split; [unfold single; simpl; naive_solver|].
  all: intros Hnd.
  all: try (rewrite fmap_app; set_solver).
  all: try (rewrite ?fmap_ID_replace;
            match goal with
            | H : Repo.Update _ _ = _ |- _ => rewrite (Update_ID _ _ _ _ H)
            end;
            apply list_elem_of_fmap_2;
            match goal with
            | H : filter _ _ = [_] |- _ => by apply filter_singleton_elem in H
            end).
  all: rewrite ?fmap_ID_replace; by eapply existing_survives.
Qed.

Lemma elem_of_published d evs : d ∈ published evs ↔ EvSynced d ∈ evs.
Proof.
  unfold published. rewrite list_elem_of_omap. split.
  - intros (ev & Hev & Hd). destruct ev; naive_solver.
  - intros Hev. by exists (EvSynced d).
Qed.

Lemma published_nil evs d : published evs = [] → EvSynced d ∉ evs.
Proof. intros Hp Hd. apply elem_of_published in Hd. rewrite Hp in Hd. set_solver. Qed.

Lemma single_Repos d r : single d r → Diff.Repos d = [r] ∧ Diff.Len d = 1%nat.
Proof.
  unfold single, Diff.Repos, Diff.Len. simpl.
  intros [-> [(-> & -> & ->)|[(-> & -> & ->)|(-> & -> & ->)]]]; done.
Qed.


(** C4.  In every per-repo apply, a Diff is sent on Synced only as the
    last step, right after the commit of the transaction, and it is the
    Diff the apply returns without error.  When the apply returns an
    error (a failed commit is one) or no commit happened, nothing is sent.
    The repos of a Diff that is sent are in the store (with the IDs of the
    store unique). *)
Theorem sync_publishes_after_commit env s svc sourced w r w' :
  sync env s svc sourced w = (r, w') →
  ∃ evs, trace w' = trace w ++ evs
    ∧ (∀ d, EvSynced d ∈ evs →
         r = Done (d, None)
         ∧ ∃ pre, evs = pre ++ [EvCommit; EvSynced d] ∧ published pre = [])
    ∧ ((∀ d, r ≠ Done (d, None)) → published evs = [])
    ∧ (EvCommit ∉ evs → published evs = [])
    ∧ (∀ d x, EvSynced d ∈ evs → x ∈ Diff.Repos d →
         NoDup (Repo.ID <$> repos (db w)) →
         Repo.ID x ∈ Repo.ID <$> repos (db w')).
Proof.
  intros Hrun. pose proof (wp_run _ _ _ _ _ (sync_post env s svc sourced w) Hrun) as Hpost.
  destruct Hpost as (_ & _ & evs & Htr & _ & _ & Hr).
  exists evs. split; [done|].
  destruct r as [[d0 [e|]]|msg].
  - destruct Hr as (Hp & _).
    repeat split; intros; try done; by eapply published_nil in Hp.
  - destruct Hr as ((pre & -> & Hpre) & x0 & Hx0 & Hin).
    assert (∀ d, EvSynced d ∈ pre ++ EvCommit
                   :: (if Synced s && negb (ctxDone w) then [EvSynced d0] else []) →
                 d = d0 ∧ Synced s && negb (ctxDone w) = true) as Hsent.
    { intros d Hd. apply elem_of_app in Hd as [Hd|Hd]; [by eapply published_nil in Hpre|].
      destruct (Synced s && negb (ctxDone w)); set_solver. }
    split; [|split; [|split]].
    + intros d Hd. destruct (Hsent d Hd) as [-> Hc]. rewrite Hc. eauto.
    + intros Hne. by destruct (Hne d0).
    + intros Hnc. destruct Hnc. set_solver.
    + intros d x Hd Hx Hnd. destruct (Hsent d Hd) as [-> _].
      destruct (single_Repos _ _ Hx0) as [HR _]. rewrite HR in Hx.
      apply list_elem_of_singleton in Hx as ->. auto.
  - repeat split; intros; try done; by eapply published_nil in Hr.
Qed.

Lemma Transact_inr w tx w1 :
  Store.Transact w = (Done (inr tx), w1) →
  fault w = None ∧ tx = db w ∧ w1 = afterCall OpTransact (db w) w.
Proof. intros H. by apply call_inr in H. Qed.

Lemma List_inr opts w stored w1 :
  RepoStore.List opts w = (Done (inr stored), w1) →
  fault w = None
  ∧ stored = filter (λ r, RepoStore.selects opts r) (repos (db w))
  ∧ w1 = afterCall (OpList opts) (db w) w.
Proof. intros H. by apply call_inr in H. Qed.

(** C9.  When the lookup of a per-repo apply returns more than two rows,
    the apply panics: it returns no error and no Diff, leaves the rows as
    they are and sends nothing on Synced. *)
Theorem sync_panics_on_more_than_two_rows env s svc sourced w tx w1 stored w2 :
  Store.Transact w = (Done (inr tx), w1) →
  RepoStore.List (lookupOptions sourced) w1 = (Done (inr stored), w2) →
  (2 < length stored)%nat →
  ∃ w', sync env s svc sourced w = (Panicked "unreachable", w')
        ∧ repos (db w') = repos (db w)
        ∧ published (trace w') = published (trace w).
Proof.
  intros (Hf1 & -> & ->)%Transact_inr (Hf2 & -> & ->)%List_inr Hlen. wsimpl.
  cut (wp (sync env s svc sourced) w
         (λ r w', r = Panicked "unreachable" ∧ repos (db w') = repos (db w)
                  ∧ published (trace w') = published (trace w))).
  { intros (r & w' & Hrun & -> & ? & ?)%wp_ex. eauto. }
  unfold sync, syncBody, syncDeferred, publish.
  wp_go; wsimpl; try congruence.
  all: try (match goal with
            | H : filter _ _ = _ |- _ => rewrite H in Hlen; simpl in Hlen; lia
            end).
  all: destruct (Synced s); simplify_eq/=.
  all: by rewrite !published_app, !app_nil_r.
Qed.

Lemma selects_lookup sourced r :
  RepoStore.selects (lookupOptions sourced) r
  ↔ Repo.Name r = Repo.Name sourced ∨ Repo.ExternalRepo r = Repo.ExternalRepo sourced.
Proof.
  unfold RepoStore.selects, lookupOptions. simpl.
  rewrite orb_True, !bool_decide_spec, !list_elem_of_singleton. done.
Qed.

Lemma Update_fields r n r' b :
  Repo.Update r n = (r', b) →
  Repo.ExternalRepo r' = Repo.ExternalRepo n ∧ Repo.Private r' = Repo.Private n.
Proof. unfold Repo.Update. by intros [= <- _]. Qed.

Lemma Update_unmodified r n r' :
  Repo.Update r n = (r', false) → Repo.Name r = Repo.Name n.
Proof.
  unfold Repo.Update. intros [= _ Hm]. apply negb_false_iff in Hm.
  rewrite !andb_true_iff, !bool_decide_eq_true in Hm. naive_solver.
Qed.

(** Under the uniqueness constraints, two rows found for a sourced repo
    are a naming conflict: the one has its external repo spec and another
    name, the other has its name and another spec. *)
Lemma conflict_shape d sourced a b conflicting existing :
  unique d →
  matching d sourced = [a; b] →
  pickConflict sourced [a; b] = (Some conflicting, Some existing) →
  [a; b] ≡ₚ [existing; conflicting]
  ∧ Repo.ExternalRepo existing = Repo.ExternalRepo sourced
  ∧ Repo.Name existing ≠ Repo.Name sourced
  ∧ Repo.Name conflicting = Repo.Name sourced
  ∧ Repo.ExternalRepo conflicting ≠ Repo.ExternalRepo sourced
  ∧ Repo.ID existing ≠ Repo.ID conflicting
  ∧ existing ∈ repos d ∧ conflicting ∈ repos d.
Proof.
  intros (Hid & Hname & _) Hm Hp. unfold matching in Hm.
  pose proof (filter_pair_NoDup Repo.ID _ _ _ _ Hid Hm) as Hne_id.
  pose proof (filter_pair_NoDup Repo.Name _ _ _ _ Hname Hm) as Hne_name.
  apply filter_pair_elem in Hm as [[Ha Hina] [Hb Hinb]].
  apply selects_lookup in Ha, Hb.
  apply pickConflict_pair in Hp as ([[-> ->]|[-> ->]] & Hex & Hc).
  - split; [apply Permutation_swap|]. naive_solver congruence.
  - split; [done|]. naive_solver congruence.
Qed.

(** C3.  When the lookup of a per-repo apply returns exactly two rows of a
    store that keeps its uniqueness constraints, the rows are a naming
    conflict, and an apply that returns without error has deleted the row
    that matches by name only, has updated the other row, which matches by
    external repo spec, to the observed fields with the new name, and
    returns a Diff whose only repo is that row, as Modified. *)
Theorem sync_resolves_naming_conflict env s svc sourced w tx w1 stored w2 d w' :
  unique (db w) →
  Store.Transact w = (Done (inr tx), w1) →
  RepoStore.List (lookupOptions sourced) w1 = (Done (inr stored), w2) →
  length stored = 2%nat →
  sync env s svc sourced w = (Done (d, None), w') →
  ∃ existing conflicting updated,
    stored ≡ₚ [existing; conflicting]
    ∧ Repo.ExternalRepo existing = Repo.ExternalRepo sourced
    ∧ Repo.Name existing ≠ Repo.Name sourced
    ∧ Repo.Name conflicting = Repo.Name sourced
    ∧ Repo.ExternalRepo conflicting ≠ Repo.ExternalRepo sourced
    ∧ (Repo.ID conflicting ∉ (Repo.ID <$> repos (db w')))
    ∧ updated = (Repo.Update existing sourced).1
    ∧ Repo.ID updated = Repo.ID existing
    ∧ Repo.Name updated = Repo.Name sourced
    ∧ Repo.ExternalRepo updated = Repo.ExternalRepo sourced
    ∧ Repo.Private updated = Repo.Private sourced
    ∧ Repo.addSource (ExternalService.ID svc) updated ∈ repos (db w')
    ∧ d = Diff.mk [] [] [updated] []
    ∧ (conflicting ∉ Diff.Repos d)
    ∧ repos (db w')
      = ((λ row, if bool_decide (Repo.ID row = Repo.ID updated)
                 then Repo.addSource (ExternalService.ID svc) updated else row)
         <$> (filter (λ r, Repo.ID r ≠ Repo.ID conflicting) (repos (db w)))).
Proof.
  intros Hu (Hf1 & -> & ->)%Transact_inr (Hf2 & -> & ->)%List_inr Hlen Hrun. wsimpl.
  revert d w' Hrun.
  cut (wp (sync env s svc sourced) w (λ r w', ∀ d, r = Done (d, None) →
    ∃ existing conflicting updated,
    (filter (λ r, RepoStore.selects (lookupOptions sourced) r) (repos (db w)))
      ≡ₚ [existing; conflicting]
    ∧ Repo.ExternalRepo existing = Repo.ExternalRepo sourced
    ∧ Repo.Name existing ≠ Repo.Name sourced
    ∧ Repo.Name conflicting = Repo.Name sourced
    ∧ Repo.ExternalRepo conflicting ≠ Repo.ExternalRepo sourced
    ∧ (Repo.ID conflicting ∉ (Repo.ID <$> repos (db w')))
    ∧ updated = (Repo.Update existing sourced).1
    ∧ Repo.ID updated = Repo.ID existing
    ∧ Repo.Name updated = Repo.Name sourced
    ∧ Repo.ExternalRepo updated = Repo.ExternalRepo sourced
    ∧ Repo.Private updated = Repo.Private sourced
    ∧ Repo.addSource (ExternalService.ID svc) updated ∈ repos (db w')
    ∧ d = Diff.mk [] [] [updated] []
    ∧ (conflicting ∉ Diff.Repos d)
    ∧ repos (db w')
      = ((λ row, if bool_decide (Repo.ID row = Repo.ID updated)
                 then Repo.addSource (ExternalService.ID svc) updated else row)
         <$> (filter (λ r, Repo.ID r ≠ Repo.ID conflicting) (repos (db w)))))).
  { intros Hwp d w' Hrun. by apply (wp_run _ _ _ _ _ Hwp Hrun). }
  unfold sync, syncBody, syncDeferred, syncUpdate, publish.
  wp_go; wsimpl; try congruence.
  all: try (match goal with
            | H : filter _ _ = _ |- _ => rewrite H in Hlen; simpl in Hlen; lia
            end).
  all: intros d Hd; simplify_eq.
  all: match goal with
       | Hm : filter _ _ = [?a; ?b],
         Hp : pickConflict _ _ = (Some ?c, Some ?ex) |- _ =>
           destruct (conflict_shape (db w) sourced a b c ex Hu Hm Hp)
             as (Hperm & Hex & Hnex & Hc & Hnc & Hid & Hine & Hinc);
           rewrite Hm
       end.
  all: match goal with
       | Hup : Repo.Update _ _ = (_, ?b) |- _ =>
           destruct b; simplify_eq/=;
           try (apply Update_unmodified in Hup; congruence);
           pose proof (Update_ID _ _ _ _ Hup) as HupID;
           pose proof (Update_Name _ _ _ _ Hup) as HupName;
           pose proof (Update_fields _ _ _ _ Hup) as [HupSpec HupPriv]
       end.
  all: match goal with
       | Hp : pickConflict _ _ = (Some ?c, Some ?ex),
         Hup : Repo.Update _ _ = (?up, _) |- _ =>
           exists ex, c, up; split_and!; try done
       end.
  all: try (match goal with
            | Hup : Repo.Update _ _ = _ |- _ = _ =>
                unfold Repo.Update in Hup; by injection Hup as <- _
            end).
  all: try (rewrite fmap_ID_replace; intros (x & Hx & Hin)%list_elem_of_fmap;
            apply list_elem_of_filter in Hin as [? _]; congruence).
  all: try (apply list_elem_of_fmap;
            match goal with
            | Hp : pickConflict _ _ = (_, Some ?ex) |- _ => exists ex
            end;
            split; [by rewrite bool_decide_eq_true_2|by apply list_elem_of_filter]).
  all: intros ->%list_elem_of_singleton; congruence.
Qed.

Ltac healthy_faults Hh :=
  repeat match goal with
         | H : fault ?w' = Some _ |- _ =>
             rewrite (healthy_fault w') in H
               by (repeat (apply healthy_afterCall || apply healthy_withTrace); exact Hh);
             discriminate H
         end.

(** A new repo of a user or organization service, with a repo count at
    its limit: the apply fails with the RepoLimitError and the repo is not
    inserted. *)
Lemma sync_repo_limit env s svc sourced w :
  ExternalService.IsSiteOwned svc = false →
  matching (db w) sourced = [] →
  healthy w →
  (userReposMaxPerSite env s ≤ countNamespaced (db w) 0 0
   ∨ userReposMaxPerUser env s
     ≤ countNamespaced (db w) (ExternalService.NamespaceUserID svc)
                       (ExternalService.NamespaceOrgID svc)) →
  ∃ w', sync env s svc sourced w
        = (Done (Diff.zero,
                 Some (RepoLimitError
                         (countNamespaced (db w) 0 0) (userReposMaxPerSite env s)
                         (countNamespaced (db w) (ExternalService.NamespaceUserID svc)
                                          (ExternalService.NamespaceOrgID svc))
                         (userReposMaxPerUser env s)
                         (ExternalService.NamespaceUserID svc)
                         (ExternalService.NamespaceOrgID svc))), w')
        ∧ db w' = db w
        ∧ published (trace w') = published (trace w).
Proof.
  intros Hsite Hm Hh Hlimit. unfold matching, countNamespaced in *.
  match goal with
  | |- ∃ w', _ = (?r, w') ∧ _ =>
      cut (wp (sync env s svc sourced) w
             (λ r' w', r' = r ∧ db w' = db w ∧ published (trace w') = published (trace w)))
  end.
  { intros (r & w' & Hrun & -> & ? & ?)%wp_ex. eauto. }
  unfold sync, syncBody, syncDeferred, syncCreate, publish.
  rewrite Hsite.
  wp_go; wsimpl; healthy_faults Hh; try congruence.
  all: try (match goal with
            | H : filter _ _ = _ |- _ => rewrite Hm in H; discriminate H
            end).
  all: simplify_eq/=.
  all: try (split_and!; [done..|by rewrite !published_app, !app_nil_r]).
  all: match goal with
       | H : _ || _ = false |- _ => apply orb_false_iff in H as [?%Z.leb_gt ?%Z.leb_gt]
       end; lia.
Qed.

(* ===================================================================== *)
(** ** SyncExternalService: the per-service pass *)
(* ===================================================================== *)

Lemma notifyDeleted_diff deleted :
  foldl (λ d id, Diff.mk (Diff.Added d) (Diff.Deleted d ++ [Repo.ofID id])
                         (Diff.Modified d) (Diff.Unmodified d))
        Diff.zero deleted
  = deletedDiff deleted.
Proof.
  unfold deletedDiff.
  cut (∀ d, foldl (λ d id, Diff.mk (Diff.Added d) (Diff.Deleted d ++ [Repo.ofID id])
                                   (Diff.Modified d) (Diff.Unmodified d)) d deleted
            = Diff.mk (Diff.Added d) (Diff.Deleted d ++ (Repo.ofID <$> deleted))
                      (Diff.Modified d) (Diff.Unmodified d)).
  { intros H. by rewrite H. }
  induction deleted as [|id deleted IH]; intros d; simpl.
  - rewrite app_nil_r. by destruct d.
  - rewrite IH. simpl. by rewrite <- app_assoc.
Qed.

Lemma deletedDiff_Len deleted : Diff.Len (deletedDiff deleted) = length deleted.
Proof. unfold Diff.Len, deletedDiff. simpl. rewrite length_fmap. lia. Qed.

Lemma notifyDeleted_eq s deleted : notifyDeleted s deleted = publish s (deletedDiff deleted).
Proof. unfold notifyDeleted. by rewrite notifyDeleted_diff. Qed.

Lemma complete_post s svc minSyncInterval p w :
  wp (complete s svc minSyncInterval p) w (completePost s svc minSyncInterval p w).
Proof.
  unfold complete, prune, delete.
  wp_go; rewrite ?notifyDeleted_eq; unfold publish; rewrite ?deletedDiff_Len;
    wp_go; wsimpl.
  all: match goal with
       | |- completePost _ _ _ _ ?w0 _ _ =>
           unfold completePost, synced;
           do 4 eexists; split; [reflexivity|]; split;
           [rewrite (app_assoc (trace w0)); apply (f_equal2 (@app Event));
            [rewrite <- ?app_assoc; first [reflexivity | symmetry; apply app_nil_r]
            |reflexivity]|];
           rewrite ?length_fmap in *;
           (split; [|intros Hh; healthy_faults Hh; try (split; [done|set_solver])]);
           match goal with H : deletes _ _ = _ |- _ => rewrite H end;
           repeat match goal with H : fault w0 = _ |- _ => rewrite H; clear H end
       end.
  all: try done.
  all: destruct (Synced s) eqn:?; simplify_eq/=; try done.
  all: split_and!; try done.
  all: repeat match goal with
              | H : ctxDone _ = _ |- _ => rewrite H; clear H
              | H : bool_decide _ = _ |- _ => rewrite H; clear H
              end; try done.
  all: by rewrite ?andb_false_r.
Qed.

Lemma fatal_Multi es : fatal (Multi es) = existsb fatal es.
Proof.
  unfold fatal. induction es as [|e es IH]; [done|].
  simpl in *. rewrite <- IH.
  destruct (errcode.IsUnauthorized e), (errcode.IsForbidden e),
    (errcode.IsAccountSuspended e), (existsb errcode.IsUnauthorized es),
    (existsb errcode.IsForbidden es), (existsb errcode.IsAccountSuspended es); done.
Qed.

Lemma hasFatal_Append errs e :
  hasFatal (errors.Append errs e) ↔ hasFatal errs ∨ fatal e = true.
Proof.
  unfold hasFatal.
  assert (∀ e0, fatal (Multi [e0; e]) = true ↔ fatal e0 = true ∨ fatal e = true) as Hpair.
  { intros e0. rewrite fatal_Multi. simpl. rewrite orb_false_r, orb_true_iff. done. }
  destruct errs as [e0|]; simpl.
  - destruct e0; try (split; [intros (? & [= <-] & ?%Hpair); naive_solver
                              |intros [(? & [= <-] & ?)|?]; eexists; split; try done;
                               apply Hpair; auto]).
    split.
    + intros (? & [= <-] & Hf). rewrite fatal_Multi, existsb_app in Hf. simpl in Hf.
      rewrite orb_false_r, orb_true_iff, <- fatal_Multi in Hf. naive_solver.
    + intros Hf. eexists; split; [done|].
      rewrite fatal_Multi, existsb_app. simpl.
      rewrite orb_false_r, orb_true_iff, <- fatal_Multi. naive_solver.
  - naive_solver.
Qed.

Lemma Append_Some errs e : errors.Append errs e ≠ None.
Proof. by destruct errs as [[]|]. Qed.

Lemma received_contacts evs : contacts evs = [] → received evs = [].
Proof.
  unfold contacts, received. induction evs as [|ev evs IH]; [done|].
  rewrite filter_cons. destruct ev; simpl; try done; auto.
Qed.

Lemma passPost_refl p w : ¬ hasFatal (errs p) → passPost p w (Done p) w.
Proof.
  intros Hnf. split; [done|]. split; [done|].
  exists []. rewrite app_nil_r. split; [done|]. split; [done|]. split; [constructor|].
  intros p' [= <-]. split; [|split]; try done.
  - split; [done|]. intros (e & He & _). by apply elem_of_nil in He.
  - split; [done|]. intros e He. by apply elem_of_nil in He.
Qed.

Lemma passPost_step p w p1 w1 evs1 r w' :
  trace w1 = trace w ++ evs1 → clock w1 = clock w → ctxDone w1 = ctxDone w →
  pruned evs1 = [] →
  Forall (λ d, Diff.Deleted d = []) (published evs1) →
  (∀ e, SourceErr e ∈ received evs1 → fatal e = false) →
  (errs p1 = None → errs p = None ∧ ∀ e, SourceErr e ∉ received evs1) →
  passPost p1 w1 r w' → passPost p w r w'.
Proof.
  intros Htr Hclk Hctx Hpr Hpub Hnf Herrs (Hclk' & Hctx' & evs & Htr' & Hpr' & Hpub' & Hp).
  split; [congruence|]. split; [congruence|].
  exists (evs1 ++ evs). split; [by rewrite Htr', Htr, app_assoc|].
  split; [by rewrite pruned_app, Hpr, Hpr'|].
  split; [rewrite published_app; by apply Forall_app|].
  intros p' Hr. destruct (Hp p' Hr) as (Hfatal & Hseen & Hnone).
  assert (fatalReceived (evs1 ++ evs) ↔ fatalReceived evs) as Hrecv.
  { unfold fatalReceived. rewrite received_app. split.
    - intros (e & [He|He]%elem_of_app & Hf); [|by eauto].
      rewrite (Hnf e He) in Hf. done.
    - intros (e & He & Hf). exists e. split; [|done]. apply elem_of_app. auto. }
  split; [by rewrite Hrecv|]. split; [done|].
  intros Hnil. destruct (Hnone Hnil) as [Hp1 Hno]. destruct (Herrs Hp1) as [Hp0 Hno1].
  split; [done|]. intros e. rewrite received_app, elem_of_app. naive_solver.
Qed.

Lemma passPost_panic p w msg w' evs :
  trace w' = trace w ++ evs → clock w' = clock w → ctxDone w' = ctxDone w →
  pruned evs = [] → published evs = [] →
  passPost p w (Panicked msg) w'.
Proof.
  intros Htr Hclk Hctx Hpr Hpub. split; [done|]. split; [done|].
  exists evs. rewrite Hpub. split; [done|]. split; [done|]. split; [constructor|]. done.
Qed.

Lemma sync_published_no_deleted s w r w' evs :
  trace w' = trace w ++ evs →
  match r with
  | Done (d, None) =>
      (∃ pre, evs = pre ++ EvCommit
                      :: (if Synced s && negb (ctxDone w) then [EvSynced d] else [])
              ∧ published pre = [])
      ∧ ∃ x, single d x ∧ (NoDup (Repo.ID <$> repos (db w)) →
                           Repo.ID x ∈ Repo.ID <$> repos (db w'))
  | Done (d, Some e) =>
      published evs = [] ∧ db w' = db w ∧ fatal e = false ∧ gone e = false
  | Panicked msg => published evs = []
  end →
  Forall (λ d, Diff.Deleted d = []) (published evs).
Proof.
  intros _. destruct r as [[d [e|]]|msg].
  - intros (-> & _). constructor.
  - intros ((pre & -> & Hpre) & x & [Hdel _] & _).
    rewrite published_app, Hpre. simpl.
    destruct (Synced s && negb (ctxDone w)); simpl; repeat constructor. done.
  - intros ->. constructor.
Qed.

(** The loop over the results, from a state with no fatal error recorded. *)
Lemma consume_post env s svc allowed results :
  ∀ p w, ¬ hasFatal (errs p) → wp (consume env s svc allowed results p) w (passPost p w).
Proof.
  induction results as [|res results IH]; intros p w Hnf.
  { cbn [consume]. apply wp_ret. by apply passPost_refl. }
  cbn [consume]. apply wp_bind, wp_emit. cbv beta iota.
  set (w1 := withTrace (trace w ++ [EvRecv res]) w).
  assert (trace w1 = trace w ++ [EvRecv res]) as Htr1 by done.
  destruct res as [sourced|err].
  - (* a repo *)
    destruct (negb (allowed sourced)).
    { eapply wp_mono; [by apply IH|]. intros r w' Hpost.
      eapply passPost_step; [exact Htr1|done|done|done| | | |exact Hpost].
      - constructor.
      - intros e He. simpl in He. set_solver.
      - split; [done|]. intros e He. simpl in He. set_solver. }
    apply wp_bind. eapply wp_mono; [apply sync_post|].
    intros r w2 (Hclk & Hctx & evs & Htr2 & Hpr & Hco & Hr).
    pose proof (sync_published_no_deleted s w1 r w2 evs Htr2 Hr) as Hpub.
    pose proof (received_contacts _ Hco) as Hrecv.
    assert (trace w2 = trace w ++ EvRecv (SourceRepo sourced) :: evs) as Htr.
    { rewrite Htr2, Htr1, <- app_assoc. done. }
    assert (∀ e, SourceErr e ∉ received (EvRecv (SourceRepo sourced) :: evs)) as Hnoerr.
    { intros e. simpl. rewrite Hrecv. set_solver. }
    destruct r as [[d [e|]]|msg].
    + (* the apply failed *)
      destruct Hr as (_ & _ & Hfe & _).
      assert (¬ hasFatal (errors.Append (errs p) e)) as Hnf'.
      { rewrite hasFatal_Append. intros [?|?]; [done|congruence]. }
      destruct (errors.HasTypeRepoLimitError e).
      * apply wp_ret.
        eapply passPost_step; [exact Htr|done..| | |by apply passPost_refl].
        -- intros e' He'. by destruct (Hnoerr e').
        -- simpl. intros Hnil. by destruct (Append_Some (errs p) e).
      * eapply wp_mono; [by apply IH|]. intros r w' Hpost.
        eapply passPost_step; [exact Htr|done..| | |exact Hpost].
        -- intros e' He'. by destruct (Hnoerr e').
        -- simpl. intros Hnil. by destruct (Append_Some (errs p) e).
    + (* the apply succeeded *)
      eapply wp_mono; [by apply IH|]. intros r w' Hpost.
      eapply passPost_step; [exact Htr|done..| | |exact Hpost].
      * intros e' He'. by destruct (Hnoerr e').
      * simpl. auto.
    + (* the apply panicked *)
      eapply passPost_panic; [exact Htr|done..|].
      simpl. exact Hr.
  - (* an error *)
    destruct (fatal err) eqn:Hfe.
    + apply wp_ret. split; [done|]. split; [done|].
      exists [EvRecv (SourceErr err)]. split; [done|]. split; [done|].
      split; [constructor|].
      intros p' [= <-]. simpl. split; [|split].
      * split.
        -- intros _. exists err. split; [|done]. simpl. set_solver.
        -- intros _. apply hasFatal_Append. right. exact Hfe.
      * done.
      * intros Hnil. by destruct (Append_Some _ _ Hnil).
    + eapply wp_mono; [apply IH|].
      { simpl. rewrite hasFatal_Append. intros [?|?]; [done|].
        unfold fatal in *. simpl in *. congruence. }
      intros r w' Hpost.
      eapply passPost_step; [exact Htr1|done..| | | |exact Hpost].
      * constructor.
      * intros e He. simpl in He. apply list_elem_of_singleton in He as [= <-]. done.
      * simpl. intros Hnil. by destruct (Append_Some _ _ Hnil).
Qed.

Lemma rowsFrom_refl svc d : rowsFrom svc d d.
Proof. intros r. auto. Qed.

Lemma rowsFrom_trans svc d1 d2 d3 :
  rowsFrom svc d1 d2 → rowsFrom svc d2 d3 → rowsFrom svc d1 d3.
Proof. intros H12 H23 r Hr. destruct (H23 r Hr) as [?|?]; auto. Qed.

Lemma addSource_Sources svc r : svc ∈ Repo.Sources (Repo.addSource svc r).
Proof. unfold Repo.addSource. simpl. case_bool_decide; set_solver. Qed.

(** The rows a per-repo apply leaves are rows it found or rows stored for
    its external service. *)
Lemma sync_rows env s svc sourced w :
  wp (sync env s svc sourced) w (λ _ w', rowsFrom svc (db w) (db w')).
Proof.
  unfold sync, syncBody, syncDeferred, syncUpdate, syncCreate, publish.
  wp_go; try discriminate.
  all: unfold rowsFrom; intros r Hr; wsimpl; auto.
  all: repeat match goal with
         | H : _ ∈ _ ++ _ |- _ => apply elem_of_app in H as [H|H]
         | H : _ ∈ [_] |- _ => apply list_elem_of_singleton in H as ->
         | H : _ ∈ _ <$> _ |- _ => apply list_elem_of_fmap in H as (? & -> & H)
         | H : _ ∈ filter _ _ |- _ => apply list_elem_of_filter in H as [_ H]
         end.
  all: try match goal with
           | |- context [bool_decide (Repo.ID ?a = Repo.ID ?b)] =>
               destruct (bool_decide (Repo.ID a = Repo.ID b))
           end; auto using addSource_Sources.
Qed.

Lemma consume_rows env s svc allowed results :
  ∀ p w d, rowsFrom svc d (db w) →
    wp (consume env s svc allowed results p) w (λ _ w', rowsFrom svc d (db w')).
Proof.
  induction results as [|res results IH]; intros p w d Hd; cbn [consume].
  { by apply wp_ret. }
  apply wp_bind, wp_emit. cbv beta iota.
  destruct res as [sourced|err].
  - destruct (negb (allowed sourced)); [by apply IH|].
    apply wp_bind. eapply wp_mono; [apply sync_rows|].
    intros [[d0 [e|]]|msg] w2 Hrows.
    + destruct (errors.HasTypeRepoLimitError e).
      * apply wp_ret. by eapply rowsFrom_trans.
      * apply IH. by eapply rowsFrom_trans.
    + apply IH. by eapply rowsFrom_trans.
    + by eapply rowsFrom_trans.
  - destruct (fatal err); [by apply wp_ret|by apply IH].
Qed.

Lemma GetByID_inr id w svc w1 :
  ExternalServiceStore.GetByID id w = (Done (inr svc), w1) →
  fault w = None ∧ w1 = afterCall (OpGetByID id) (db w) w
  ∧ head (filter (λ e, ExternalService.ID e = id) (external_services (db w))) = Some svc.
Proof.
  unfold ExternalServiceStore.GetByID, mbind, M_bind, mret, M_ret. rewrite call_eq.
  destruct (fault w); simpl; [done|].
  destruct (head _); naive_solver.
Qed.


(** A pass that reaches the loop is the loop followed by the completion. *)
Lemma SyncExternalService_eq env s id minSyncInterval w svc w1 allowed w2 src p w3 :
  ExternalServiceStore.GetByID id w = (Done (inr svc), w1) →
  ExternalService.CloudDefault svc = false →
  allowedFor env svc w1 = (Done (inr allowed), w2) →
  Sourcer s svc = inr src →
  consume env s svc allowed (ListRepos src) passStart
    (withTrace (trace w2 ++ [EvListRepos (ExternalService.ID svc)]) w2) = (Done p, w3) →
  SyncExternalService env s id minSyncInterval w = complete s svc minSyncInterval p w3.
Proof.
  intros Hget Hcd Hallowed Hsrc Hloop.
  unfold SyncExternalService, mbind, M_bind.
  rewrite Hget, Hcd, Hallowed, Hsrc. simpl. by rewrite Hloop.
Qed.

(** C7.  For a cloud default external service, SyncExternalService returns
    ErrCloudDefaultSync right after it has read the external service: no
    repo is listed from a source, nothing is sent on Synced and the store is
    left as it was, so no repo is added, modified or deleted. *)
Theorem SyncExternalService_cloud_default env s id minSyncInterval w svc w1 :
  ExternalServiceStore.GetByID id w = (Done (inr svc), w1) →
  ExternalService.CloudDefault svc = true →
  SyncExternalService env s id minSyncInterval w = (Done (Some ErrCloudDefaultSync), w1)
  ∧ db w1 = db w
  ∧ trace w1 = trace w ++ [EvStore (OpGetByID id)].
Proof.
  intros Hget Hcd. split.
  - unfold SyncExternalService, mbind, M_bind. by rewrite Hget, Hcd.
  - by apply GetByID_inr in Hget as (_ & -> & _).
Qed.




(** C6.  (1) At any point of the loop of a pass, when the apply of the
    next sourced repo fails with a RepoLimitError, the loop ends there:
    the error is recorded and no further result is received.  (2) A pass
    whose loop has ended runs to completion: the backoff interval is
    computed from the clock, the last sync time, the minimum interval,
    whether anything was modified or deleted, and the recorded errors;
    NextSyncAt and LastSyncAt are set; the upsert of the external service
    is the last call on the store, and the record is stored when the store
    does not fail.  With a recorded error that lets no deletion run,
    nothing is deleted on the way.  (3) When a new repo is to be inserted
    for a service that is not site-owned and the site-wide or the
    namespace repo count has reached its limit, the apply fails with the
    RepoLimitError and leaves the store as it was. *)
Theorem RepoLimitError_halts_adds env s svc :
  (∀ allowed sourced post p w d e w2,
     allowed sourced = true →
     sync env s svc sourced (withTrace (trace w ++ [EvRecv (SourceRepo sourced)]) w)
       = (Done (d, Some e), w2) →
     errors.HasTypeRepoLimitError e = true →
     consume env s svc allowed (SourceRepo sourced :: post) p w
       = (Done (mkPass (modified p) (seen p) (errors.Append (errs p) e)), w2))
  ∧ (∀ id minSyncInterval w w1 allowed w2 src p w3,
       ExternalServiceStore.GetByID id w = (Done (inr svc), w1) →
       ExternalService.CloudDefault svc = false →
       allowedFor env svc w1 = (Done (inr allowed), w2) →
       Sourcer s svc = inr src →
       consume env s svc allowed (ListRepos src) passStart
         (withTrace (trace w2 ++ [EvListRepos (ExternalService.ID svc)]) w2)
         = (Done p, w3) →
       ∃ err w' evs deleted errs' svc',
         SyncExternalService env s id minSyncInterval w = (Done err, w')
         ∧ trace w' = trace w3 ++ evs ++ [EvStore (OpUpsert svc')]
         ∧ svc' = synced svc (clock w3) minSyncInterval
                    (modified p || bool_decide (0 < deleted)%nat) errs'
         ∧ ExternalService.LastSyncAt svc' = clock w3
         ∧ ExternalService.NextSyncAt svc'
           = time.Add (clock w3)
               (calcSyncInterval (clock w3) (ExternalService.LastSyncAt svc)
                  minSyncInterval (modified p || bool_decide (0 < deleted)%nat) errs')
         ∧ (healthy w3 → err = errs' ∧ svc' ∈ external_services (db w'))
         ∧ (deletes svc (errs p) = false →
            evs = [] ∧ deleted = 0%nat ∧ errs' = errs p
            ∧ repos (db w') = repos (db w3)))
  ∧ (∀ sourced w,
       ExternalService.IsSiteOwned svc = false →
       matching (db w) sourced = [] →
       healthy w →
       (userReposMaxPerSite env s ≤ countNamespaced (db w) 0 0
        ∨ userReposMaxPerUser env s
          ≤ countNamespaced (db w) (ExternalService.NamespaceUserID svc)
                            (ExternalService.NamespaceOrgID svc)) →
       ∃ e w',
         sync env s svc sourced w = (Done (Diff.zero, Some e), w')
         ∧ e = RepoLimitError
                 (countNamespaced (db w) 0 0) (userReposMaxPerSite env s)
                 (countNamespaced (db w) (ExternalService.NamespaceUserID svc)
                                  (ExternalService.NamespaceOrgID svc))
                 (userReposMaxPerUser env s)
                 (ExternalService.NamespaceUserID svc)
                 (ExternalService.NamespaceOrgID svc)
         ∧ errors.HasTypeRepoLimitError e = true
         ∧ db w' = db w
         ∧ published (trace w') = published (trace w)).
Proof.
  split; [|split].
  - intros allowed sourced post p w d e w2 Hallowed Hsync Hlimit.
    cbn [consume]. unfold mbind, M_bind, emit. rewrite Hallowed. simpl.
    by rewrite Hsync, Hlimit.
  - intros id minSyncInterval w w1 allowed w2 src p w3 Hget Hcd Hallowed Hsrc Hloop.
    rewrite (SyncExternalService_eq _ _ _ _ _ _ _ _ _ _ _ _ Hget Hcd Hallowed Hsrc Hloop).
    destruct (wp_ex _ _ _ (complete_post s svc minSyncInterval p w3))
      as (r & w' & Hrun & err & evs & deleted & errs' & -> & Htr' & Hdel & Hh).
    exists err, w', evs, deleted, errs'. eexists.
    split; [exact Hrun|]. split; [exact Htr'|]. split; [reflexivity|].
    split; [done|]. split; [done|]. split; [exact Hh|].
    intros Hd. rewrite Hd in Hdel. naive_solver.
  - intros sourced w Hsite Hm Hh Hlimit.
    destruct (sync_repo_limit env s svc sourced w Hsite Hm Hh Hlimit)
      as (w' & Hrun & Hdb & Hpub).
    eauto 10.
Qed.

(* ===================================================================== *)
(** ** The lazy single-repo path *)
(* ===================================================================== *)

Lemma GetByName_inr name w repo w1 :
  RepoStore.GetByName name w = (Done (inr repo), w1) →
  fault w = None ∧ w1 = afterCall (OpGetByName name) (db w) w
  ∧ head (filter (λ r, Repo.Name r = name) (repos (db w))) = Some repo.
Proof.
  unfold RepoStore.GetByName, mbind, M_bind, mret, M_ret. rewrite call_eq.
  destruct (fault w); simpl; [done|].
  destruct (head _); naive_solver.
Qed.

(** C10.  When the name belongs to a recognized code host and the stored
    record of that name is private, SyncRepo returns a repo-not-found
    error right after the lookup of the stored record: no source is
    contacted and the store is left as it was. *)
Theorem SyncRepo_refuses_private_stored env s name background w repo w1 codehost :
  RepoStore.GetByName name w = (Done (inr repo), w1) →
  CodeHostOf env name = Some codehost →
  Repo.Private repo = true →
  SyncRepo env s name background w = (Done (None, Some (RepoNotFoundErr name)), w1)
  ∧ repo ∈ repos (db w)
  ∧ db w1 = db w
  ∧ trace w1 = trace w ++ [EvStore (OpGetByName name)].
Proof.
  intros Hget Hhost Hprivate. split.
  - unfold SyncRepo, mbind, M_bind. by rewrite Hget, Hhost, Hprivate.
  - apply GetByName_inr in Hget as (_ & -> & Hhead). split; [|done].
    apply head_Some_elem_of in Hhead. by apply list_elem_of_filter in Hhead as [_ ?].
Qed.

(** After the external service and its RepoGetter are resolved, the lazy
    path is the fetch, under the deferred deletion when there is a stored
    record. *)
Lemma syncRepo_eq env s codehost name stored w svc w1 src getRepo :
  ExternalServiceStore.List (servicesOptions env codehost) w = (Done (inr [svc]), w1) →
  Sourcer s svc = inr src →
  GetRepo src = Some getRepo →
  syncRepo env s codehost name stored w
  = match stored with
    | Some st =>
        defer (syncRepoFetch env s svc getRepo name (pathOf codehost name)) (None, None)
              (syncRepoDeferred s svc st) w1
    | None => syncRepoFetch env s svc getRepo name (pathOf codehost name) w1
    end.
Proof.
  intros Hlist Hsrc Hget. unfold syncRepo, mbind, M_bind.
  rewrite Hlist, Hsrc, Hget. by destruct stored.
Qed.


Lemma fault_withTrace tr w : fault (withTrace tr w) = fault w.
Proof. done. Qed.




(* ===================================================================== *)
(** ** The properties on the example store *)
(* ===================================================================== *)





Lemma sync_publishes_after_commit_witness :
  sync Example.env (Example.syncer []) Example.userService Example.newB Example.world
    = (Done (Diff.mk [Example.storedB] [] [] [], None), Example.addB.2)
  ∧ ∃ evs, trace Example.addB.2 = trace Example.world ++ evs
      ∧ ∀ d, EvSynced d ∈ evs →
          Done (Diff.mk [Example.storedB] [] [] [], @None error) = Done (d, None)
          ∧ ∃ pre, evs = pre ++ [EvCommit; EvSynced d] ∧ published pre = [].
Proof.
  assert (sync Example.env (Example.syncer []) Example.userService Example.newB
            Example.world
          = (Done (Diff.mk [Example.storedB] [] [] [], None), Example.addB.2)) as H
    by (vm_compute; reflexivity).
  split; [exact H|].
  destruct (sync_publishes_after_commit _ _ _ _ _ _ _ H) as (evs & Htr & Hlast & _).
  exists evs. split; [exact Htr|exact Hlast].
Defined.

Lemma sync_panics_on_more_than_two_rows_witness :
  Store.Transact (Example.worldOf Example.brokenStore)
    = (Done (inr Example.brokenStore),
       (Store.Transact (Example.worldOf Example.brokenStore)).2)
  ∧ RepoStore.List (lookupOptions Example.repoA)
      (Store.Transact (Example.worldOf Example.brokenStore)).2
    = (Done (inr [Example.repoA; Example.repoA2; Example.repoA3]),
       (RepoStore.List (lookupOptions Example.repoA)
          (Store.Transact (Example.worldOf Example.brokenStore)).2).2)
  ∧ (2 < length [Example.repoA; Example.repoA2; Example.repoA3])%nat
  ∧ ∃ w', sync Example.env (Example.syncer []) Example.userService Example.repoA
            (Example.worldOf Example.brokenStore) = (Panicked "unreachable", w')
          ∧ repos (db w') = repos Example.brokenStore
          ∧ published (trace w') = [].
Proof.
  assert (Store.Transact (Example.worldOf Example.brokenStore)
          = (Done (inr Example.brokenStore),
             (Store.Transact (Example.worldOf Example.brokenStore)).2)) as H1
    by (vm_compute; reflexivity).
  assert (RepoStore.List (lookupOptions Example.repoA)
            (Store.Transact (Example.worldOf Example.brokenStore)).2
          = (Done (inr [Example.repoA; Example.repoA2; Example.repoA3]),
             (RepoStore.List (lookupOptions Example.repoA)
                (Store.Transact (Example.worldOf Example.brokenStore)).2).2)) as H2
    by (vm_compute; reflexivity).
  assert (2 < length [Example.repoA; Example.repoA2; Example.repoA3])%nat as H3
    by (simpl; lia).
  split; [exact H1|]. split; [exact H2|]. split; [exact H3|].
  exact (sync_panics_on_more_than_two_rows Example.env (Example.syncer [])
           Example.userService Example.repoA _ _ _ _ _ H1 H2 H3).
Defined.

Lemma sync_resolves_naming_conflict_witness :
  unique Example.store
  ∧ Store.Transact Example.world
    = (Done (inr Example.store), (Store.Transact Example.world).2)
  ∧ RepoStore.List (lookupOptions Example.renamed) (Store.Transact Example.world).2
    = (Done (inr [Example.repoC; Example.repoD]),
       (RepoStore.List (lookupOptions Example.renamed)
          (Store.Transact Example.world).2).2)
  ∧ length [Example.repoC; Example.repoD] = 2%nat
  ∧ sync Example.env (Example.syncer []) Example.userService Example.renamed
      Example.world
    = (Done (Diff.mk [] [] [Example.renamedC] [], None), Example.renameC.2)
  ∧ ∃ existing conflicting updated,
      [Example.repoC; Example.repoD] ≡ₚ [existing; conflicting]
      ∧ Repo.Name conflicting = Repo.Name Example.renamed
      ∧ (Repo.ID conflicting ∉ (Repo.ID <$> repos (db Example.renameC.2)))
      ∧ Repo.ID updated = Repo.ID existing
      ∧ Repo.Name updated = Repo.Name Example.renamed
      ∧ Diff.mk [] [] [Example.renamedC] [] = Diff.mk [] [] [updated] [].
Proof.
  assert (unique Example.store) as H0.
  { unfold unique. simpl. split; [|split]; apply (bool_decide_unpack _); vm_compute; exact I. }
  assert (Store.Transact Example.world
          = (Done (inr Example.store), (Store.Transact Example.world).2)) as H1
    by (vm_compute; reflexivity).
  assert (RepoStore.List (lookupOptions Example.renamed) (Store.Transact Example.world).2
          = (Done (inr [Example.repoC; Example.repoD]),
             (RepoStore.List (lookupOptions Example.renamed)
                (Store.Transact Example.world).2).2)) as H2
    by (vm_compute; reflexivity).
  assert (length [Example.repoC; Example.repoD] = 2%nat) as H3 by reflexivity.
  assert (sync Example.env (Example.syncer []) Example.userService Example.renamed
            Example.world
          = (Done (Diff.mk [] [] [Example.renamedC] [], None), Example.renameC.2)) as H4
    by (vm_compute; reflexivity).
  split; [exact H0|]. split; [exact H1|]. split; [exact H2|]. split; [exact H3|].
  split; [exact H4|].
  destruct (sync_resolves_naming_conflict Example.env (Example.syncer [])
              Example.userService Example.renamed Example.world _ _ _ _ _ _ H0 H1 H2 H3 H4)
    as (existing & conflicting & updated & Hperm & _ & _ & Hname & _ & Hgone & _
        & Hid & Hnew & _ & _ & _ & Hd & _).
  exists existing, conflicting, updated.
  split; [exact Hperm|]. split; [exact Hname|]. split; [exact Hgone|].
  split; [exact Hid|]. split; [exact Hnew|exact Hd].
Defined.

Lemma SyncExternalService_cloud_default_witness :
  ExternalServiceStore.GetByID 30 Example.world
    = (Done (inr Example.cloudService), (ExternalServiceStore.GetByID 30 Example.world).2)
  ∧ ExternalService.CloudDefault Example.cloudService = true
  ∧ SyncExternalService Example.env (Example.syncer [SourceRepo Example.newB]) 30
      time.Minute Example.world
    = (Done (Some ErrCloudDefaultSync), (ExternalServiceStore.GetByID 30 Example.world).2)
  ∧ db (ExternalServiceStore.GetByID 30 Example.world).2 = Example.store.
Proof.
  assert (ExternalServiceStore.GetByID 30 Example.world
          = (Done (inr Example.cloudService),
             (ExternalServiceStore.GetByID 30 Example.world).2)) as H1
    by (vm_compute; reflexivity).
  assert (ExternalService.CloudDefault Example.cloudService = true) as H2 by reflexivity.
  split; [exact H1|]. split; [exact H2|].
  destruct (SyncExternalService_cloud_default Example.env
              (Example.syncer [SourceRepo Example.newB]) 30 time.Minute _ _ _ H1 H2)
    as (Hrun & Hdb & _).
  split; [exact Hrun|exact Hdb].
Defined.


Lemma RepoLimitError_halts_adds_witness :
  ExternalService.IsSiteOwned Example.userService = false
  ∧ matching Example.store Example.newB = []
  ∧ healthy Example.world
  ∧ userReposMaxPerUser Example.env (Example.limited [])
    ≤ countNamespaced Example.store 7 0
  ∧ ∃ e w', sync Example.env (Example.limited []) Example.userService Example.newB
              Example.world = (Done (Diff.zero, Some e), w')
            ∧ errors.HasTypeRepoLimitError e = true
            ∧ db w' = Example.store.
Proof.
  assert (ExternalService.IsSiteOwned Example.userService = false) as H1 by reflexivity.
  assert (matching (db Example.world) Example.newB = []) as H2 by (vm_compute; reflexivity).
  assert (healthy Example.world) as H3 by (vm_compute; auto).
  assert (userReposMaxPerUser Example.env (Example.limited [])
          ≤ countNamespaced (db Example.world)
              (ExternalService.NamespaceUserID Example.userService)
              (ExternalService.NamespaceOrgID Example.userService)) as H4
    by (vm_compute; discriminate).
  split; [exact H1|]. split; [exact H2|]. split; [exact H3|]. split; [exact H4|].
  destruct (proj2 (proj2 (RepoLimitError_halts_adds Example.env (Example.limited [])
                            Example.userService))
              Example.newB Example.world H1 H2 H3 (or_intror H4))
    as (e & w' & Hrun & _ & Hty & Hdb & _).
  exists e, w'. split; [exact Hrun|]. split; [exact Hty|exact Hdb].
Defined.

Lemma SyncRepo_refuses_private_stored_witness :
  RepoStore.GetByName "github.com/o/p" Example.world
    = (Done (inr Example.repoP), (RepoStore.GetByName "github.com/o/p" Example.world).2)
  ∧ CodeHostOf Example.env "github.com/o/p" = Some Example.github
  ∧ Repo.Private Example.repoP = true
  ∧ SyncRepo Example.env Example.lazySyncer "github.com/o/p" false Example.world
    = (Done (None, Some (RepoNotFoundErr "github.com/o/p")),
       (RepoStore.GetByName "github.com/o/p" Example.world).2)
  ∧ db (RepoStore.GetByName "github.com/o/p" Example.world).2 = Example.store.
Proof.
  assert (RepoStore.GetByName "github.com/o/p" Example.world
          = (Done (inr Example.repoP),
             (RepoStore.GetByName "github.com/o/p" Example.world).2)) as H1
    by (vm_compute; reflexivity).
  assert (CodeHostOf Example.env "github.com/o/p" = Some Example.github) as H2
    by (vm_compute; reflexivity).
  assert (Repo.Private Example.repoP = true) as H3 by reflexivity.
  split; [exact H1|]. split; [exact H2|]. split; [exact H3|].
  destruct (SyncRepo_refuses_private_stored Example.env Example.lazySyncer
              "github.com/o/p" false _ _ _ _ H1 H2 H3) as (Hrun & _ & Hdb & _).
  split; [exact Hrun|exact Hdb].
Defined.



(* ===================================================================== *)
(** ** Further properties of the Syncer *)
(* ===================================================================== *)

(** *** The backoff policy, the limits and the Diff *)

(** X1.  Whatever the inputs, the interval lies between the smaller and the
    larger of the minimum interval and 8 hours. *)
Theorem calcSyncInterval_bounds now lastSync minSyncInterval modified err :
  Z.min minSyncInterval maxSyncInterval
  ≤ calcSyncInterval now lastSync minSyncInterval modified err
  ≤ Z.max minSyncInterval maxSyncInterval.
Proof.
  pose proof (calcSyncInterval_cases now lastSync minSyncInterval modified err) as H.
  simpl in H. lia.
Qed.

(** X2.  With a minimum interval of at most 8 hours, an error never makes
    the next sync sooner: for the same times and the same modified flag the
    interval with an error is at least the interval without one. *)
Theorem calcSyncInterval_error_not_sooner now lastSync minSyncInterval modified e :
  minSyncInterval ≤ maxSyncInterval →
  calcSyncInterval now lastSync minSyncInterval modified None
  ≤ calcSyncInterval now lastSync minSyncInterval modified (Some e).
Proof.
  intros Hmin.
  pose proof (calcSyncInterval_cases now lastSync minSyncInterval modified (Some e)) as H.
  simpl in H. revert H. unfold calcSyncInterval. simpl.
  destruct (time.IsZero lastSync || modified); simpl; [lia|]. lia.
Qed.

(** X3.  The two limits follow the same rule, though they are written
    differently: an override of zero lets the configured value through, any
    other override (in the range of a Go int) is the limit, converted to
    uint64.  So a positive override is the limit itself and a negative one
    wraps to a limit of at least 2^63. *)
Theorem userReposMax_override env s :
  (- 2 ^ 63 ≤ UserReposMaxPerSite s < 2 ^ 63 →
   userReposMaxPerSite env s
   = if bool_decide (UserReposMaxPerSite s = 0) then uint64 (confUserReposMaxPerSite env)
     else uint64 (UserReposMaxPerSite s))
  ∧ userReposMaxPerUser env s
    = (if bool_decide (UserReposMaxPerUser s = 0) then uint64 (confUserReposMaxPerUser env)
       else uint64 (UserReposMaxPerUser s))
  ∧ (0 < UserReposMaxPerSite s < 2 ^ 63 → userReposMaxPerSite env s = UserReposMaxPerSite s)
  ∧ (- 2 ^ 63 ≤ UserReposMaxPerSite s < 0 → 2 ^ 63 ≤ userReposMaxPerSite env s).
Proof.
  unfold userReposMaxPerSite, userReposMaxPerUser, uint64. simpl.
  split; [|split; [|split]].
  - intros H. case_bool_decide as H0.
    + rewrite H0. simpl. done.
    + destruct (Z.ltb_spec 0 (UserReposMaxPerSite s `mod` 2 ^ 64)) as [|Hle]; [done|].
      exfalso. pose proof (Z.mod_pos_bound (UserReposMaxPerSite s) (2 ^ 64) ltac:(lia)).
      assert (UserReposMaxPerSite s `mod` 2 ^ 64 = 0) as Hz by lia.
      apply Z.mod_divide in Hz; [|lia]. destruct Hz as [k Hk]. lia.
  - case_bool_decide as H0.
    + by rewrite H0.
    + destruct (Z.eqb_spec (UserReposMaxPerUser s) 0); done.
  - intros H. rewrite Z.mod_small by lia.
    destruct (Z.ltb_spec 0 (UserReposMaxPerSite s)); [done|lia].
  - intros H.
    assert (UserReposMaxPerSite s `mod` 2 ^ 64 = UserReposMaxPerSite s + 2 ^ 64) as ->.
    { symmetry. apply (Z.mod_unique_pos _ _ (-1)); lia. }
    destruct (Z.ltb_spec 0 (UserReposMaxPerSite s + 2 ^ 64)); lia.
Qed.

Lemma Diff_Repos_eq d :
  Diff.Repos d = Diff.Added d ++ Diff.Deleted d ++ Diff.Modified d ++ Diff.Unmodified d.
Proof. unfold Diff.Repos. simpl. by rewrite <- !app_assoc. Qed.

(** X4.  Len is the number of repos Repos returns; it is zero for the zero
    Diff only; and Repos holds exactly the repos of the four sets. *)
Theorem Diff_Len_Repos d :
  length (Diff.Repos d) = Diff.Len d
  ∧ (Diff.Len d = 0%nat ↔ d = Diff.zero)
  ∧ ∀ r, r ∈ Diff.Repos d ↔
         r ∈ Diff.Added d ∨ r ∈ Diff.Deleted d ∨ r ∈ Diff.Modified d ∨ r ∈ Diff.Unmodified d.
Proof.
  rewrite Diff_Repos_eq. unfold Diff.Len. rewrite !length_app. split; [lia|]. split.
  - destruct d as [[|??] [|??] [|??] [|??]]; simpl; split; intros H; try done; try lia.
  - intros r. rewrite !elem_of_app. done.
Qed.

Section Sort.

#[local] Instance byID_trans : Transitive Diff.byID.
Proof. unfold Diff.byID. intros ???. lia. Qed.
#[local] Instance byID_total : Total Diff.byID.
Proof. unfold Diff.byID. intros ??. lia. Qed.

Lemma StronglySorted_byID l :
  StronglySorted Diff.byID l → StronglySorted Z.le (Repo.ID <$> l).
Proof.
  induction 1 as [|a l _ IH Hall]; [constructor|].
  rewrite fmap_cons. constructor; [done|]. by apply Forall_fmap.
Qed.

(** X5.  Sort permutes each of the four sets and leaves it sorted by repo
    ID; Len and the repos of the Diff are as before. *)
Theorem Diff_Sort_sorted d :
  Diff.Added (Diff.Sort d) ≡ₚ Diff.Added d
  ∧ Diff.Deleted (Diff.Sort d) ≡ₚ Diff.Deleted d
  ∧ Diff.Modified (Diff.Sort d) ≡ₚ Diff.Modified d
  ∧ Diff.Unmodified (Diff.Sort d) ≡ₚ Diff.Unmodified d
  ∧ StronglySorted Z.le (Repo.ID <$> Diff.Added (Diff.Sort d))
  ∧ StronglySorted Z.le (Repo.ID <$> Diff.Deleted (Diff.Sort d))
  ∧ StronglySorted Z.le (Repo.ID <$> Diff.Modified (Diff.Sort d))
  ∧ StronglySorted Z.le (Repo.ID <$> Diff.Unmodified (Diff.Sort d))
  ∧ Diff.Len (Diff.Sort d) = Diff.Len d
  ∧ Diff.Repos (Diff.Sort d) ≡ₚ Diff.Repos d.
Proof.
  unfold Diff.Sort; simpl.
  pose proof (merge_sort_Permutation Diff.byID) as HP.
  pose proof (StronglySorted_merge_sort Diff.byID) as HS.
  repeat (split; [by auto using StronglySorted_byID|]).
  split.
  - unfold Diff.Len; simpl. by rewrite !HP.
  - rewrite !Diff_Repos_eq; simpl. by rewrite !HP.
Qed.

End Sort.

(** X6.  The owner label of a sync: a site-owned external service is
    labelled site, a service with a positive user ID user, else one with a
    positive organization ID org; the label of a service is never the
    undefined one; and for IDs that are not negative the label is site
    exactly for the site-owned services. *)
Theorem owner_of_service svc :
  (ExternalService.IsSiteOwned svc = true → observeSync_owner (Some svc) = ownerSite)
  ∧ (observeSync_owner (Some svc) = ownerUser ↔ 0 < ExternalService.NamespaceUserID svc)
  ∧ (observeSync_owner (Some svc) = ownerOrg ↔
     ExternalService.NamespaceUserID svc ≤ 0 ∧ 0 < ExternalService.NamespaceOrgID svc)
  ∧ observeSync_owner (Some svc) ≠ ownerUndefined
  ∧ (0 ≤ ExternalService.NamespaceUserID svc → 0 ≤ ExternalService.NamespaceOrgID svc →
     (observeSync_owner (Some svc) = ownerSite ↔ ExternalService.IsSiteOwned svc = true)).
Proof.
  unfold observeSync_owner, ExternalService.IsSiteOwned.
  destruct (Z.ltb_spec 0 (ExternalService.NamespaceUserID svc));
    destruct (Z.ltb_spec 0 (ExternalService.NamespaceOrgID svc));
    destruct (Z.eqb_spec (ExternalService.NamespaceUserID svc) 0);
    destruct (Z.eqb_spec (ExternalService.NamespaceOrgID svc) 0);
    simpl; repeat split; try done; try lia; intros; try lia; try done.
Qed.

(** *** The per-repo apply: errors and the transaction *)

(** What an apply that returns an error has done, and when the error is
    the RepoLimitError. *)
Lemma sync_error_post env s svc sourced w :
  wp (sync env s svc sourced) w
    (λ r w', ∀ d e, r = Done (d, Some e) →
       db w' = db w
       ∧ published (drop (length (trace w)) (trace w')) = []
       ∧ ((∀ msg, e ≠ ErrStore msg) → d = Diff.zero)
       ∧ (errors.HasTypeRepoLimitError e = true →
          e = RepoLimitError
                (countNamespaced (db w) 0 0) (userReposMaxPerSite env s)
                (countNamespaced (db w) (ExternalService.NamespaceUserID svc)
                                 (ExternalService.NamespaceOrgID svc))
                (userReposMaxPerUser env s)
                (ExternalService.NamespaceUserID svc) (ExternalService.NamespaceOrgID svc)
          ∧ ExternalService.IsSiteOwned svc = false
          ∧ matching (db w) sourced = []
          ∧ (userReposMaxPerSite env s ≤ countNamespaced (db w) 0 0
             ∨ userReposMaxPerUser env s
               ≤ countNamespaced (db w) (ExternalService.NamespaceUserID svc)
                                 (ExternalService.NamespaceOrgID svc)))).
Proof.
  unfold sync, syncBody, syncDeferred, syncUpdate, syncCreate, publish.
  wp_go; try discriminate.
  all: intros d0 e0 Heq; simplify_eq/=.
  all: wsimpl.
  all: rewrite <- ?app_assoc, ?drop_app_length.
  all: split; [done|split; [done|]].
  all: try (split; [done|intros; discriminate]).
  all: try (split; [intros Hne; by destruct (Hne msg)|intros; discriminate]).
  split; [done|]. intros _. unfold countNamespaced, matching.
  split; [done|]. split; [by destruct (ExternalService.IsSiteOwned svc)|].
  split; [done|]. apply orb_true_iff in Heqb0 as [?%Z.leb_le|?%Z.leb_le]; auto.
Qed.

(** Membership in a list that is written out. *)
Ltac elem_inv H :=
  repeat (apply elem_of_cons in H as [H|H]; [try discriminate H|]);
  try (by apply elem_of_nil in H).

Ltac not_elem := let H := fresh in intros H; elem_inv H; fail.

Ltac is_elem := repeat first [by apply list_elem_of_here | apply list_elem_of_further].

(** The calls of an apply on the store: the transaction is opened first
    and, once open, closed exactly once, as the last call. *)
Lemma sync_ops_post env s svc sourced w :
  wp (sync env s svc sourced) w
    (λ r w', ∃ evs, trace w' = trace w ++ evs ∧
       match fault w with
       | Some msg =>
           evs = [EvStore OpTransact]
           ∧ r = Done (Diff.zero, Some (Wrap (ErrStore msg) "syncer: opening transaction"))
           ∧ db w' = db w
       | None =>
           ∃ mid, storeOps evs = OpTransact :: mid ++ [OpDone]
                  ∧ (OpTransact ∉ mid) ∧ (OpDone ∉ mid)
                  ∧ (EvCommit ∈ evs → (EvRollback ∉ evs) ∧ ∀ d e, r ≠ Done (d, Some e))
                  ∧ (∀ d, r = Done (d, None) → EvCommit ∈ evs)
       end).
Proof.
  unfold sync, syncBody, syncDeferred, syncUpdate, syncCreate, publish.
  wp_go; try discriminate.
  all: simplify_eq/=.
  all: wsimpl.
  all: rewrite <- ?app_assoc; cbn [app].
  all: eexists; split; [reflexivity|].
  all: match goal with
       | H : fault ?w0 = _ |- context [match fault ?w0 with _ => _ end] => rewrite H
       end.
  all: try done.
  all: cbn [storeOps omap option_bind mbind].
  all: first
    [ exists []; split; [reflexivity|]
    | eexists [_]; split; [reflexivity|]
    | eexists [_; _]; split; [reflexivity|]
    | eexists [_; _; _]; split; [reflexivity|]
    | eexists [_; _; _; _]; split; [reflexivity|] ].
  all: split; [not_elem|]. 
  all: split; [not_elem|].
  all: split; [first [not_elem | intros _; split; [not_elem|intros; discriminate]]
              |first [intros; discriminate | intros; is_elem]].
Qed.

(** *** The uniqueness constraints *)

Lemma unique_filter (P : Repo.t → Prop) `{∀ x, Decision (P x)} d :
  unique d → unique (withRepos (filter P (repos d)) d).
Proof.
  unfold unique. simpl. intros (? & ? & ?). split_and!; by apply NoDup_fmap_filter.
Qed.

Lemma fresh_filter (P : Repo.t → Prop) `{∀ x, Decision (P x)} d :
  fresh d → fresh (withRepos (filter P (repos d)) d).
Proof.
  unfold fresh. simpl. rewrite !Forall_forall.
  intros Hf r [_ Hr]%list_elem_of_filter. by apply Hf.
Qed.

(** Replacing the row of one ID keeps a column free of duplicates when the
    new value of the column is not that of another row. *)
Lemma NoDup_fmap_replace {B} (f : Repo.t → B) (g : Repo.t → Repo.t) (x : Z) (b : B)
    (l : list Repo.t) :
  NoDup (Repo.ID <$> l) → NoDup (f <$> l) →
  (∀ r, r ∈ l → Repo.ID r ≠ x → g r = r ∧ f r ≠ b) →
  (∀ r, r ∈ l → Repo.ID r = x → f (g r) = b) →
  NoDup (f <$> (g <$> l)).
Proof.
  induction l as [|a l IH]; [done|].
  rewrite !fmap_cons, !NoDup_cons. intros [Hida Hid] [Hfa Hf] Hother Hrow.
  split.
  - rewrite list_elem_of_fmap. intros (r' & Hfr & (r & -> & Hr)%list_elem_of_fmap).
    destruct (decide (Repo.ID a = x)) as [Ha|Ha].
    + destruct (decide (Repo.ID r = x)) as [Hrx|Hrx].
      * destruct Hida. apply list_elem_of_fmap. exists r. split; [congruence|done].
      * destruct (Hother r ltac:(set_solver) Hrx) as [Hg Hb].
        rewrite Hg in Hfr. rewrite (Hrow a ltac:(set_solver) Ha) in Hfr. congruence.
    + destruct (Hother a ltac:(set_solver) Ha) as [Hga Hba]. rewrite Hga in Hfr.
      destruct (decide (Repo.ID r = x)) as [Hrx|Hrx].
      * rewrite (Hrow r ltac:(set_solver) Hrx) in Hfr. congruence.
      * destruct (Hother r ltac:(set_solver) Hrx) as [Hg Hb]. rewrite Hg in Hfr.
        destruct Hfa. apply list_elem_of_fmap. by exists r.
  - apply IH; [done|done| |]; intros r Hr; [apply Hother|apply Hrow]; set_solver.
Qed.

Lemma unique_replace l d es' n' svc u st :
  unique (withRepos l d) →
  Repo.ID u = Repo.ID st →
  (∀ r, r ∈ l → Repo.ID r ≠ Repo.ID st →
        Repo.Name r ≠ Repo.Name u ∧ Repo.ExternalRepo r ≠ Repo.ExternalRepo u) →
  unique (mkDB ((λ row, if bool_decide (Repo.ID row = Repo.ID u)
                        then Repo.addSource svc u else row) <$> l) es' n').
Proof.
  intros (Hid & Hname & Hspec) Hu Hothers. unfold unique in *. simpl in *. split_and!.
  - by rewrite fmap_ID_replace.
  - apply (NoDup_fmap_replace _ _ (Repo.ID u) (Repo.Name u)); [done|done| |].
    + intros r Hr Hne. rewrite bool_decide_eq_false_2 by done. split; [done|].
      apply Hothers; [done|congruence].
    + intros r Hr He. by rewrite bool_decide_eq_true_2.
  - apply (NoDup_fmap_replace _ _ (Repo.ID u) (Repo.ExternalRepo u)); [done|done| |].
    + intros r Hr Hne. rewrite bool_decide_eq_false_2 by done. split; [done|].
      apply Hothers; [done|congruence].
    + intros r Hr He. by rewrite bool_decide_eq_true_2.
Qed.

Lemma fresh_replace l d es' svc u :
  fresh (withRepos l d) →
  fresh (mkDB ((λ row, if bool_decide (Repo.ID row = Repo.ID u)
                       then Repo.addSource svc u else row) <$> l) es' (next_repo_id d)).
Proof.
  unfold fresh. simpl. rewrite !Forall_forall. intros Hf r (r0 & -> & Hr)%list_elem_of_fmap.
  case_bool_decide as He; [|by apply Hf].
  unfold Repo.addSource; simpl. rewrite <- He. by apply Hf.
Qed.

Lemma unique_create d svc sourced :
  unique d → fresh d → matching d sourced = [] →
  let row := Repo.addSource svc (Repo.withID (next_repo_id d) sourced) in
  unique (mkDB (repos d ++ [row]) (external_services d) (next_repo_id d + 1))
  ∧ fresh (mkDB (repos d ++ [row]) (external_services d) (next_repo_id d + 1)).
Proof.
  intros (Hid & Hname & Hspec) Hf Hm row.
  assert (∀ r, r ∈ repos d →
            Repo.Name r ≠ Repo.Name sourced ∧ Repo.ExternalRepo r ≠ Repo.ExternalRepo sourced)
    as Hnone.
  { intros r Hr.
    assert (¬ RepoStore.selects (lookupOptions sourced) r) as Hs.
    { intros Hs. assert (r ∈ matching d sourced) as Hin by by apply list_elem_of_filter.
      rewrite Hm in Hin. by apply elem_of_nil in Hin. }
    rewrite selects_lookup in Hs. tauto. }
  unfold unique, fresh in *. simpl. rewrite !fmap_app, !NoDup_app. simpl.
  rewrite Forall_forall in Hf. split_and!; try done; try apply NoDup_singleton.
  - intros x (r & -> & Hr)%list_elem_of_fmap ?%list_elem_of_singleton.
    specialize (Hf r Hr). unfold row, Repo.addSource, Repo.withID in *; simpl in *. lia.
  - intros x (r & -> & Hr)%list_elem_of_fmap ?%list_elem_of_singleton.
    destruct (Hnone r Hr) as [Hn _]. by destruct Hn.
  - intros x (r & -> & Hr)%list_elem_of_fmap ?%list_elem_of_singleton.
    destruct (Hnone r Hr) as [_ Hn]. by destruct Hn.
  - apply Forall_app. split.
    + apply Forall_forall. intros r Hr. specialize (Hf r Hr). lia.
    + apply Forall_singleton. unfold row, Repo.addSource, Repo.withID; simpl. lia.
Qed.

Lemma unselected sourced (l found : list Repo.t) r :
  filter (λ r, RepoStore.selects (lookupOptions sourced) r) l = found →
  r ∈ l → r ∉ found →
  Repo.Name r ≠ Repo.Name sourced ∧ Repo.ExternalRepo r ≠ Repo.ExternalRepo sourced.
Proof.
  intros <- Hr Hnot.
  assert (¬ RepoStore.selects (lookupOptions sourced) r) as Hs.
  { intros Hs. apply Hnot. by apply list_elem_of_filter. }
  rewrite selects_lookup in Hs. tauto.
Qed.

Lemma sync_invariant_post env s svc sourced w :
  wp (sync env s svc sourced) w
    (λ r w', unique (db w) → fresh (db w) → unique (db w') ∧ fresh (db w')).
Proof.
  unfold sync, syncBody, syncDeferred, syncUpdate, syncCreate, publish.
  wp_go; try discriminate.
  all: simplify_eq/=.
  all: wsimpl.
  all: intros Hu Hf.
  all: try done.
  all: try (split; [by apply unique_filter|by apply fresh_filter]).
  all: try (by apply unique_create).
  all: unfold withRepos; cbn [repos external_services next_repo_id].
  all: match goal with
       | Hu : unique ?d, Hf : fresh ?d |- _ =>
           pose proof (unique_filter (λ r, True) d Hu) as _;
           split;
             [|apply (fresh_replace _ d);
               first [by destruct d|by apply (fresh_filter _ d)]]
       end.
  all: match goal with
       | Hu : unique ?d, Hup : Repo.Update ?st _ = (?u, _) |- _ =>
           pose proof (Update_ID _ _ _ _ Hup) as Hid;
           pose proof (Update_Name _ _ _ _ Hup) as Hname;
           pose proof (Update_fields _ _ _ _ Hup) as [Hspec _];
           apply (unique_replace _ d _ _ _ _ st);
             [first [by destruct d|by apply (unique_filter _ d)]|done|]
       end.
  all: intros r Hr Hne; rewrite Hname, Hspec.
  all: try (match goal with
            | Hm : filter _ _ = [_] |- _ =>
                apply (unselected _ _ _ _ Hm); [done|];
                intros ->%list_elem_of_singleton; by destruct Hne
            end).
  all: apply list_elem_of_filter in Hr as [Hnc Hr].
  all: match goal with
       | Hm : filter _ _ = [_; _], Hp : pickConflict _ _ = _ |- _ =>
           apply (unselected _ _ _ _ Hm); [done|];
           apply pickConflict_pair in Hp as [[[-> ->]|[-> ->]] _];
           intros Hin; elem_inv Hin; by subst
       end.
Qed.

(** *** The row of a sourced repo, and a second apply *)

Lemma Forall_tail' {A} (P : A → Prop) l : Forall P l → Forall P (tail l).
Proof. by destruct 1. Qed.

(** The failure script only shrinks. *)
Ltac healthy_tail := unfold healthy in *; wsimpl; repeat apply Forall_tail'; assumption.

Lemma addSource_fields svc r :
  Repo.ID (Repo.addSource svc r) = Repo.ID r
  ∧ Repo.Name (Repo.addSource svc r) = Repo.Name r
  ∧ Repo.ExternalRepo (Repo.addSource svc r) = Repo.ExternalRepo r
  ∧ Repo.Private (Repo.addSource svc r) = Repo.Private r
  ∧ Repo.Sources r ⊆ Repo.Sources (Repo.addSource svc r)
  ∧ svc ∈ Repo.Sources (Repo.addSource svc r).
Proof.
  unfold Repo.addSource; simpl. split_and!; try done; case_bool_decide; set_solver.
Qed.

Lemma Update_Sources r n r' b :
  Repo.Update r n = (r', b) → Repo.Sources n ⊆ Repo.Sources r'.
Proof.
  unfold Repo.Update. intros [= <- _]. simpl. intros x Hx.
  destruct (decide (x ∈ Repo.Sources r)); [set_solver|].
  apply elem_of_app. right. unfold Repo.newSources. by apply list_elem_of_filter.
Qed.

Lemma Update_false r n r' :
  Repo.Update r n = (r', false) →
  r' = r ∧ Repo.Name r = Repo.Name n ∧ Repo.ExternalRepo r = Repo.ExternalRepo n
  ∧ Repo.Private r = Repo.Private n ∧ Repo.Sources n ⊆ Repo.Sources r.
Proof.
  intros Hup. pose proof (Update_Sources _ _ _ _ Hup) as Hsrc. revert Hup Hsrc.
  unfold Repo.Update. intros [= <- Hm]. apply negb_false_iff in Hm.
  rewrite !andb_true_iff, !bool_decide_eq_true in Hm.
  destruct Hm as [[[Hn Hs%ExternalRepoSpec_Equal_true] Hp] Hnew].
  simpl. rewrite Hnew, app_nil_r. intros Hsrc. split_and!; try done.
  destruct r; simpl in *. by subst.
Qed.


Lemma rowOf_Update r n r' b : Repo.Update r n = (r', b) → rowOf n r'.
Proof.
  intros Hup. unfold rowOf.
  pose proof (Update_Name _ _ _ _ Hup). pose proof (Update_fields _ _ _ _ Hup) as [??].
  pose proof (Update_Sources _ _ _ _ Hup). done.
Qed.

Lemma rowOf_addSource svc n r : rowOf n r → rowOf n (Repo.addSource svc r).
Proof.
  unfold rowOf. pose proof (addSource_fields svc r) as (_ & -> & -> & -> & Hs & _).
  intros (? & ? & ? & ?). split_and!; try done. set_solver.
Qed.

Lemma replaced_elem svc u st (l : list Repo.t) :
  st ∈ l → Repo.ID u = Repo.ID st →
  Repo.addSource svc u
  ∈ (λ row, if bool_decide (Repo.ID row = Repo.ID u) then Repo.addSource svc u else row) <$> l.
Proof.
  intros Hin Hid. apply list_elem_of_fmap. exists st. split; [|done].
  by rewrite bool_decide_eq_true_2.
Qed.

(** With unique IDs the row that case 2 keeps is not the one it deletes. *)
Lemma existing_kept (P : Repo.t → Prop) `{∀ x, Decision (P x)} (l : list Repo.t)
    sourced a b conflicting existing :
  NoDup (Repo.ID <$> l) →
  filter P l = [a; b] →
  pickConflict sourced [a; b] = (Some conflicting, Some existing) →
  existing ∈ filter (λ r, Repo.ID r ≠ Repo.ID conflicting) l.
Proof.
  intros Hnd Hf Hp.
  pose proof (filter_pair_NoDup Repo.ID P l a b Hnd Hf) as Hne.
  apply filter_pair_elem in Hf as [[_ Ha] [_ Hb]].
  apply pickConflict_pair in Hp as [[[-> ->]|[-> ->]] _];
    apply list_elem_of_filter; split; auto.
Qed.

Lemma sync_stored_post env s svc sourced w :
  wp (sync env s svc sourced) w
    (λ r w', (healthy w → healthy w')
       ∧ ∀ d, r = Done (d, None) → NoDup (Repo.ID <$> repos (db w)) →
           ∃ row x, Diff.Repos d = [x] ∧ row ∈ repos (db w') ∧ Repo.ID row = Repo.ID x
             ∧ rowOf sourced row
             ∧ (Diff.Unmodified d = [] → ExternalService.ID svc ∈ Repo.Sources row)).
Proof.
  unfold sync, syncBody, syncDeferred, syncUpdate, syncCreate, publish.
  wp_go; try discriminate.
  all: simplify_eq/=.
  all: wsimpl.
  all: split; [intros Hh; healthy_tail|].
  all: try (intros; discriminate).
  all: intros d0 [= <-] Hnd.
  all: unfold Diff.Repos; cbn [foldl app Diff.Added Diff.Deleted Diff.Modified Diff.Unmodified].
  all: try (eexists _, _; split; [reflexivity|];
            split; [apply elem_of_app; right; apply list_elem_of_singleton; reflexivity|];
            split; [reflexivity|];
            pose proof (addSource_fields (ExternalService.ID svc)
                          (Repo.withID (next_repo_id (db w)) sourced)) as (_ & ? & ? & ? & ? & ?);
            split; [by unfold rowOf|done]).
  all: match goal with
       | Hup : Repo.Update ?st _ = (?u, ?b) |- _ =>
           pose proof (Update_ID _ _ _ _ Hup) as Hid;
           pose proof (rowOf_Update _ _ _ _ Hup) as Hrow;
           destruct b; simplify_eq/=
       end.
  all: try match goal with
       | Hup : Repo.Update ?st _ = (?u, false) |- _ =>
           apply Update_false in Hup as (-> & _)
       end.
  all: try match goal with
       | Hm : filter _ _ = [_; _], Hp : pickConflict _ _ = _ |- _ =>
           pose proof (existing_kept _ _ _ _ _ _ _ Hnd Hm Hp) as Hkept
       end.
  all: try match goal with
       | Hm : filter _ _ = [_] |- _ => pose proof (filter_singleton_elem _ _ _ Hm) as Hkept
       end.
  all: first
    [ eexists _, _; split; [reflexivity|]; split; [exact Hkept|];
      split; [reflexivity|]; split; [exact Hrow|intros; discriminate]
    | eexists _, _; split; [reflexivity|];
      split; [by apply (replaced_elem _ _ _ _ Hkept)|];
      split; [by apply addSource_fields|];
      split; [by apply rowOf_addSource|intros _; by apply addSource_fields] ].
Qed.

Lemma filter_none {A} (P : A → Prop) `{∀ x, Decision (P x)} (l : list A) :
  (∀ y, y ∈ l → ¬ P y) → filter P l = [].
Proof.
  induction l as [|a l IH]; [done|]. intros Hall.
  rewrite filter_cons, decide_False by (apply Hall; set_solver).
  apply IH. intros y Hy. apply Hall. set_solver.
Qed.

Lemma filter_unique_row {A} (P : A → Prop) `{∀ x, Decision (P x)} (l : list A) x :
  NoDup l → x ∈ l → P x → (∀ y, y ∈ l → P y → y = x) → filter P l = [x].
Proof.
  induction l as [|a l IH]; [by intros _ ?%elem_of_nil|].
  intros [Ha Hl]%NoDup_cons Hx HP Hall.
  rewrite filter_cons. destruct (decide (P a)) as [HPa|HPa].
  - assert (a = x) as -> by (apply Hall; [set_solver|done]).
    f_equal. apply filter_none. intros y Hy HPy.
    assert (y = x) by (apply Hall; [set_solver|done]). by subst.
  - apply IH; [done| |done|].
    + apply elem_of_cons in Hx as [->|]; [by destruct HPa|done].
    + intros y Hy. apply Hall. set_solver.
Qed.

(** Under the uniqueness constraints the lookup of an apply finds the row
    of the sourced repo alone. *)
Lemma matching_row d sourced row :
  unique d → row ∈ repos d → rowOf sourced row → matching d sourced = [row].
Proof.
  intros (Hid & Hname & Hspec) Hin (Hn & Hs & _). unfold matching.
  apply filter_unique_row.
  - by apply NoDup_fmap_1 in Hid.
  - done.
  - apply selects_lookup. by left.
  - intros y Hy [Hy'|Hy']%selects_lookup.
    + apply (NoDup_fmap_eq Repo.Name (repos d)); [done..|congruence].
    + apply (NoDup_fmap_eq Repo.ExternalRepo (repos d)); [done..|congruence].
Qed.

Lemma rowOf_Update_false sourced row : rowOf sourced row → Repo.Update row sourced = (row, false).
Proof.
  intros (Hn & Hs & Hp & Hsrc). unfold Repo.Update.
  assert (Repo.newSources row sourced = []) as Hnew.
  { unfold Repo.newSources. apply filter_none. intros x Hx. set_solver. }
  rewrite Hnew, app_nil_r, <- Hn, <- Hs, <- Hp. f_equal; [by destruct row|].
  rewrite !bool_decide_eq_true_2 by done.
  by rewrite (proj2 (ExternalRepoSpec_Equal_true _ _) eq_refl).
Qed.

(** An apply that finds the row of the sourced repo as it is: nothing is
    written. *)
Lemma sync_unmodified env s svc sourced w row :
  healthy w → matching (db w) sourced = [row] → rowOf sourced row →
  ∃ w', sync env s svc sourced w = (Done (Diff.mk [] [] [] [row], None), w')
        ∧ db w' = db w
        ∧ trace w' = trace w ++ [EvStore OpTransact; EvStore (OpList (lookupOptions sourced));
                                 EvStore OpDone; EvCommit]
                     ++ (if Synced s && negb (ctxDone w)
                         then [EvSynced (Diff.mk [] [] [] [row])] else []).
Proof.
  intros Hh Hm Hrow. apply rowOf_Update_false in Hrow. unfold matching in Hm.
  match goal with
  | |- ∃ w', _ = (?r, w') ∧ @?Q w' =>
      cut (wp (sync env s svc sourced) w (λ r' w', r' = r ∧ Q w'))
  end.
  { intros (r & w' & Hrun & -> & ?)%wp_ex. eauto. }
  unfold sync, syncBody, syncDeferred, syncUpdate, publish.
  wp_go; wsimpl; healthy_faults Hh; try congruence.
  all: rewrite Hm in *; simplify_eq/=.
  all: try match goal with
           | H1 : Repo.Update ?a ?b = _, H2 : Repo.Update ?a ?b = _ |- _ =>
               rewrite H1 in H2; simplify_eq/=
           end.
  all: rewrite <- ?app_assoc; cbn [app].
  all: destruct (Synced s); simplify_eq/=; try done.
  all: try match goal with H : ctxDone _ = _ |- _ => rewrite H end; try done.
Qed.

(** X7.  An apply is idempotent: on a store that keeps its uniqueness
    constraints and does not fail, a second apply of the same sourced repo
    after a successful one finds its row, returns it as Unmodified, and
    only opens the transaction, looks up and commits: the store is left as
    the first apply left it. *)
Theorem sync_again_unmodified env s svc sourced w d w' :
  unique (db w) → fresh (db w) → healthy w →
  sync env s svc sourced w = (Done (d, None), w') →
  ∃ row w'',
    sync env s svc sourced w' = (Done (Diff.mk [] [] [] [row], None), w'')
    ∧ row ∈ repos (db w')
    ∧ Repo.ID <$> Diff.Repos d = [Repo.ID row]
    ∧ db w'' = db w'
    ∧ storeOps (drop (length (trace w')) (trace w''))
      = [OpTransact; OpList (lookupOptions sourced); OpDone].
Proof.
  intros Hu Hf Hh Hrun.
  pose proof (wp_run _ _ _ _ _ (sync_invariant_post env s svc sourced w) Hrun Hu Hf)
    as [Hu' _].
  pose proof (wp_run _ _ _ _ _ (sync_stored_post env s svc sourced w) Hrun) as [Hh' Hst].
  destruct (Hst d eq_refl (proj1 Hu)) as (row & x & HR & Hin & Hid & Hrow & _).
  destruct (sync_unmodified env s svc sourced w' row (Hh' Hh)
              (matching_row _ _ _ Hu' Hin Hrow) Hrow) as (w'' & Hrun2 & Hdb & Htr).
  exists row, w''. split; [done|]. split; [done|]. split; [by rewrite HR, Hid|].
  split; [done|]. rewrite Htr, drop_app_length.
  unfold storeOps. rewrite omap_app. simpl. by destruct (_ && _).
Qed.

(** *** What a pass keeps *)

(** What holds of the world before the loop over the results, is kept by
    every apply and does not depend on the trace of receptions, holds
    after the loop. *)
Lemma consume_keeps (I : World → Prop) env s svc allowed results :
  (∀ sourced w, I w → wp (sync env s svc sourced) w (λ _ w', I w')) →
  (∀ res w, I w → I (withTrace (trace w ++ [EvRecv res]) w)) →
  ∀ p w, I w → wp (consume env s svc allowed results p) w (λ _ w', I w').
Proof.
  intros Hsync Hrecv.
  induction results as [|res results IH]; intros p w Hw; cbn [consume].
  { by apply wp_ret. }
  apply wp_bind, wp_emit. cbv beta iota.
  destruct res as [sourced|err].
  - destruct (negb (allowed sourced)); [by apply IH, Hrecv|].
    apply wp_bind. eapply wp_mono; [by apply Hsync, Hrecv|].
    intros [[d0 [e|]]|msg] w2 Hw2; [|by apply IH|done].
    destruct (errors.HasTypeRepoLimitError e); [by apply wp_ret|by apply IH].
  - destruct (fatal err); [apply wp_ret|apply IH]; by apply Hrecv.
Qed.


Lemma sync_constrained env s svc sourced w :
  constrained w → wp (sync env s svc sourced) w (λ _ w', constrained w').
Proof.
  intros [Hu Hf]. eapply wp_mono; [apply sync_invariant_post|].
  intros r w' H. by apply H.
Qed.

Lemma complete_constrained s svc minSyncInterval p w :
  constrained w → wp (complete s svc minSyncInterval p) w (λ _ w', constrained w').
Proof.
  intros [Hu Hf]. unfold complete, prune, delete.
  wp_go; rewrite ?notifyDeleted_eq; unfold publish; wp_go; wsimpl.
  all: unfold constrained; wsimpl.
  all: try (split; [by destruct (db w)|by destruct (db w)]).
  all: split; [apply (unique_filter _ (db w) Hu)|apply (fresh_filter _ (db w) Hf)].
Qed.

Lemma SyncExternalService_constrained env s id minSyncInterval w :
  constrained w →
  wp (SyncExternalService env s id minSyncInterval) w (λ _ w', constrained w').
Proof.
  intros Hw. unfold SyncExternalService, allowedFor.
  wp_go; wsimpl; try done.
  all: eapply wp_mono;
    [apply (consume_keeps constrained);
     [intros; by apply sync_constrained|done|done]|].
  all: intros [p|msg] w' Hw'; [by apply complete_constrained|done].
Qed.

Lemma syncRepoFetch_constrained env s svc getRepo name path w :
  constrained w →
  wp (syncRepoFetch env s svc getRepo name path) w (λ _ w', constrained w').
Proof.
  intros Hw. unfold syncRepoFetch.
  wp_go; wsimpl; try done.
  eapply wp_mono; [by apply sync_constrained|].
  intros [[d [e|]]|msg] w' Hw'; cbv beta iota; try done; by apply wp_ret.
Qed.

Lemma syncRepoDeferred_constrained s svc stored res w :
  constrained w →
  wp (syncRepoDeferred s svc stored res) w (λ _ w', constrained w').
Proof.
  intros [Hu Hf]. unfold syncRepoDeferred.
  wp_go; rewrite ?notifyDeleted_eq; unfold publish; wp_go; wsimpl.
  all: unfold constrained; wsimpl; try done.
  all: split; [apply (unique_filter _ (db w) Hu)|apply (fresh_filter _ (db w) Hf)].
Qed.

Lemma syncRepo_constrained env s codehost name stored w :
  constrained w →
  wp (syncRepo env s codehost name stored) w (λ _ w', constrained w').
Proof.
  intros Hw. unfold syncRepo.
  wp_go; wsimpl; try done.
  - eapply wp_mono; [by apply syncRepoFetch_constrained|].
    intros [a|msg] w' Hw'; [by apply syncRepoDeferred_constrained|].
    eapply wp_mono; [by apply syncRepoDeferred_constrained|]. done.
  - by apply syncRepoFetch_constrained.
Qed.

Lemma SyncRepo_constrained env s name background w :
  constrained w →
  wp (SyncRepo env s name background) w (λ _ w', constrained w').
Proof.
  intros Hw. unfold SyncRepo.
  wp_go; wsimpl; try done.
  all: try (by apply syncRepo_constrained).
  all: eapply wp_mono; [by apply syncRepo_constrained|].
  all: intros [[r [e|]]|msg] w' Hw'; cbv beta iota; try done; by apply wp_ret.
Qed.

(** X8.  Whatever its outcome, a per-repo apply keeps the uniqueness
    constraints of the store (on ID, name and external repo spec) and hands
    out fresh IDs only. *)
Theorem sync_keeps_constraints env s svc sourced w r w' :
  unique (db w) → fresh (db w) →
  sync env s svc sourced w = (r, w') →
  unique (db w') ∧ fresh (db w').
Proof.
  intros Hu Hf Hrun.
  exact (wp_run _ _ _ _ _ (sync_invariant_post env s svc sourced w) Hrun Hu Hf).
Qed.

(** X9.  So do a pass over an external service and the lazy sync of a
    single repo, whatever their outcome. *)
Theorem Syncer_keeps_constraints env s w :
  unique (db w) → fresh (db w) →
  (∀ id minSyncInterval r w',
     SyncExternalService env s id minSyncInterval w = (r, w') →
     unique (db w') ∧ fresh (db w'))
  ∧ (∀ name background r w',
       SyncRepo env s name background w = (r, w') → unique (db w') ∧ fresh (db w')).
Proof.
  intros Hu Hf. split.
  - intros id minSyncInterval r w' Hrun.
    exact (wp_run _ _ _ _ _
             (SyncExternalService_constrained env s id minSyncInterval w (conj Hu Hf)) Hrun).
  - intros name background r w' Hrun.
    exact (wp_run _ _ _ _ _ (SyncRepo_constrained env s name background w (conj Hu Hf)) Hrun).
Qed.


(** *** Nothing is sent without a channel *)

Lemma sync_silent env s svc sourced w0 w :
  Synced s = false → silentSince w0 w →
  wp (sync env s svc sourced) w (λ _ w', silentSince w0 w').
Proof.
  intros Hs Hw. eapply wp_mono; [apply sync_post|].
  intros r w' (_ & _ & evs & Htr & _ & _ & Hr). unfold silentSince in *.
  rewrite Htr, published_app, Hw.
  assert (published evs = []) as ->; [|by rewrite app_nil_r].
  destruct r as [[d [e|]]|msg]; [by destruct Hr| |done].
  destruct Hr as [(pre & -> & Hpre) _]. rewrite Hs in *. simpl.
  by rewrite published_app, Hpre.
Qed.

Lemma silent_emit w0 w ev :
  silentSince w0 w → (∀ d, ev ≠ EvSynced d) →
  silentSince w0 (withTrace (trace w ++ [ev]) w).
Proof.
  unfold silentSince. simpl. intros Hw Hev. rewrite published_app, Hw.
  destruct ev; simpl; rewrite ?app_nil_r; try done. by destruct (Hev d).
Qed.

Lemma silent_call w0 w op d :
  silentSince w0 w → silentSince w0 (afterCall op d w).
Proof.
  unfold silentSince. simpl. intros Hw. by rewrite published_app, Hw, app_nil_r.
Qed.

Lemma complete_silent s svc minSyncInterval p w0 w :
  Synced s = false → silentSince w0 w →
  wp (complete s svc minSyncInterval p) w (λ _ w', silentSince w0 w').
Proof.
  intros Hs Hw. unfold complete, prune, delete.
  wp_go; rewrite ?notifyDeleted_eq; unfold publish; rewrite ?Hs; wp_go; wsimpl.
  all: repeat apply silent_call; done.
Qed.

Lemma SyncExternalService_silent env s id minSyncInterval w :
  Synced s = false →
  wp (SyncExternalService env s id minSyncInterval) w (λ _ w', silentSince w w').
Proof.
  intros Hs. assert (silentSince w w) as Hw by done.
  unfold SyncExternalService, allowedFor.
  wp_go; wsimpl; try (repeat apply silent_call; done).
  all: eapply wp_mono;
    [apply (consume_keeps (silentSince w));
       [intros; by apply sync_silent
       |intros; by apply silent_emit
       |apply silent_emit; [repeat apply silent_call; done|done]]|].
  all: intros [p|msg] w' Hw'; [by apply complete_silent|done].
Qed.

Lemma syncRepoFetch_silent env s svc getRepo name path w0 w :
  Synced s = false → silentSince w0 w →
  wp (syncRepoFetch env s svc getRepo name path) w (λ _ w', silentSince w0 w').
Proof.
  intros Hs Hw. unfold syncRepoFetch.
  wp_go; wsimpl; try (by apply silent_emit).
  eapply wp_mono; [apply sync_silent; [done|by apply silent_emit]|].
  intros [[d [e|]]|msg] w' Hw'; cbv beta iota; try done; by apply wp_ret.
Qed.

Lemma syncRepoDeferred_silent s svc stored res w0 w :
  Synced s = false → silentSince w0 w →
  wp (syncRepoDeferred s svc stored res) w (λ _ w', silentSince w0 w').
Proof.
  intros Hs Hw. unfold syncRepoDeferred.
  wp_go; rewrite ?notifyDeleted_eq; unfold publish; rewrite ?Hs; wp_go; wsimpl.
  all: try (repeat apply silent_call; done).
Qed.

Lemma syncRepo_silent env s codehost name stored w0 w :
  Synced s = false → silentSince w0 w →
  wp (syncRepo env s codehost name stored) w (λ _ w', silentSince w0 w').
Proof.
  intros Hs Hw. unfold syncRepo.
  wp_go; wsimpl; try (by apply silent_call).
  - eapply wp_mono; [apply syncRepoFetch_silent; [done|by apply silent_call]|].
    intros [a|msg] w' Hw'; [by apply syncRepoDeferred_silent|].
    eapply wp_mono; [by apply syncRepoDeferred_silent|]. done.
  - apply syncRepoFetch_silent; [done|by apply silent_call].
Qed.

Lemma SyncRepo_silent env s name background w :
  Synced s = false →
  wp (SyncRepo env s name background) w (λ _ w', silentSince w w').
Proof.
  intros Hs. assert (silentSince w w) as Hw by done. unfold SyncRepo.
  wp_go; wsimpl; try (repeat first [apply silent_call | apply silent_emit]; done).
  all: try (apply syncRepo_silent; [done|by apply silent_call]).
  all: eapply wp_mono; [apply syncRepo_silent; [done|by apply silent_call]|].
  all: intros [[r [e|]]|msg] w' Hw'; cbv beta iota; try done; by apply wp_ret.
Qed.

(** X10.  With a nil Synced channel nothing is ever sent: not by an
    apply, not by a pass, not by the lazy path; and the start-up diff is
    skipped without a call on the store. *)
Theorem Syncer_sends_nothing_without_channel env s w :
  Synced s = false →
  (∀ svc sourced r w',
     sync env s svc sourced w = (r, w') → published (trace w') = published (trace w))
  ∧ (∀ id minSyncInterval r w',
       SyncExternalService env s id minSyncInterval w = (r, w') →
       published (trace w') = published (trace w))
  ∧ (∀ name background r w',
       SyncRepo env s name background w = (r, w') →
       published (trace w') = published (trace w))
  ∧ initialUnmodifiedDiffFromStore s w = (Done (), w).
Proof.
  intros Hs. split_and!.
  - intros svc sourced r w' Hrun.
    exact (wp_run _ _ _ _ _ (sync_silent env s svc sourced w w Hs eq_refl) Hrun).
  - intros id minSyncInterval r w' Hrun.
    exact (wp_run _ _ _ _ _ (SyncExternalService_silent env s id minSyncInterval w Hs) Hrun).
  - intros name background r w' Hrun.
    exact (wp_run _ _ _ _ _ (SyncRepo_silent env s name background w Hs) Hrun).
  - unfold initialUnmodifiedDiffFromStore. by rewrite Hs.
Qed.


(** *** The order of reception *)

Lemma stops_Append errs e : stops e = true → ∃ e', errors.Append errs e = Some e' ∧ stops e' = true.
Proof.
  unfold stops. intros He.
  assert (∀ e0, stops (Multi [e0; e]) = true) as Hpair.
  { intros e0. unfold stops. rewrite fatal_Multi. simpl. rewrite !orb_false_r.
    apply orb_true_iff in He as [->| ->]; rewrite ?orb_true_r; done. }
  unfold stops in Hpair.
  destruct errs as [e0|]; simpl; [|by eauto].
  destruct e0; try (eexists; split; [done|apply Hpair]).
  eexists; split; [done|]. rewrite fatal_Multi. simpl. rewrite !existsb_app. simpl.
  rewrite !orb_false_r.
  apply orb_true_iff in He as [->| ->]; rewrite ?orb_true_r; done.
Qed.


Lemma consume_order env s svc allowed results :
  ∀ p w, wp (consume env s svc allowed results p) w (orderPost results w).
Proof.
  induction results as [|res results IH]; intros p w; cbn [consume].
  { apply wp_ret. exists []. by rewrite app_nil_r. }
  assert (∀ w1 evs1 r w',
            trace w1 = trace w ++ EvRecv res :: evs1 → received evs1 = [] →
            orderPost results w1 r w' →
            orderPost (res :: results) w r w') as Hstep.
  { intros w1 evs1 r w' Htr1 Hrecv (evs & Htr & Hpre & Hall).
    exists ([EvRecv res] ++ evs1 ++ evs).
    split; [by rewrite Htr, Htr1, <- app_assoc|].
    rewrite !received_app, Hrecv. simpl.
    split; [by apply prefix_cons|]. intros p' Hr. destruct (Hall p' Hr) as [Hnone Hstop].
    split; [intros He; by rewrite (Hnone He)|].
    intros Hne. apply Hstop. congruence. }
  assert (∀ w1 evs1 (r : result Pass),
            trace w1 = trace w ++ EvRecv res :: evs1 → received evs1 = [] →
            (∀ p', r = Done p' → ∃ e, errs p' = Some e ∧ stops e = true) →
            orderPost (res :: results) w r w1) as Hstop.
  { intros w1 evs1 r Htr1 Hrecv Herr.
    exists ([EvRecv res] ++ evs1). split; [done|].
    rewrite received_app, Hrecv. simpl.
    split; [apply prefix_cons, prefix_nil|]. intros p' Hr.
    destruct (Herr p' Hr) as (e & He & Hs). split; [congruence|eauto]. }
  apply wp_bind, wp_emit. cbv beta iota.
  set (w1 := withTrace (trace w ++ [EvRecv res]) w).
  destruct res as [sourced|err].
  - destruct (negb (allowed sourced)).
    { eapply wp_mono; [apply IH|]. intros r w' Hpost.
      by apply (Hstep w1 [] r w'). }
    apply wp_bind. eapply wp_mono; [apply sync_post|].
    intros r w2 (_ & _ & evs & Htr2 & _ & Hco%received_contacts & _).
    assert (trace w2 = trace w ++ EvRecv (SourceRepo sourced) :: evs) as Htr.
    { rewrite Htr2. unfold w1. simpl. by rewrite <- app_assoc. }
    destruct r as [[d [e|]]|msg].
    + destruct (errors.HasTypeRepoLimitError e) eqn:Hty.
      * apply wp_ret. apply (Hstop w2 evs _); [done..|].
        intros p' [= <-]. simpl. apply stops_Append. unfold stops. by rewrite Hty, orb_true_r.
      * eapply wp_mono; [apply IH|]. intros r w' Hpost.
        by apply (Hstep w2 evs r w').
    + eapply wp_mono; [apply IH|]. intros r w' Hpost.
      by apply (Hstep w2 evs r w').
    + apply (Hstop w2 evs _); [done..|]. intros; discriminate.
  - destruct (fatal err) eqn:Hfe.
    + apply wp_ret. apply (Hstop w1 [] _); [done..|].
      intros p' [= <-]. simpl. apply stops_Append. unfold stops, fatal in *. simpl.
      by rewrite Hfe.
    + eapply wp_mono; [apply IH|]. intros r w' Hpost.
      by apply (Hstep w1 [] r w').
Qed.

(** X11.  The loop of a pass receives the results in the order the source
    sent them, without skipping any; it ends before the last result only
    with a fatal error or a RepoLimitError recorded; and when it ends with
    no error recorded every result was received. *)
Theorem consume_in_order env s svc allowed results p w p' w' :
  consume env s svc allowed results p w = (Done p', w') →
  ∃ evs, trace w' = trace w ++ evs
    ∧ received evs `prefix_of` results
    ∧ (errs p' = None → received evs = results)
    ∧ (received evs ≠ results →
       ∃ e, errs p' = Some e ∧ (fatal e = true ∨ errors.HasTypeRepoLimitError e = true)).
Proof.
  intros Hrun.
  destruct (wp_run _ _ _ _ _ (consume_order env s svc allowed results p w) Hrun)
    as (evs & Htr & Hpre & Hall).
  destruct (Hall p' eq_refl) as [Hnone Hstop].
  exists evs. split_and!; try done.
  intros Hne. destruct (Hstop Hne) as (e & He & Hs%orb_true_iff). eauto.
Qed.



(** *** A pass that does not reach the source *)

Lemma listed_app_l evs1 evs2 : listed evs1 → listed (evs1 ++ evs2).
Proof. intros [id Hin]. exists id. apply elem_of_app. by left. Qed.

Lemma SyncExternalService_unreached env s id minSyncInterval w :
  wp (SyncExternalService env s id minSyncInterval) w (unreachedPost id w).
Proof.
  unfold SyncExternalService, allowedFor.
  wp_go; unfold unreachedPost; wsimpl.
  all: rewrite <- ?app_assoc; cbn [app].
  all: try (eexists; split; [reflexivity|]; right;
            split; [by eexists|]; split; [done|];
            first [by exists [OpGetByID id]; eauto
                  |by eexists [OpGetByID id; OpUserAllowedExternalServices _]; eauto]).
  all: eapply wp_mono; [apply (consume_post env s _ _ _ passStart);
                        by intros (? & ? & ?)|].
  all: intros [p|msg] w1 (_ & _ & evs1 & Htr1 & _); cbv beta iota; simpl in Htr1;
    rewrite <- app_assoc in Htr1.
  all: try (eexists; split; [exact Htr1|];
            left; apply listed_app_l; eexists; is_elem).
  all: eapply wp_mono; [apply complete_post|].
  all: intros r w2 (err & evs2 & deleted & errs' & _ & Htr2 & _).
  all: eexists; (split; [rewrite Htr2, Htr1; by rewrite <- !app_assoc|]).
  all: left; apply listed_app_l; eexists; is_elem.
Qed.

(** X12.  A pass that ends before the listing of the source is started
    returns an error and has changed nothing: the store is as it was,
    nothing is sent, the external service is not upserted (its sync times
    stay), and the only calls on the store are the read of the external
    service and, for a user's service, the read of what the user may add. *)
Theorem SyncExternalService_unlisted env s id minSyncInterval w r w' :
  SyncExternalService env s id minSyncInterval w = (r, w') →
  ∃ evs, trace w' = trace w ++ evs
    ∧ ((∀ svc, EvListRepos svc ∉ evs) →
       (∃ e, r = Done (Some e))
       ∧ db w' = db w
       ∧ published evs = []
       ∧ (∀ svc, OpUpsert svc ∉ storeOps evs)
       ∧ (storeOps evs = [OpGetByID id]
          ∨ ∃ uid, storeOps evs = [OpGetByID id; OpUserAllowedExternalServices uid])).
Proof.
  intros Hrun.
  destruct (wp_run _ _ _ _ _ (SyncExternalService_unreached env s id minSyncInterval w) Hrun)
    as (evs & Htr & Hcase).
  exists evs. split; [done|]. intros Hnot.
  destruct Hcase as [[svc Hin]|(He & Hdb & ops & -> & Hops)]; [by destruct (Hnot svc)|].
  split; [done|]. split; [done|].
  assert (storeOps (EvStore <$> ops) = ops) as ->.
  { clear. induction ops as [|op ops IH]; [done|]. rewrite fmap_cons.
    change (storeOps (EvStore op :: (EvStore <$> ops)))
      with (op :: storeOps (EvStore <$> ops)). by rewrite IH. }
  assert (published (EvStore <$> ops) = []) as ->.
  { clear. induction ops as [|op ops IH]; [done|]. rewrite fmap_cons.
    change (published (EvStore op :: (EvStore <$> ops)))
      with (published (EvStore <$> ops)). done. }
  split; [done|]. split; [|done].
  intros svc Hin. destruct Hops as [->|[uid ->]]; elem_inv Hin.
Qed.

(** *** delete *)



(** *** Start-up *)

(** X14.  With a Synced channel and a live context, the start-up sends
    one Diff with every stored repo as Unmodified, also when the store is
    empty; when the listing fails nothing is sent.  The store is left as it
    was. *)
Theorem initialUnmodifiedDiffFromStore_sends_all s w :
  Synced s = true → ctxDone w = false →
  ∃ w', initialUnmodifiedDiffFromStore s w = (Done (), w')
    ∧ db w' = db w
    ∧ trace w' = trace w
                 ++ EvStore (OpList (mkReposListOptions [] [] false false false))
                    :: match fault w with
                       | None => [EvSynced (Diff.mk [] [] [] (repos (db w)))]
                       | Some _ => []
                       end.
Proof.
  intros Hs Hctx.
  cut (wp (initialUnmodifiedDiffFromStore s) w
         (λ r w', r = Done () ∧ db w' = db w
            ∧ trace w' = trace w
                 ++ EvStore (OpList (mkReposListOptions [] [] false false false))
                    :: match fault w with
                       | None => [EvSynced (Diff.mk [] [] [] (repos (db w)))]
                       | Some _ => []
                       end)).
  { intros (r & w' & Hrun & -> & ? & ?)%wp_ex. eauto. }
  unfold initialUnmodifiedDiffFromStore. rewrite Hs. simpl.
  wp_go; wsimpl; simplify_eq/=.
  all: match goal with H : fault _ = _ |- _ => rewrite H end.
  all: rewrite <- ?app_assoc; try done; try congruence.
  assert (∀ l : list Repo.t, filter (λ _, True) l = l) as Hall.
  { clear. induction l as [|r l IH]; [done|]. rewrite filter_cons. simpl. by rewrite IH. }
  by rewrite Hall.
Qed.

(** *** Private repos of a user who may only add public code *)

Lemma consume_rejected env s svc allowed results p w :
  Forall (λ res, ∃ r, res = SourceRepo r ∧ allowed r = false) results →
  consume env s svc allowed results p w
  = (Done p, withTrace (trace w ++ (EvRecv <$> results)) w).
Proof.
  intros Hall. revert w. induction Hall as [|res results (r & -> & Hr) _ IH]; intros w.
  - simpl. rewrite app_nil_r. by destruct w.
  - cbn [consume]. unfold mbind, M_bind, emit. rewrite Hr. simpl. rewrite IH. simpl.
    by rewrite <- app_assoc.
Qed.

Lemma storeOps_app evs1 evs2 : storeOps (evs1 ++ evs2) = storeOps evs1 ++ storeOps evs2.
Proof. apply omap_app. Qed.

Lemma received_Recv l : received (EvRecv <$> l) = l.
Proof.
  induction l as [|x l IH]; [done|]. rewrite fmap_cons.
  change (received (EvRecv x :: (EvRecv <$> l))) with (x :: received (EvRecv <$> l)).
  by rewrite IH.
Qed.

Lemma received_Synced l : received (EvSynced <$> l) = [].
Proof. induction l as [|x l IH]; [done|]. by rewrite fmap_cons. Qed.

Lemma storeOps_Recv l : storeOps (EvRecv <$> l) = [].
Proof. induction l as [|x l IH]; [done|]. by rewrite fmap_cons. Qed.

Lemma storeOps_Synced l : storeOps (EvSynced <$> l) = [].
Proof. induction l as [|x l IH]; [done|]. by rewrite fmap_cons. Qed.

(** The completion of a pass without recorded errors, when no call on the
    store fails. *)
Lemma complete_healthy s svc minSyncInterval p w :
  healthy w → errs p = None →
  wp (complete s svc minSyncInterval p) w
    (λ r w', r = Done None
       ∧ repos (db w') = filter (λ r, ¬ Store.unseen svc (seen p) r) (repos (db w))
       ∧ ∃ sent svc',
           trace w' = trace w
                      ++ EvStore (OpDeleteExternalServiceReposNotIn
                                    (ExternalService.ID svc) (seen p))
                         :: (EvSynced <$> sent) ++ [EvStore (OpUpsert svc')]).
Proof.
  intros Hh Hp. unfold complete, prune, delete, deletes. rewrite Hp.
  wp_go; rewrite ?notifyDeleted_eq; unfold publish; wp_go; wsimpl; healthy_faults Hh.
  all: simplify_eq/=.
  all: split; [done|]; split; [done|].
  all: rewrite <- ?app_assoc; cbn [app].
  all: first [ by eexists [], _ | by eexists [_], _ ].
Qed.

(** X15.  For the external service of a user who may not add private
    code, a pass whose source lists private repos only, on a store that
    does not fail, applies none of them: it receives them all, opens no
    transaction, returns no error, and leaves exactly the repos that are
    not stored for this service. *)
Theorem SyncExternalService_drops_private env s id minSyncInterval w svc w1 src :
  ExternalServiceStore.GetByID id w = (Done (inr svc), w1) →
  ExternalService.CloudDefault svc = false →
  ExternalService.NamespaceUserID svc ≠ 0 →
  UserAllowedMode env (ExternalService.NamespaceUserID svc) ≠ ExternalServiceModeAll →
  Sourcer s svc = inr src →
  Forall (λ res, ∃ r, res = SourceRepo r ∧ Repo.Private r = true) (ListRepos src) →
  healthy w →
  ∃ w', SyncExternalService env s id minSyncInterval w = (Done None, w')
    ∧ repos (db w')
      = filter (λ r, ExternalService.ID svc ∉ Repo.Sources r) (repos (db w))
    ∧ received (drop (length (trace w)) (trace w')) = ListRepos src
    ∧ (OpTransact ∉ storeOps (drop (length (trace w)) (trace w'))).
Proof.
  intros Hget Hcd Huser Hmode Hsrc Hpriv Hh.
  pose proof Hget as (Hf & Hw1 & _)%GetByID_inr.
  assert (healthy w1) as Hh1 by (subst w1; by apply healthy_afterCall).
  set (allowed := λ r : Repo.t, negb (Repo.Private r)).
  set (w2 := afterCall (OpUserAllowedExternalServices (ExternalService.NamespaceUserID svc))
               (db w1) w1).
  assert (allowedFor env svc w1 = (Done (inr allowed), w2)) as Hallowed.
  { unfold allowedFor, UserAllowedExternalServices, mbind, M_bind.
    rewrite (proj2 (Z.eqb_neq _ _) Huser). simpl. rewrite call_eq, (healthy_fault _ Hh1).
    simpl. by rewrite bool_decide_eq_true_2. }
  assert (healthy w2) as Hh2 by by apply healthy_afterCall.
  set (w3 := withTrace ((trace w2 ++ [EvListRepos (ExternalService.ID svc)])
                        ++ (EvRecv <$> ListRepos src)) w2).
  assert (consume env s svc allowed (ListRepos src) passStart
            (withTrace (trace w2 ++ [EvListRepos (ExternalService.ID svc)]) w2)
          = (Done passStart, w3)) as Hloop.
  { apply consume_rejected. eapply Forall_impl; [exact Hpriv|].
    intros res (r & -> & Hr). exists r. split; [done|]. unfold allowed. by rewrite Hr. }
  rewrite (SyncExternalService_eq _ _ _ _ _ _ _ _ _ _ _ _ Hget Hcd Hallowed Hsrc Hloop).
  assert (healthy w3) as Hh3 by done.
  destruct (wp_ex _ _ _ (complete_healthy s svc minSyncInterval passStart w3 Hh3 eq_refl))
    as (r & w' & Hrun & -> & Hrepos & sent & svc' & Htr).
  exists w'. split; [done|]. split.
  { rewrite Hrepos. subst w3 w2 w1. simpl. apply list_filter_iff. intros r.
    unfold Store.unseen. simpl. set_solver. }
  assert (drop (length (trace w)) (trace w')
          = [EvStore (OpGetByID id);
             EvStore (OpUserAllowedExternalServices (ExternalService.NamespaceUserID svc));
             EvListRepos (ExternalService.ID svc)]
            ++ (EvRecv <$> ListRepos src)
            ++ [EvStore (OpDeleteExternalServiceReposNotIn (ExternalService.ID svc) ∅)]
            ++ (EvSynced <$> sent) ++ [EvStore (OpUpsert svc')]) as ->.
  { rewrite Htr. subst w3 w2 w1. simpl. rewrite <- !app_assoc. by rewrite drop_app_length. }
  split.
  - rewrite !received_app, received_Recv, received_Synced. simpl. by rewrite app_nil_r.
  - rewrite !storeOps_app, storeOps_Recv, storeOps_Synced. simpl. not_elem.
Qed.

(** *** SyncRepo: the ways that do not reach a code host *)

Lemma GetByName_eq name w :
  RepoStore.GetByName name w
  = (Done match fault w with
          | Some msg => inl (ErrStore msg)
          | None =>
              match head (filter (λ r, Repo.Name r = name) (repos (db w))) with
              | Some repo => inr repo
              | None => inl (RepoNotFoundErr name)
              end
          end,
     afterCall (OpGetByName name) (db w) w).
Proof.
  unfold RepoStore.GetByName, mbind, M_bind, mret, M_ret. rewrite call_eq.
  destruct (fault w); simpl; [done|]. by destruct (head _).
Qed.

(** X16.  When the name belongs to no recognized code host, SyncRepo only
    looks the name up: it returns the stored repo when there is one (a
    private one too), a repo-not-found error when there is none, and the
    error of the store when the lookup fails. *)
Theorem SyncRepo_unknown_host env s name background w :
  CodeHostOf env name = None →
  SyncRepo env s name background w
  = (Done match fault w with
          | Some msg => (None, Some (ErrStore msg))
          | None =>
              match head (filter (λ r, Repo.Name r = name) (repos (db w))) with
              | Some repo => (Some repo, None)
              | None => (None, Some (RepoNotFoundErr name))
              end
          end,
     afterCall (OpGetByName name) (db w) w).
Proof.
  intros Hhost. unfold SyncRepo, mbind, M_bind. rewrite GetByName_eq, Hhost.
  destruct (fault w); simpl; [done|]. by destruct (head _).
Qed.

(** X17.  When the stored repo is public and was updated less than a
    minute before the clock (or after it), SyncRepo returns it right after
    the lookup: no source is contacted and the store is left as it was. *)
Theorem SyncRepo_recently_updated env s name background w repo w1 codehost :
  RepoStore.GetByName name w = (Done (inr repo), w1) →
  CodeHostOf env name = Some codehost →
  Repo.Private repo = false →
  clock w - Repo.UpdatedAt repo < time.Minute →
  SyncRepo env s name background w = (Done (Some repo, None), w1)
  ∧ db w1 = db w
  ∧ trace w1 = trace w ++ [EvStore (OpGetByName name)].
Proof.
  intros Hget Hhost Hpub Hrecent.
  pose proof Hget as (_ & Hw1 & _)%GetByName_inr.
  split; [|by subst w1].
  unfold SyncRepo, mbind, M_bind. rewrite Hget, Hhost, Hpub. simpl.
  assert (clock w1 = clock w) as -> by by subst w1.
  assert ((time.Sub (clock w) (Repo.UpdatedAt repo) <? time.Minute) = true) as ->; [|done].
  apply Z.ltb_lt. unfold time.Sub.
  destruct (Z.ltb_spec (clock w - Repo.UpdatedAt repo) time.minDuration); [done|].
  destruct (Z.ltb_spec time.maxDuration (clock w - Repo.UpdatedAt repo)); [|done].
  unfold time.maxDuration, time.Minute, time.Second, time.Millisecond, time.Microsecond,
    time.Nanosecond in *. lia.
Qed.


(** *** What the lazy path returns *)

(** The repo a successful apply reports as added is the new row; an apply
    that found a row reports nothing as added. *)
Lemma sync_added_post env s svc sourced w :
  wp (sync env s svc sourced) w
    (λ r w', ∀ d, r = Done (d, None) →
       match matching (db w) sourced with
       | [] => Diff.Added d = [Repo.addSource (ExternalService.ID svc)
                                 (Repo.withID (next_repo_id (db w)) sourced)]
       | _ => Diff.Added d = []
       end).
Proof.
  unfold sync, syncBody, syncDeferred, syncUpdate, syncCreate, publish, matching.
  wp_go; try discriminate.
  all: simplify_eq/=; wsimpl.
  all: intros d0 Heq; simplify_eq/=.
  all: match goal with H : filter _ _ = _ |- _ => rewrite H end; done.
Qed.


Lemma syncRepoFetch_fetched env s svc getRepo name path w :
  wp (syncRepoFetch env s svc getRepo name path) w
    (λ r _, fetchedPost svc getRepo path (db w) r).
Proof.
  unfold syncRepoFetch.
  wp_go; wsimpl; try (intros ? [=]).
  eapply wp_mono; [apply sync_added_post|].
  intros [[d [e|]]|msg] w' Hadd; cbv beta iota.
  - apply wp_ret. intros ? [=].
  - apply wp_ret. intros repo [= <-]. eexists. split; [done|]. split; [done|].
    specialize (Hadd d eq_refl). simpl in Hadd.
    destruct (matching (db w) t); rewrite Hadd; done.
  - intros ? [=].
Qed.

(** X19.  When the lazy path succeeds, the repo it returns is the live
    repo as the source returned it whenever the lookup of the apply found a
    row (so it carries the ID of the source's value, not that of the row);
    it is the new row only when the apply inserted one. *)
Theorem syncRepo_returns_fetched env s codehost name stored w svc w1 src getRepo repo w' :
  ExternalServiceStore.List (servicesOptions env codehost) w = (Done (inr [svc]), w1) →
  Sourcer s svc = inr src →
  GetRepo src = Some getRepo →
  syncRepo env s codehost name stored w = (Done (Some repo, None), w') →
  ∃ live, getRepo (pathOf codehost name) = inr live
    ∧ Repo.Private live = false
    ∧ (matching (db w) live ≠ [] → repo = live)
    ∧ (matching (db w) live = [] →
       repo = Repo.addSource (ExternalService.ID svc) (Repo.withID (next_repo_id (db w)) live)).
Proof.
  intros Hlist Hsrc Hget Hrun.
  cut (fetchedPost svc getRepo (pathOf codehost name) (db w) (Done (Some repo, None))).
  { intros H. destruct (H repo eq_refl) as (live & Hlive & Hpub & ->).
    exists live. split; [done|]. split; [done|].
    destruct (matching (db w) live); split; try done. }
  pose proof Hlist as (_ & _ & Hw1)%call_inr.
  assert (db w1 = db w) as Hdb by (subst w1; done).
  revert Hrun. rewrite (syncRepo_eq _ _ _ _ _ _ _ _ _ _ Hlist Hsrc Hget).
  destruct stored as [st|].
  - intros Hrun.
    refine (wp_run _ _ (λ r _, fetchedPost svc getRepo _ (db w) r) _ _ _ Hrun).
    apply wp_defer.
    eapply wp_mono; [apply syncRepoFetch_fetched|].
    intros [[r [e|]]|msg] w2 Hpost; cbv beta iota; rewrite Hdb in Hpost.
    + unfold syncRepoDeferred. simpl.
      destruct (_ || _); rewrite ?notifyDeleted_eq; unfold publish; wp_go.
      all: unfold fetchedPost; intros ? [=].
    + unfold syncRepoDeferred. simpl. by apply wp_ret.
    + unfold syncRepoDeferred. simpl. apply wp_ret. intros ? [=].
  - intros Hrun.
    pose proof (wp_run _ _ _ _ _ (syncRepoFetch_fetched env s svc getRepo name _ w1) Hrun).
    by rewrite <- Hdb.
Qed.

(** *** The message of the quota error, and the apply once more *)

(** X20.  The message of a RepoLimitError names the namespace the owner
    label names: it is the user message exactly when the label is user,
    the organization message exactly when it is org, and the fallback
    message exactly when it is site. *)
Theorem RepoLimitError_names_owner svc siteAdded siteLimit reposCount reposLimit :
  (observeSync_owner (Some svc) = ownerUser ↔
   ∃ rest,
     RepoLimitError_Error siteAdded siteLimit reposCount reposLimit
       (ExternalService.NamespaceUserID svc) (ExternalService.NamespaceOrgID svc)
     = "reached maximum allowed user added repos: site:" +:+ rest)
  ∧ (observeSync_owner (Some svc) = ownerOrg ↔
     ∃ rest,
       RepoLimitError_Error siteAdded siteLimit reposCount reposLimit
         (ExternalService.NamespaceUserID svc) (ExternalService.NamespaceOrgID svc)
       = "reached maximum allowed organization added repos: site:" +:+ rest)
  ∧ (observeSync_owner (Some svc) = ownerSite ↔
     RepoLimitError_Error siteAdded siteLimit reposCount reposLimit
       (ExternalService.NamespaceUserID svc) (ExternalService.NamespaceOrgID svc)
     = "expected either userID or orgID to be defined").
Proof.
  unfold observeSync_owner, RepoLimitError_Error.
  destruct (0 <? ExternalService.NamespaceUserID svc);
    [|destruct (0 <? ExternalService.NamespaceOrgID svc)].
  all: split_and!; split; try intros [rest H]; try intros H; try done.
  all: try (by eexists).
  all: try (apply (f_equal (String.get 0)) in H; discriminate H).
  all: apply (f_equal (String.get 24)) in H; discriminate H.
Qed.

(** X21.  An apply that returns an error leaves the store as it was when
    the transaction was opened and sends nothing; the Diff it returns is
    empty, unless the error is that of the failed commit. *)
Theorem sync_error_rolls_back env s svc sourced w d e w' :
  sync env s svc sourced w = (Done (d, Some e), w') →
  db w' = db w
  ∧ published (drop (length (trace w)) (trace w')) = []
  ∧ ((∀ msg, e ≠ ErrStore msg) → d = Diff.zero).
Proof.
  intros Hrun.
  destruct (wp_run _ _ _ _ _ (sync_error_post env s svc sourced w) Hrun d e eq_refl)
    as (? & ? & ? & _).
  done.
Qed.

(** X22.  An apply fails with a RepoLimitError only when a new repo
    is to be inserted for an external service that is not site-owned and a
    limit is reached; the error carries the counts and the limits it
    compared, and nothing is inserted. *)
Theorem sync_quota_error_only_for_new_repos env s svc sourced w d e w' :
  sync env s svc sourced w = (Done (d, Some e), w') →
  errors.HasTypeRepoLimitError e = true →
  e = RepoLimitError
        (countNamespaced (db w) 0 0) (userReposMaxPerSite env s)
        (countNamespaced (db w) (ExternalService.NamespaceUserID svc)
                         (ExternalService.NamespaceOrgID svc))
        (userReposMaxPerUser env s)
        (ExternalService.NamespaceUserID svc) (ExternalService.NamespaceOrgID svc)
  ∧ ExternalService.IsSiteOwned svc = false
  ∧ matching (db w) sourced = []
  ∧ (userReposMaxPerSite env s ≤ countNamespaced (db w) 0 0
     ∨ userReposMaxPerUser env s
       ≤ countNamespaced (db w) (ExternalService.NamespaceUserID svc)
                         (ExternalService.NamespaceOrgID svc))
  ∧ repos (db w') = repos (db w).
Proof.
  intros Hrun Hty.
  destruct (wp_run _ _ _ _ _ (sync_error_post env s svc sourced w) Hrun d e eq_refl)
    as (Hdb & _ & _ & Hq).
  destruct (Hq Hty) as (? & ? & ? & ?). by rewrite Hdb.
Qed.

(** X23.  Once the transaction of an apply is open it is closed exactly
    once, as the last call on the store, also when the apply panics; a
    commit excludes a rollback and an error result, and an apply that
    returns without error has committed. *)
Theorem sync_closes_transaction env s svc sourced w r w' :
  fault w = None →
  sync env s svc sourced w = (r, w') →
  ∃ evs mid,
    trace w' = trace w ++ evs
    ∧ storeOps evs = OpTransact :: mid ++ [OpDone]
    ∧ (OpTransact ∉ mid) ∧ (OpDone ∉ mid)
    ∧ (EvCommit ∈ evs → (EvRollback ∉ evs) ∧ ∀ d e, r ≠ Done (d, Some e))
    ∧ (∀ d, r = Done (d, None) → EvCommit ∈ evs).
Proof.
  intros Hf Hrun.
  destruct (wp_run _ _ _ _ _ (sync_ops_post env s svc sourced w) Hrun) as (evs & Htr & Hops).
  rewrite Hf in Hops. destruct Hops as (mid & ?). by exists evs, mid.
Qed.

(** X24.  After a successful apply (on a store with unique IDs) the
    store holds a row with the ID of the repo of the Diff and with the
    name, the external repo spec and the privacy the source observed; it
    lists every source of the sourced repo, and the external service of
    the apply unless the repo is Unmodified. *)
Theorem sync_stores_sourced_repo env s svc sourced w d w' :
  NoDup (Repo.ID <$> repos (db w)) →
  sync env s svc sourced w = (Done (d, None), w') →
  ∃ row, row ∈ repos (db w')
    ∧ Repo.ID <$> Diff.Repos d = [Repo.ID row]
    ∧ Repo.Name row = Repo.Name sourced
    ∧ Repo.ExternalRepo row = Repo.ExternalRepo sourced
    ∧ Repo.Private row = Repo.Private sourced
    ∧ Repo.Sources sourced ⊆ Repo.Sources row
    ∧ (Diff.Unmodified d = [] → ExternalService.ID svc ∈ Repo.Sources row).
Proof.
  intros Hnd Hrun.
  destruct (wp_run _ _ _ _ _ (sync_stored_post env s svc sourced w) Hrun) as [_ Hst].
  destruct (Hst d eq_refl Hnd) as (row & x & HR & Hin & Hid & (? & ? & ? & ?) & ?).
  exists row. rewrite HR. simpl. rewrite Hid. done.
Qed.

(** *** The rows a pass leaves *)

Lemma complete_rows s svc minSyncInterval p w :
  wp (complete s svc minSyncInterval p) w (λ _ w', repos (db w') ⊆ repos (db w)).
Proof.
  unfold complete, prune, delete.
  wp_go; rewrite ?notifyDeleted_eq; unfold publish; wp_go; wsimpl.
  all: try done.
  all: intros r [_ Hr]%list_elem_of_filter; done.
Qed.

Lemma SyncExternalService_rows_post env s id minSyncInterval w :
  wp (SyncExternalService env s id minSyncInterval) w
    (λ _ w', ∀ r, r ∈ repos (db w') →
       r ∈ repos (db w)
       ∨ ∃ svc, svc ∈ external_services (db w) ∧ ExternalService.ID svc = id
                ∧ id ∈ Repo.Sources r).
Proof.
  unfold SyncExternalService, allowedFor.
  wp_go; wsimpl; auto.
  all: match goal with
       | H : match head (filter _ _) with _ => _ end = inr ?t |- _ =>
           assert (t ∈ external_services (db w) ∧ ExternalService.ID t = id) as [Hin Hid];
           [destruct (head _) eqn:Hhd; simplify_eq;
            apply head_Some_elem_of, list_elem_of_filter in Hhd; tauto|]
       end.
  all: eapply wp_mono; [apply (consume_rows env s _ _ _ passStart _ (db w));
                        apply rowsFrom_refl|].
  all: intros [p|msg] w1 Hrows; cbv beta iota.
  all: try (intros r Hr; destruct (Hrows r Hr) as [?|?]; [by left|right; eexists; subst id; eauto]).
  all: eapply wp_mono; [apply complete_rows|].
  all: intros r0 w2 Hsub r Hr; apply Hsub in Hr.
  all: destruct (Hrows r Hr) as [?|?]; [by left|right; eexists; subst id; eauto].
Qed.

(** X25.  Whatever its outcome, a pass leaves only rows that were stored
    before it, as they were, or rows stored for its external service. *)
Theorem SyncExternalService_rows env s id minSyncInterval w r w' :
  SyncExternalService env s id minSyncInterval w = (r, w') →
  ∀ row, row ∈ repos (db w') → row ∈ repos (db w) ∨ id ∈ Repo.Sources row.
Proof.
  intros Hrun row Hrow.
  destruct (wp_run _ _ _ _ _ (SyncExternalService_rows_post env s id minSyncInterval w)
              Hrun row Hrow) as [?|(? & ? & ? & ?)]; auto.
Qed.

(** *** The store mirrors the source *)

Lemma pickConflict_elem sourced a b conflicting existing :
  pickConflict sourced [a; b] = (Some conflicting, existing) →
  conflicting = a ∨ conflicting = b.
Proof.
  unfold pickConflict. simpl.
  destruct (ExternalRepoSpec.Equal (Repo.ExternalRepo a) _),
    (ExternalRepoSpec.Equal (Repo.ExternalRepo b) _); intros [= <- <-]; auto.
Qed.

(** An apply leaves the rows that match the sourced repo neither by name
    nor by external repo spec as they are. *)
Lemma sync_frame_post env s svc sourced w :
  wp (sync env s svc sourced) w
    (λ _ w', NoDup (Repo.ID <$> repos (db w)) →
       ∀ row, row ∈ repos (db w) →
         Repo.Name row ≠ Repo.Name sourced →
         Repo.ExternalRepo row ≠ Repo.ExternalRepo sourced →
         row ∈ repos (db w')).
Proof.
  unfold sync, syncBody, syncDeferred, syncUpdate, syncCreate, publish.
  wp_go; try discriminate.
  all: simplify_eq/=; wsimpl.
  all: intros Hnd row Hrow Hname Hspec; try done.
  all: try (apply elem_of_app; by left).
  all: assert (¬ RepoStore.selects (lookupOptions sourced) row) as Hsel
         by (rewrite selects_lookup; tauto).
  all: try match goal with
       | Hm : filter _ _ = [_; _], Hp : pickConflict _ _ = _ |- _ =>
           pose proof (filter_pair_elem _ _ _ _ Hm) as [[Hsa Hina] [Hsb Hinb]];
           apply pickConflict_pair in Hp as [[[-> ->]|[-> ->]] _]
       end.
  all: try match goal with
       | Hm : filter ?P ?l = [?st] |- _ =>
           assert (st ∈ filter P l) as [Hst Hinst]%list_elem_of_filter
             by (rewrite Hm; apply list_elem_of_here)
       end.
  all: repeat match goal with
       | Hup : Repo.Update _ _ = _ |- _ => apply Update_ID in Hup
       end.
  all: try (apply list_elem_of_filter; split; [|done]; intros Heq;
            match goal with
            | Hc : ?c ∈ ?l, Hd : NoDup (Repo.ID <$> ?l), He : Repo.ID ?r = Repo.ID ?c |- _ =>
                assert (r = c) by (by apply (NoDup_fmap_eq Repo.ID l));
                subst; tauto
            end).
  all: try match goal with
       | Hrow : ?row ∈ ?l, Hd : NoDup (Repo.ID <$> ?l), Hsel : ¬ _ |- ?row ∈ _ <$> _ =>
           apply list_elem_of_fmap; exists row; split;
           [rewrite bool_decide_eq_false_2; [done|]; intros Heq;
            match goal with
            | Hid : Repo.ID ?u = Repo.ID ?st, Hin : ?st ∈ l |- _ =>
                assert (row = st)
                  by (apply (NoDup_fmap_eq Repo.ID l); [done..|congruence]);
                subst; tauto
            end
           |first [done
                  |apply list_elem_of_filter; split; [|done]; intros Heq;
                   match goal with
                   | Hc : ?c ∈ l, He : Repo.ID row = Repo.ID ?c |- _ =>
                       assert (row = c) by (by apply (NoDup_fmap_eq Repo.ID l));
                       subst; tauto
                   end]]
       end.
  all: match goal with
       | Hm : filter _ ?l = [?a; ?b], Hp : pickConflict _ _ = _, Hrow : ?row ∈ ?l |- _ =>
           pose proof (filter_pair_elem _ _ _ _ Hm) as [[Hsa Hina] [Hsb Hinb]];
           apply pickConflict_elem in Hp as [->| ->];
           apply list_elem_of_filter; (split; [|done]); intros Heq;
           [assert (row = a) by (by apply (NoDup_fmap_eq Repo.ID l))
           |assert (row = b) by (by apply (NoDup_fmap_eq Repo.ID l))];
           subst; tauto
       end.
Qed.

(** X26.  An apply leaves every row that matches the sourced repo
    neither by name nor by external repo spec as it is (on a store with
    unique IDs), whatever its outcome. *)
Theorem sync_leaves_other_rows env s svc sourced w r w' row :
  NoDup (Repo.ID <$> repos (db w)) →
  sync env s svc sourced w = (r, w') →
  row ∈ repos (db w) →
  Repo.Name row ≠ Repo.Name sourced →
  Repo.ExternalRepo row ≠ Repo.ExternalRepo sourced →
  row ∈ repos (db w').
Proof.
  intros Hnd Hrun Hrow Hname Hspec.
  exact (wp_run _ _ _ _ _ (sync_frame_post env s svc sourced w) Hrun Hnd row Hrow Hname Hspec).
Qed.

(** One turn of the loop, on a repo that is allowed. *)
Lemma consume_cons_repo env s svc allowed x rest p w :
  allowed x = true →
  consume env s svc allowed (SourceRepo x :: rest) p w
  = match sync env s svc x (withTrace (trace w ++ [EvRecv (SourceRepo x)]) w) with
    | (Done (d, Some e), w2) =>
        if errors.HasTypeRepoLimitError e
        then (Done (mkPass (modified p) (seen p) (errors.Append (errs p) e)), w2)
        else consume env s svc allowed rest
               (mkPass (modified p) (seen p) (errors.Append (errs p) e)) w2
    | (Done (d, None), w2) =>
        consume env s svc allowed rest
          (mkPass (modified p
                   || bool_decide (0 < length (Diff.Modified d) + length (Diff.Added d))%nat)
                  (foldl (λ seen r, {[Repo.ID r]} ∪ seen) (seen p) (Diff.Repos d))
                  (errs p)) w2
    | (Panicked msg, w2) => (Panicked msg, w2)
    end.
Proof.
  intros Hx. cbn [consume]. unfold mbind, M_bind, emit. rewrite Hx. cbn [negb].
  destruct (sync _ _ _ _ _) as [[[d [e|]]|msg] w2]; try reflexivity.
  by destruct (errors.HasTypeRepoLimitError e).
Qed.

(** What a loop over sourced repos of pairwise distinct names and external
    repo specs leaves when it ends without error: every sourced repo has
    its row, the seen IDs are the IDs of these rows, and the rows that
    match no sourced repo are as they were. *)
Lemma consume_mirrors env s svc allowed :
  ∀ xs p w p' w',
    constrained w → healthy w →
    Forall (λ x, allowed x = true) xs →
    NoDup (Repo.Name <$> xs) → NoDup (Repo.ExternalRepo <$> xs) →
    consume env s svc allowed (SourceRepo <$> xs) p w = (Done p', w') →
    errs p' = None →
    constrained w' ∧ healthy w' ∧ errs p = None
    ∧ (∀ x, x ∈ xs → ∃ row, row ∈ repos (db w') ∧ rowOf x row ∧ Repo.ID row ∈ seen p')
    ∧ (∀ i, i ∈ seen p' →
         i ∈ seen p ∨ ∃ x row, x ∈ xs ∧ row ∈ repos (db w') ∧ rowOf x row ∧ Repo.ID row = i)
    ∧ seen p ⊆ seen p'
    ∧ (∀ row, row ∈ repos (db w) →
         (∀ x, x ∈ xs → Repo.Name row ≠ Repo.Name x
                        ∧ Repo.ExternalRepo row ≠ Repo.ExternalRepo x) →
         row ∈ repos (db w')).
Proof.
  induction xs as [|x xs IH]; intros p w p' w' Hc Hh Hall Hnames Hspecs Hrun Hnone.
  { simpl in Hrun. injection Hrun as <- <-. split_and!; try done.
    - intros x Hx. by apply elem_of_nil in Hx.
    - auto. }
  rewrite fmap_cons in Hrun.
  apply Forall_cons in Hall as [Hx Hall]. rewrite (consume_cons_repo _ _ _ _ _ _ _ _ Hx) in Hrun.
  rewrite fmap_cons in Hnames. rewrite fmap_cons in Hspecs.
  apply NoDup_cons in Hnames as [Hname Hnames]. apply NoDup_cons in Hspecs as [Hspec Hspecs].
  set (w1 := withTrace (trace w ++ [EvRecv (SourceRepo x)]) w) in *.
  assert (constrained w1) as Hc1 by done. assert (healthy w1) as Hh1 by done.
  destruct (sync env s svc x w1) as [[[d [e|]]|msg] w2] eqn:Hsync; [| |done].
  - (* the apply failed *)
    exfalso.
    destruct Hc1 as [Hu1 Hf1].
    pose proof (wp_run _ _ _ _ _ (sync_invariant_post env s svc x w1) Hsync Hu1 Hf1)
      as [Hu2 Hf2].
    pose proof (wp_run _ _ _ _ _ (sync_stored_post env s svc x w1) Hsync) as [Hh2 _].
    destruct (errors.HasTypeRepoLimitError e).
    + injection Hrun as <- <-. cbn [errs] in Hnone. by destruct (Append_Some (errs p) e).
    + destruct (IH _ _ _ _ (conj Hu2 Hf2) (Hh2 Hh1) Hall Hnames Hspecs Hrun Hnone)
        as (_ & _ & Hp & _).
      cbn [errs] in Hp. by destruct (Append_Some (errs p) e).
  - (* the apply succeeded *)
    destruct Hc1 as [Hu1 Hf1].
    pose proof (wp_run _ _ _ _ _ (sync_invariant_post env s svc x w1) Hsync Hu1 Hf1)
      as [Hu2 Hf2].
    pose proof (wp_run _ _ _ _ _ (sync_stored_post env s svc x w1) Hsync) as [Hh2 Hst].
    pose proof (wp_run _ _ _ _ _ (sync_frame_post env s svc x w1) Hsync (proj1 Hu1))
      as Hframe.
    destruct (Hst d eq_refl (proj1 Hu1)) as (row0 & x0 & HR & Hin0 & Hid0 & Hrow0 & _).
    rewrite HR in Hrun. cbn [foldl] in Hrun.
    destruct (IH _ _ _ _ (conj Hu2 Hf2) (Hh2 Hh1) Hall Hnames Hspecs Hrun Hnone)
      as (Hc' & Hh' & Hp & Hrows & Hseen & Hsub & Hkeep).
    cbn [errs seen] in Hp, Hseen, Hsub.
    assert (row0 ∈ repos (db w')) as Hin0'.
    { apply Hkeep; [done|]. intros x' Hx'. destruct Hrow0 as (Hn & Hs & _).
      rewrite Hn, Hs. split; intros Heq.
      - apply Hname. rewrite Heq. by apply list_elem_of_fmap_2.
      - apply Hspec. rewrite Heq. by apply list_elem_of_fmap_2. }
    split; [done|]. split; [done|]. split; [done|]. split_and!.
    + intros x' [->|Hx']%elem_of_cons; [|by apply Hrows].
      exists row0. split; [done|]. split; [done|]. apply Hsub, elem_of_union. left.
      apply elem_of_singleton. by rewrite Hid0.
    + intros i Hi. destruct (Hseen i Hi) as [Hi'|(x' & row' & Hx' & ?)].
      * apply elem_of_union in Hi' as [->%elem_of_singleton|Hi']; [|by left].
        right. exists x, row0. split; [apply list_elem_of_here|]. done.
      * right. exists x', row'. split; [by apply list_elem_of_further|done].
    + intros i Hi. apply Hsub, elem_of_union. by right.
    + intros row Hrow Hno. apply Hkeep.
      * destruct (Hno x (list_elem_of_here _ _)) as [? ?]. by apply Hframe.
      * intros x' Hx'. apply Hno. by apply list_elem_of_further.
Qed.

Lemma sync_healthy env s svc sourced w :
  healthy w → wp (sync env s svc sourced) w (λ _ w', healthy w').
Proof.
  intros Hh. eapply wp_mono; [apply sync_stored_post|]. intros r w' [H _]. by apply H.
Qed.

Lemma allowedFor_healthy env svc w :
  healthy w → wp (allowedFor env svc) w (λ _ w', healthy w' ∧ db w' = db w).
Proof.
  intros Hh. unfold allowedFor. wp_go; wsimpl; split; try done; by apply healthy_afterCall.
Qed.

(** X27.  The store mirrors the source.  After a pass that returns no
    error, on a store that keeps its uniqueness constraints and does not
    fail, for a source that lists allowed repos of pairwise distinct names
    and external repo specs: every listed repo has a row with its name,
    spec, privacy and sources; every row stored for the external service
    is the row of a listed repo; and the uniqueness constraints hold. *)
Theorem SyncExternalService_mirrors_source env s id minSyncInterval w svc w1 allowed w2 src
    xs w' :
  unique (db w) → fresh (db w) → healthy w →
  ExternalServiceStore.GetByID id w = (Done (inr svc), w1) →
  ExternalService.CloudDefault svc = false →
  allowedFor env svc w1 = (Done (inr allowed), w2) →
  Sourcer s svc = inr src →
  ListRepos src = SourceRepo <$> xs →
  Forall (λ x, allowed x = true) xs →
  NoDup (Repo.Name <$> xs) → NoDup (Repo.ExternalRepo <$> xs) →
  SyncExternalService env s id minSyncInterval w = (Done None, w') →
  (∀ x, x ∈ xs →
     ∃ row, row ∈ repos (db w')
       ∧ Repo.Name row = Repo.Name x ∧ Repo.ExternalRepo row = Repo.ExternalRepo x
       ∧ Repo.Private row = Repo.Private x ∧ Repo.Sources x ⊆ Repo.Sources row)
  ∧ (∀ row, row ∈ repos (db w') → ExternalService.ID svc ∈ Repo.Sources row →
       ∃ x, x ∈ xs
         ∧ Repo.Name row = Repo.Name x ∧ Repo.ExternalRepo row = Repo.ExternalRepo x
         ∧ Repo.Private row = Repo.Private x)
  ∧ unique (db w').
Proof.
  intros Hu Hf Hh Hget Hcd Hallowed Hsrc Hlist Hall Hnames Hspecs Hrun.
  pose proof Hget as (_ & Hw1 & _)%GetByID_inr.
  assert (healthy w1 ∧ db w1 = db w) as [Hh1 Hdb1]
    by (subst w1; split; [by apply healthy_afterCall|done]).
  destruct (wp_run _ _ _ _ _ (allowedFor_healthy env svc w1 Hh1) Hallowed) as [Hh2 Hdb2].
  set (w2' := withTrace (trace w2 ++ [EvListRepos (ExternalService.ID svc)]) w2).
  assert (constrained w2') as Hc2 by (unfold constrained, w2'; simpl; by rewrite Hdb2, Hdb1).
  assert (healthy w2') as Hh2' by done.
  destruct (consume env s svc allowed (ListRepos src) passStart w2') as [[p|msg] w3] eqn:Hloop.
  2:{ revert Hrun. unfold SyncExternalService, mbind, M_bind.
      rewrite Hget, Hcd, Hallowed, Hsrc. simpl. fold w2'. by rewrite Hloop. }
  rewrite (SyncExternalService_eq _ _ _ _ _ _ _ _ _ _ _ _ Hget Hcd Hallowed Hsrc Hloop) in Hrun.
  assert (healthy w3) as Hh3.
  { refine (wp_run _ _ _ _ _ (consume_keeps healthy env s svc allowed _ _ _ passStart w2' Hh2')
              Hloop); [intros; by apply sync_healthy|done]. }
  assert (errs p = None) as Hp.
  { destruct (wp_run _ _ _ _ _ (complete_post s svc minSyncInterval p w3) Hrun)
      as (err & evs & deleted & errs' & [= <-] & _ & Hdel & Hok).
    destruct (Hok Hh3) as [<- _]. rewrite (healthy_fault _ Hh3) in Hdel.
    destruct (deletes svc (errs p)); naive_solver. }
  rewrite Hlist in Hloop.
  destruct (consume_mirrors _ _ _ _ _ _ _ _ _ Hc2 Hh2' Hall Hnames Hspecs Hloop Hp)
    as ([Hu3 Hf3] & _ & _ & Hrows & Hseen & _ & _).
  destruct (wp_run _ _ _ _ _ (complete_healthy s svc minSyncInterval p w3 Hh3 Hp) Hrun)
    as (_ & Hrepos & _).
  split_and!.
  - intros x Hx. destruct (Hrows x Hx) as (row & Hin & (? & ? & ? & ?) & Hid).
    exists row. split; [|done]. rewrite Hrepos. apply list_elem_of_filter. split; [|done].
    unfold Store.unseen. tauto.
  - intros row Hin Hsvc. rewrite Hrepos in Hin. apply list_elem_of_filter in Hin as [Hs Hin].
    assert (Repo.ID row ∈ seen p) as Hid.
    { destruct (decide (Repo.ID row ∈ seen p)); [done|]. destruct Hs. by split. }
    destruct (Hseen _ Hid) as [Hemp|(x & row' & Hx & Hin' & (? & ? & ? & ?) & Heq)].
    { by apply elem_of_empty in Hemp. }
    assert (row' = row) as -> by (by apply (NoDup_fmap_eq Repo.ID (repos (db w3))); [apply Hu3|..]).
    by exists x.
  - destruct Hu3 as (? & ? & ?). unfold unique. rewrite Hrepos.
    split_and!; by apply NoDup_fmap_filter.
Qed.

(* ===================================================================== *)
(** ** The further properties on the example store *)
(* ===================================================================== *)

Lemma calcSyncInterval_error_not_sooner_witness :
  time.Minute ≤ maxSyncInterval
  ∧ calcSyncInterval (Example.now + time.Hour) Example.now time.Minute true None
    ≤ calcSyncInterval (Example.now + time.Hour) Example.now time.Minute true
        (Some (ErrHost "rate limit")).
Proof.
  assert (time.Minute ≤ maxSyncInterval) as H by (vm_compute; discriminate).
  split; [exact H|].
  exact (calcSyncInterval_error_not_sooner (Example.now + time.Hour) Example.now
           time.Minute true (ErrHost "rate limit") H).
Defined.

Lemma sync_error_rolls_back_witness :
  sync Example.env (Example.syncer []) Example.userService Example.newB Example.failing
    = (Done (Diff.zero,
             Some (Wrap (ErrStore "connection lost") "syncer: getting repo from the database")),
       (sync Example.env (Example.syncer []) Example.userService Example.newB
          Example.failing).2)
  ∧ db (sync Example.env (Example.syncer []) Example.userService Example.newB
          Example.failing).2 = Example.store.
Proof.
  assert (sync Example.env (Example.syncer []) Example.userService Example.newB
            Example.failing
          = (Done (Diff.zero,
                   Some (Wrap (ErrStore "connection lost")
                           "syncer: getting repo from the database")),
             (sync Example.env (Example.syncer []) Example.userService Example.newB
                Example.failing).2)) as H by (vm_compute; reflexivity).
  split; [exact H|].
  exact (proj1 (sync_error_rolls_back _ _ _ _ _ _ _ _ H)).
Defined.

Lemma sync_quota_error_only_for_new_repos_witness :
  sync Example.env (Example.limited []) Example.userService Example.newB Example.world
    = (Done (Diff.zero, Some (RepoLimitError 3 200000 3 3 7 0)),
       (sync Example.env (Example.limited []) Example.userService Example.newB
          Example.world).2)
  ∧ errors.HasTypeRepoLimitError (RepoLimitError 3 200000 3 3 7 0) = true
  ∧ ExternalService.IsSiteOwned Example.userService = false
  ∧ matching Example.store Example.newB = [].
Proof.
  assert (sync Example.env (Example.limited []) Example.userService Example.newB
            Example.world
          = (Done (Diff.zero, Some (RepoLimitError 3 200000 3 3 7 0)),
             (sync Example.env (Example.limited []) Example.userService Example.newB
                Example.world).2)) as H by (vm_compute; reflexivity).
  assert (errors.HasTypeRepoLimitError (RepoLimitError 3 200000 3 3 7 0) = true) as Hty
    by reflexivity.
  split; [exact H|]. split; [exact Hty|].
  destruct (sync_quota_error_only_for_new_repos _ _ _ _ _ _ _ _ H Hty)
    as (_ & Hsite & Hm & _).
  split; [exact Hsite|exact Hm].
Defined.

Lemma sync_closes_transaction_witness :
  fault Example.world = None
  ∧ sync Example.env (Example.syncer []) Example.userService Example.newB Example.world
    = (Done (Diff.mk [Example.storedB] [] [] [], None), Example.addB.2)
  ∧ ∃ evs mid,
      trace Example.addB.2 = trace Example.world ++ evs
      ∧ storeOps evs = OpTransact :: mid ++ [OpDone]
      ∧ (OpDone ∉ mid)
      ∧ EvCommit ∈ evs.
Proof.
  assert (fault Example.world = None) as Hf by reflexivity.
  assert (sync Example.env (Example.syncer []) Example.userService Example.newB
            Example.world
          = (Done (Diff.mk [Example.storedB] [] [] [], None), Example.addB.2)) as H
    by (vm_compute; reflexivity).
  split; [exact Hf|]. split; [exact H|].
  destruct (sync_closes_transaction _ _ _ _ _ _ _ Hf H)
    as (evs & mid & Htr & Hops & _ & Hdone & _ & Hcommit).
  exists evs, mid. split; [exact Htr|]. split; [exact Hops|]. split; [exact Hdone|].
  exact (Hcommit _ eq_refl).
Defined.

Lemma sync_stores_sourced_repo_witness :
  NoDup (Repo.ID <$> repos Example.store)
  ∧ sync Example.env (Example.syncer []) Example.userService Example.renamed Example.world
    = (Done (Diff.mk [] [] [Example.renamedC] [], None), Example.renameC.2)
  ∧ ∃ row, row ∈ repos (db Example.renameC.2)
      ∧ Repo.ID row = 2
      ∧ Repo.Name row = "github.com/o/d".
Proof.
  assert (NoDup (Repo.ID <$> repos (db Example.world))) as Hnd
    by (apply (bool_decide_unpack _); vm_compute; exact I).
  assert (sync Example.env (Example.syncer []) Example.userService Example.renamed
            Example.world
          = (Done (Diff.mk [] [] [Example.renamedC] [], None), Example.renameC.2)) as H
    by (vm_compute; reflexivity).
  split; [exact Hnd|]. split; [exact H|].
  destruct (sync_stores_sourced_repo _ _ _ _ _ _ _ Hnd H) as (row & Hin & Hid & Hname & _).
  exists row. split; [exact Hin|]. split; [|exact Hname].
  injection Hid as Hid. symmetry. exact Hid.
Defined.

Lemma sync_keeps_constraints_witness :
  unique Example.store ∧ fresh Example.store
  ∧ sync Example.env (Example.syncer []) Example.userService Example.renamed Example.world
    = (Done (Diff.mk [] [] [Example.renamedC] [], None), Example.renameC.2)
  ∧ unique (db Example.renameC.2) ∧ fresh (db Example.renameC.2).
Proof.
  assert (unique (db Example.world)) as Hu.
  { unfold unique. simpl. split; [|split]; apply (bool_decide_unpack _); vm_compute; exact I. }
  assert (fresh (db Example.world)) as Hf
    by (apply (bool_decide_unpack _); vm_compute; exact I).
  assert (sync Example.env (Example.syncer []) Example.userService Example.renamed
            Example.world
          = (Done (Diff.mk [] [] [Example.renamedC] [], None), Example.renameC.2)) as H
    by (vm_compute; reflexivity).
  split; [exact Hu|]. split; [exact Hf|]. split; [exact H|].
  exact (sync_keeps_constraints _ _ _ _ _ _ _ Hu Hf H).
Defined.

Lemma sync_again_unmodified_witness :
  unique Example.store ∧ fresh Example.store ∧ healthy Example.world
  ∧ sync Example.env (Example.syncer []) Example.userService Example.newB Example.world
    = (Done (Diff.mk [Example.storedB] [] [] [], None), Example.addB.2)
  ∧ ∃ row w'',
      sync Example.env (Example.syncer []) Example.userService Example.newB Example.addB.2
      = (Done (Diff.mk [] [] [] [row], None), w'')
      ∧ Repo.ID row = 5
      ∧ db w'' = db Example.addB.2.
Proof.
  assert (unique (db Example.world)) as Hu.
  { unfold unique. simpl. split; [|split]; apply (bool_decide_unpack _); vm_compute; exact I. }
  assert (fresh (db Example.world)) as Hf
    by (apply (bool_decide_unpack _); vm_compute; exact I).
  assert (healthy Example.world) as Hh by constructor.
  assert (sync Example.env (Example.syncer []) Example.userService Example.newB
            Example.world
          = (Done (Diff.mk [Example.storedB] [] [] [], None), Example.addB.2)) as H
    by (vm_compute; reflexivity).
  split; [exact Hu|]. split; [exact Hf|]. split; [exact Hh|]. split; [exact H|].
  destruct (sync_again_unmodified _ _ _ _ _ _ _ Hu Hf Hh H)
    as (row & w'' & Hrun & _ & Hid & Hdb & _).
  exists row, w''. split; [exact Hrun|]. split; [|exact Hdb].
  injection Hid as Hid. symmetry. exact Hid.
Defined.

Lemma consume_in_order_witness :
  consume Example.env (Example.syncer Example.unauthorized) Example.userService
    Example.publicOnly Example.unauthorized passStart Example.world
  = (Done (mkPass false ∅
             (Some (Wrap ErrUnauthorized "fetching from code host user github"))),
     (consume Example.env (Example.syncer Example.unauthorized) Example.userService
        Example.publicOnly Example.unauthorized passStart Example.world).2)
  ∧ ∃ evs,
      received evs `prefix_of` Example.unauthorized
      ∧ (received evs ≠ Example.unauthorized →
         ∃ e, Some (Wrap ErrUnauthorized "fetching from code host user github") = Some e
              ∧ (fatal e = true ∨ errors.HasTypeRepoLimitError e = true)).
Proof.
  assert (consume Example.env (Example.syncer Example.unauthorized) Example.userService
            Example.publicOnly Example.unauthorized passStart Example.world
          = (Done (mkPass false ∅
                     (Some (Wrap ErrUnauthorized "fetching from code host user github"))),
             (consume Example.env (Example.syncer Example.unauthorized)
                Example.userService Example.publicOnly Example.unauthorized passStart
                Example.world).2)) as H by (vm_compute; reflexivity).
  split; [exact H|].
  destruct (consume_in_order _ _ _ _ _ _ _ _ _ H) as (evs & _ & Hpre & _ & Hstop).
  exists evs. split; [exact Hpre|exact Hstop].
Defined.

Lemma SyncExternalService_unlisted_witness :
  SyncExternalService Example.env (Example.syncer []) 99 time.Minute Example.world
  = (Done (Some (Wrap (ErrStore "external service not found") "fetching external services")),
     (SyncExternalService Example.env (Example.syncer []) 99 time.Minute Example.world).2)
  ∧ ∃ evs,
      trace (SyncExternalService Example.env (Example.syncer []) 99 time.Minute
               Example.world).2 = trace Example.world ++ evs
      ∧ ((∀ svc, EvListRepos svc ∉ evs) →
         db (SyncExternalService Example.env (Example.syncer []) 99 time.Minute
               Example.world).2 = Example.store
         ∧ ∀ svc, OpUpsert svc ∉ storeOps evs).
Proof.
  assert (SyncExternalService Example.env (Example.syncer []) 99 time.Minute Example.world
          = (Done (Some (Wrap (ErrStore "external service not found")
                           "fetching external services")),
             (SyncExternalService Example.env (Example.syncer []) 99 time.Minute
                Example.world).2)) as H by (vm_compute; reflexivity).
  split; [exact H|].
  destruct (SyncExternalService_unlisted _ _ _ _ _ _ _ H) as (evs & Htr & Hun).
  exists evs. split; [exact Htr|]. intros Hnot.
  destruct (Hun Hnot) as (_ & Hdb & _ & Hup & _). split; [exact Hdb|exact Hup].
Defined.

Lemma SyncExternalService_drops_private_witness :
  ExternalServiceStore.GetByID 10 Example.world
    = (Done (inr Example.userService), (ExternalServiceStore.GetByID 10 Example.world).2)
  ∧ ExternalService.CloudDefault Example.userService = false
  ∧ ExternalService.NamespaceUserID Example.userService ≠ 0
  ∧ UserAllowedMode Example.env (ExternalService.NamespaceUserID Example.userService)
    ≠ ExternalServiceModeAll
  ∧ Sourcer (Example.syncer [SourceRepo Example.privateB]) Example.userService
    = inr (Example.sourceOf [SourceRepo Example.privateB])
  ∧ Forall (λ res, ∃ r, res = SourceRepo r ∧ Repo.Private r = true)
      (ListRepos (Example.sourceOf [SourceRepo Example.privateB]))
  ∧ healthy Example.world
  ∧ ∃ w', SyncExternalService Example.env (Example.syncer [SourceRepo Example.privateB])
            10 time.Minute Example.world = (Done None, w')
          ∧ repos (db w') = [Example.repoP].
Proof.
  assert (ExternalServiceStore.GetByID 10 Example.world
          = (Done (inr Example.userService),
             (ExternalServiceStore.GetByID 10 Example.world).2)) as H1
    by (vm_compute; reflexivity).
  assert (ExternalService.CloudDefault Example.userService = false) as H2 by reflexivity.
  assert (ExternalService.NamespaceUserID Example.userService ≠ 0) as H3
    by (vm_compute; discriminate).
  assert (UserAllowedMode Example.env (ExternalService.NamespaceUserID Example.userService)
          ≠ ExternalServiceModeAll) as H4 by (vm_compute; discriminate).
  assert (Sourcer (Example.syncer [SourceRepo Example.privateB]) Example.userService
          = inr (Example.sourceOf [SourceRepo Example.privateB])) as H5 by reflexivity.
  assert (Forall (λ res, ∃ r, res = SourceRepo r ∧ Repo.Private r = true)
            (ListRepos (Example.sourceOf [SourceRepo Example.privateB]))) as H6.
  { apply Forall_cons. split; [|apply Forall_nil_2].
    exists Example.privateB. split; reflexivity. }
  assert (healthy Example.world) as H7 by constructor.
  split; [exact H1|]. split; [exact H2|]. split; [exact H3|]. split; [exact H4|].
  split; [exact H5|]. split; [exact H6|]. split; [exact H7|].
  destruct (SyncExternalService_drops_private Example.env
              (Example.syncer [SourceRepo Example.privateB]) 10 time.Minute
              _ _ _ _ H1 H2 H3 H4 H5 H6 H7) as (w' & Hrun & Hrepos & _).
  exists w'. split; [exact Hrun|]. rewrite Hrepos. vm_compute. reflexivity.
Defined.

Lemma SyncExternalService_rows_witness :
  SyncExternalService Example.env (Example.syncer Example.unauthorized) 10 time.Minute
    Example.world
  = (Done (Some (Wrap ErrUnauthorized "fetching from code host user github")),
     Example.passUnauthorized.2)
  ∧ ∀ row, row ∈ repos (db Example.passUnauthorized.2) →
           row ∈ repos Example.store ∨ 10 ∈ Repo.Sources row.
Proof.
  assert (SyncExternalService Example.env (Example.syncer Example.unauthorized) 10
            time.Minute Example.world
          = (Done (Some (Wrap ErrUnauthorized "fetching from code host user github")),
             Example.passUnauthorized.2)) as H by (vm_compute; reflexivity).
  split; [exact H|].
  exact (SyncExternalService_rows _ _ _ _ _ _ _ H).
Defined.

Lemma Syncer_keeps_constraints_witness :
  unique Example.store ∧ fresh Example.store
  ∧ unique (db Example.passUnauthorized.2) ∧ fresh (db Example.passUnauthorized.2).
Proof.
  assert (unique (db Example.world)) as Hu.
  { unfold unique. simpl. split; [|split]; apply (bool_decide_unpack _); vm_compute; exact I. }
  assert (fresh (db Example.world)) as Hf
    by (apply (bool_decide_unpack _); vm_compute; exact I).
  split; [exact Hu|]. split; [exact Hf|].
  refine (proj1 (Syncer_keeps_constraints Example.env (Example.syncer Example.unauthorized)
                   Example.world Hu Hf)
            10 time.Minute Example.passUnauthorized.1 Example.passUnauthorized.2 _).
  unfold Example.passUnauthorized.
  destruct (SyncExternalService _ _ _ _ _); reflexivity.
Defined.

Lemma Syncer_sends_nothing_without_channel_witness :
  Synced (Example.quiet [SourceRepo Example.newB]) = false
  ∧ SyncExternalService Example.env (Example.quiet [SourceRepo Example.newB]) 10
      time.Minute Example.world
    = (Done None,
       (SyncExternalService Example.env (Example.quiet [SourceRepo Example.newB]) 10
          time.Minute Example.world).2)
  ∧ published (trace (SyncExternalService Example.env
                        (Example.quiet [SourceRepo Example.newB]) 10 time.Minute
                        Example.world).2) = [].
Proof.
  assert (Synced (Example.quiet [SourceRepo Example.newB]) = false) as Hs by reflexivity.
  assert (SyncExternalService Example.env (Example.quiet [SourceRepo Example.newB]) 10
            time.Minute Example.world
          = (Done None,
             (SyncExternalService Example.env (Example.quiet [SourceRepo Example.newB]) 10
                time.Minute Example.world).2)) as H by (vm_compute; reflexivity).
  split; [exact Hs|]. split; [exact H|].
  exact (proj1 (proj2 (Syncer_sends_nothing_without_channel Example.env _ Example.world Hs))
           _ _ _ _ H).
Defined.

Lemma initialUnmodifiedDiffFromStore_sends_all_witness :
  Synced (Example.syncer []) = true ∧ ctxDone Example.world = false
  ∧ ∃ w', initialUnmodifiedDiffFromStore (Example.syncer []) Example.world = (Done (), w')
          ∧ published (trace w') = [Diff.mk [] [] [] (repos Example.store)].
Proof.
  assert (Synced (Example.syncer []) = true) as Hs by reflexivity.
  assert (ctxDone Example.world = false) as Hc by reflexivity.
  split; [exact Hs|]. split; [exact Hc|].
  destruct (initialUnmodifiedDiffFromStore_sends_all _ _ Hs Hc) as (w' & Hrun & _ & Htr).
  exists w'. split; [exact Hrun|]. rewrite Htr. reflexivity.
Defined.

Lemma SyncRepo_unknown_host_witness :
  CodeHostOf Example.env "gitlab.com/o/x" = None
  ∧ SyncRepo Example.env Example.lazySyncer "gitlab.com/o/x" false Example.world
    = (Done (None, Some (RepoNotFoundErr "gitlab.com/o/x")),
       afterCall (OpGetByName "gitlab.com/o/x") Example.store Example.world).
Proof.
  assert (CodeHostOf Example.env "gitlab.com/o/x" = None) as H by reflexivity.
  split; [exact H|].
  exact (SyncRepo_unknown_host Example.env Example.lazySyncer "gitlab.com/o/x" false
           Example.world H).
Defined.

Lemma SyncRepo_recently_updated_witness :
  RepoStore.GetByName "github.com/o/a" Example.early
    = (Done (inr Example.repoA), (RepoStore.GetByName "github.com/o/a" Example.early).2)
  ∧ CodeHostOf Example.env "github.com/o/a" = Some Example.github
  ∧ Repo.Private Example.repoA = false
  ∧ clock Example.early - Repo.UpdatedAt Example.repoA < time.Minute
  ∧ SyncRepo Example.env Example.lazySyncer "github.com/o/a" false Example.early
    = (Done (Some Example.repoA, None),
       (RepoStore.GetByName "github.com/o/a" Example.early).2).
Proof.
  assert (RepoStore.GetByName "github.com/o/a" Example.early
          = (Done (inr Example.repoA),
             (RepoStore.GetByName "github.com/o/a" Example.early).2)) as H1
    by (vm_compute; reflexivity).
  assert (CodeHostOf Example.env "github.com/o/a" = Some Example.github) as H2
    by (vm_compute; reflexivity).
  assert (Repo.Private Example.repoA = false) as H3 by reflexivity.
  assert (clock Example.early - Repo.UpdatedAt Example.repoA < time.Minute) as H4
    by (vm_compute; reflexivity).
  split; [exact H1|]. split; [exact H2|]. split; [exact H3|]. split; [exact H4|].
  exact (proj1 (SyncRepo_recently_updated Example.env Example.lazySyncer "github.com/o/a"
                  false _ _ _ _ H1 H2 H3 H4)).
Defined.


Lemma syncRepo_returns_fetched_witness :
  ExternalServiceStore.List (servicesOptions Example.env Example.github) Example.world
    = (Done (inr [Example.cloudService]),
       (ExternalServiceStore.List (servicesOptions Example.env Example.github)
          Example.world).2)
  ∧ Sourcer Example.liveSyncer Example.cloudService = inr Example.publicGetter
  ∧ syncRepo Example.env Example.liveSyncer Example.github "github.com/o/a"
      (Some Example.repoA) Example.world
    = (Done (Some Example.liveA, None),
       (syncRepo Example.env Example.liveSyncer Example.github "github.com/o/a"
          (Some Example.repoA) Example.world).2)
  ∧ Repo.ID Example.liveA = 0
  ∧ Repo.ID Example.repoA = 1
  ∧ ∃ live, Repo.Private live = false
      ∧ (matching Example.store live ≠ [] → Example.liveA = live).
Proof.
  assert (ExternalServiceStore.List (servicesOptions Example.env Example.github)
            Example.world
          = (Done (inr [Example.cloudService]),
             (ExternalServiceStore.List (servicesOptions Example.env Example.github)
                Example.world).2)) as H1 by (vm_compute; reflexivity).
  assert (Sourcer Example.liveSyncer Example.cloudService = inr Example.publicGetter)
    as H2 by reflexivity.
  assert (GetRepo Example.publicGetter
          = Some (λ path, inr (Repo.mk 0 ("github.com/" +:+ path) (Example.spec path)
                                 false 0 [30]))) as H3 by reflexivity.
  assert (syncRepo Example.env Example.liveSyncer Example.github "github.com/o/a"
            (Some Example.repoA) Example.world
          = (Done (Some Example.liveA, None),
             (syncRepo Example.env Example.liveSyncer Example.github "github.com/o/a"
                (Some Example.repoA) Example.world).2)) as H4 by (vm_compute; reflexivity).
  split; [exact H1|]. split; [exact H2|]. split; [exact H4|].
  split; [reflexivity|]. split; [reflexivity|].
  destruct (syncRepo_returns_fetched _ _ _ _ _ _ _ _ _ _ _ _ H1 H2 H3 H4)
    as (live & _ & Hpub & Hsame & _).
  exists live. split; [exact Hpub|exact Hsame].
Defined.

Lemma sync_leaves_other_rows_witness :
  NoDup (Repo.ID <$> repos Example.store)
  ∧ sync Example.env (Example.syncer []) Example.userService Example.renamed Example.world
    = (Done (Diff.mk [] [] [Example.renamedC] [], None), Example.renameC.2)
  ∧ Example.repoA ∈ repos Example.store
  ∧ Repo.Name Example.repoA ≠ Repo.Name Example.renamed
  ∧ Repo.ExternalRepo Example.repoA ≠ Repo.ExternalRepo Example.renamed
  ∧ Example.repoA ∈ repos (db Example.renameC.2).
Proof.
  assert (NoDup (Repo.ID <$> repos (db Example.world))) as Hnd
    by (apply (bool_decide_unpack _); vm_compute; exact I).
  assert (sync Example.env (Example.syncer []) Example.userService Example.renamed
            Example.world
          = (Done (Diff.mk [] [] [Example.renamedC] [], None), Example.renameC.2)) as H
    by (vm_compute; reflexivity).
  assert (Example.repoA ∈ repos (db Example.world)) as Hin by apply list_elem_of_here.
  assert (Repo.Name Example.repoA ≠ Repo.Name Example.renamed) as Hname
    by (vm_compute; discriminate).
  assert (Repo.ExternalRepo Example.repoA ≠ Repo.ExternalRepo Example.renamed) as Hspec
    by (vm_compute; discriminate).
  split; [exact Hnd|]. split; [exact H|]. split; [exact Hin|]. split; [exact Hname|].
  split; [exact Hspec|].
  exact (sync_leaves_other_rows _ _ _ _ _ _ _ _ Hnd H Hin Hname Hspec).
Defined.

Lemma SyncExternalService_mirrors_source_witness :
  unique Example.store ∧ fresh Example.store ∧ healthy Example.world
  ∧ ExternalServiceStore.GetByID 10 Example.world
    = (Done (inr Example.userService), (ExternalServiceStore.GetByID 10 Example.world).2)
  ∧ ExternalService.CloudDefault Example.userService = false
  ∧ allowedFor Example.env Example.userService
      (ExternalServiceStore.GetByID 10 Example.world).2
    = (Done (inr Example.publicOnly),
       (allowedFor Example.env Example.userService
          (ExternalServiceStore.GetByID 10 Example.world).2).2)
  ∧ Forall (λ x, Example.publicOnly x = true) Example.listing
  ∧ NoDup (Repo.Name <$> Example.listing)
  ∧ NoDup (Repo.ExternalRepo <$> Example.listing)
  ∧ SyncExternalService Example.env (Example.syncer (SourceRepo <$> Example.listing)) 10
      time.Minute Example.world = (Done None, Example.passListing.2)
  ∧ (∀ x, x ∈ Example.listing →
       ∃ row, row ∈ repos (db Example.passListing.2) ∧ Repo.Name row = Repo.Name x)
  ∧ (∀ row, row ∈ repos (db Example.passListing.2) → 10 ∈ Repo.Sources row →
       ∃ x, x ∈ Example.listing ∧ Repo.Name row = Repo.Name x).
Proof.
  assert (unique (db Example.world)) as Hu.
  { unfold unique. simpl. split; [|split]; apply (bool_decide_unpack _); vm_compute; exact I. }
  assert (fresh (db Example.world)) as Hf
    by (apply (bool_decide_unpack _); vm_compute; exact I).
  assert (healthy Example.world) as Hh by constructor.
  assert (ExternalServiceStore.GetByID 10 Example.world
          = (Done (inr Example.userService),
             (ExternalServiceStore.GetByID 10 Example.world).2)) as H1
    by (vm_compute; reflexivity).
  assert (ExternalService.CloudDefault Example.userService = false) as H2 by reflexivity.
  assert (allowedFor Example.env Example.userService
            (ExternalServiceStore.GetByID 10 Example.world).2
          = (Done (inr Example.publicOnly),
             (allowedFor Example.env Example.userService
                (ExternalServiceStore.GetByID 10 Example.world).2).2)) as H3
    by (vm_compute; reflexivity).
  assert (Sourcer (Example.syncer (SourceRepo <$> Example.listing)) Example.userService
          = inr (Example.sourceOf (SourceRepo <$> Example.listing))) as H4 by reflexivity.
  assert (ListRepos (Example.sourceOf (SourceRepo <$> Example.listing))
          = SourceRepo <$> Example.listing) as H5 by reflexivity.
  assert (Forall (λ x, Example.publicOnly x = true) Example.listing) as H6
    by (repeat constructor).
  assert (NoDup (Repo.Name <$> Example.listing)) as H7
    by (apply (bool_decide_unpack _); vm_compute; exact I).
  assert (NoDup (Repo.ExternalRepo <$> Example.listing)) as H8
    by (apply (bool_decide_unpack _); vm_compute; exact I).
  assert (SyncExternalService Example.env
            (Example.syncer (SourceRepo <$> Example.listing)) 10 time.Minute Example.world
          = (Done None, Example.passListing.2)) as H9 by (vm_compute; reflexivity).
  split; [exact Hu|]. split; [exact Hf|]. split; [exact Hh|]. split; [exact H1|].
  split; [exact H2|]. split; [exact H3|]. split; [exact H6|]. split; [exact H7|].
  split; [exact H8|]. split; [exact H9|].
  destruct (SyncExternalService_mirrors_source _ _ _ _ _ _ _ _ _ _ _ _
              Hu Hf Hh H1 H2 H3 H4 H5 H6 H7 H8 H9) as (Hall & Hrows & _).
  split.
  - intros x Hx. destruct (Hall x Hx) as (row & Hin & Hname & _).
    exists row. exact (conj Hin Hname).
  - intros row Hin Hsvc. destruct (Hrows row Hin Hsvc) as (x & Hx & Hname & _).
    exists x. exact (conj Hx Hname).
Defined.
